(** * Fitsemeet: the in-memory room model and the Socket.IO session coordinator

    A shallow embedding of [models/roomModel.js] (class [Room], [roomUtils],
    the module-level maps [rooms] and [participants]) and of the Socket.IO
    handlers of [server.js] (the maps [socketToUser], [userToSocket],
    [userLastActivity], the [join-room] / [disconnect] handlers with their
    [setTimeout] continuations, the relays and the HTTP join route).

    Conventions.
    - JavaScript strings are [string]; socket ids, e-mails and room codes are
      all strings, as in the source. A [string] holds the text in UTF-8 (an
      unpaired surrogate as the three bytes of its code point), so that
      equality, emptiness and concatenation are those of the texts; where
      the program looks at characters ([toUpperCase], the regular
      expressions) the text is split into its code points.
    - A JavaScript [Set] iterates in insertion order, and [Array.from] of it
      is observable in the rosters the server emits: [JSSet] keeps that order.
    - A JavaScript [Map] whose iteration order is not observed is a [gmap].
    - [Room] objects are shared by reference (the registry holds them and the
      disconnect continuation captures them): they live in a store [heap],
      and the registry maps a code to a location.
    - [Date.now()], [new Date()] and [Math.random()] are inputs of the
      handlers ([now], [rnd]); an ISO timestamp is the instant it renders.
    - Calls into Socket.IO ([emit], [join], [disconnect]) are recorded in an
      effect log, with the addressing the code asked for. *)

From Stdlib Require Import ZArith Ascii String.
From stdpp Require Import base option list gmap strings.

Local Open Scope string_scope.
Local Open Scope Z_scope.
Local Open Scope list_scope.

(** ** JavaScript values used by the program *)

(** Completion of a call that may [throw new Error(msg)]. *)
Inductive result (A : Type) : Type :=
| Ok (a : A)
| Throw (message : string).
Arguments Ok {A} a.
Arguments Throw {A} message.

(** Truthiness of a string: only the empty string is falsy. *)
Definition truthy (s : string) : bool := negb (String.eqb s "").

(** *** Characters

    A byte of the form [10xxxxxx] continues the character begun before it;
    any other byte begins a character. *)
Definition isContinuation (c : ascii) : bool :=
  let n := nat_of_ascii c in (128 <=? n)%nat && (n <? 192)%nat.

Definition startsWithContinuation (s : string) : bool :=
  match s with
  | String c _ => isContinuation c
  | EmptyString => false
  end.

(** The code points of a string, in order, each as its own text
    ([Array.from(s)]). *)
Fixpoint codePoints (s : string) : list string :=
  match s with
  | EmptyString => []
  | String c s' =>
      match codePoints s' with
      | ch :: rest =>
          if startsWithContinuation ch then String c ch :: rest
          else String c EmptyString :: ch :: rest
      | [] => [String c EmptyString]
      end
  end.

(** [parts.join("")] *)
Definition join (parts : list string) : string :=
  foldr String.append "" parts.

(** The capital of an ASCII letter; any other byte is left alone. *)
Definition upper_ascii (c : ascii) : ascii :=
  let n := nat_of_ascii c in
  if ((97 <=? n) && (n <=? 122))%nat then ascii_of_nat (n - 32) else c.

(** The upper-case mapping of the code points beyond ASCII that have one
    (1499 of them): the unconditional mappings of the Unicode Character
    Database (UnicodeData.txt and SpecialCasing.txt, Unicode 14.0), which
    [String.prototype.toUpperCase] applies code point by code point,
    whatever the locale. Some letters map to more than one code point. *)
Definition upperTable : list (string * string) :=
  [ ("µ", "Μ"); ("ß", "SS"); ("à", "À"); ("á", "Á"); ("â", "Â"); ("ã", "Ã");
    ("ä", "Ä"); ("å", "Å"); ("æ", "Æ"); ("ç", "Ç"); ("è", "È"); ("é", "É");
    ("ê", "Ê"); ("ë", "Ë"); ("ì", "Ì"); ("í", "Í"); ("î", "Î"); ("ï", "Ï");
    ("ð", "Ð"); ("ñ", "Ñ"); ("ò", "Ò"); ("ó", "Ó"); ("ô", "Ô"); ("õ", "Õ");
    ("ö", "Ö"); ("ø", "Ø"); ("ù", "Ù"); ("ú", "Ú"); ("û", "Û"); ("ü", "Ü");
    ("ý", "Ý"); ("þ", "Þ"); ("ÿ", "Ÿ"); ("ā", "Ā"); ("ă", "Ă"); ("ą", "Ą");
    ("ć", "Ć"); ("ĉ", "Ĉ"); ("ċ", "Ċ"); ("č", "Č"); ("ď", "Ď"); ("đ", "Đ");
    ("ē", "Ē"); ("ĕ", "Ĕ"); ("ė", "Ė"); ("ę", "Ę"); ("ě", "Ě"); ("ĝ", "Ĝ");
    ("ğ", "Ğ"); ("ġ", "Ġ"); ("ģ", "Ģ"); ("ĥ", "Ĥ"); ("ħ", "Ħ"); ("ĩ", "Ĩ");
    ("ī", "Ī"); ("ĭ", "Ĭ"); ("į", "Į"); ("ı", "I"); ("ĳ", "Ĳ"); ("ĵ", "Ĵ");
    ("ķ", "Ķ"); ("ĺ", "Ĺ"); ("ļ", "Ļ"); ("ľ", "Ľ"); ("ŀ", "Ŀ"); ("ł", "Ł");
    ("ń", "Ń"); ("ņ", "Ņ"); ("ň", "Ň"); ("ŉ", "ʼN"); ("ŋ", "Ŋ"); ("ō", "Ō");
    ("ŏ", "Ŏ"); ("ő", "Ő"); ("œ", "Œ"); ("ŕ", "Ŕ"); ("ŗ", "Ŗ"); ("ř", "Ř");
    ("ś", "Ś"); ("ŝ", "Ŝ"); ("ş", "Ş"); ("š", "Š"); ("ţ", "Ţ"); ("ť", "Ť");
    ("ŧ", "Ŧ"); ("ũ", "Ũ"); ("ū", "Ū"); ("ŭ", "Ŭ"); ("ů", "Ů"); ("ű", "Ű");
    ("ų", "Ų"); ("ŵ", "Ŵ"); ("ŷ", "Ŷ"); ("ź", "Ź"); ("ż", "Ż"); ("ž", "Ž");
    ("ſ", "S"); ("ƀ", "Ƀ"); ("ƃ", "Ƃ"); ("ƅ", "Ƅ"); ("ƈ", "Ƈ"); ("ƌ", "Ƌ");
    ("ƒ", "Ƒ"); ("ƕ", "Ƕ"); ("ƙ", "Ƙ"); ("ƚ", "Ƚ"); ("ƞ", "Ƞ"); ("ơ", "Ơ");
    ("ƣ", "Ƣ"); ("ƥ", "Ƥ"); ("ƨ", "Ƨ"); ("ƭ", "Ƭ"); ("ư", "Ư"); ("ƴ", "Ƴ");
    ("ƶ", "Ƶ"); ("ƹ", "Ƹ"); ("ƽ", "Ƽ"); ("ƿ", "Ƿ"); ("ǅ", "Ǆ"); ("ǆ", "Ǆ");
    ("ǈ", "Ǉ"); ("ǉ", "Ǉ"); ("ǋ", "Ǌ"); ("ǌ", "Ǌ"); ("ǎ", "Ǎ"); ("ǐ", "Ǐ");
    ("ǒ", "Ǒ"); ("ǔ", "Ǔ"); ("ǖ", "Ǖ"); ("ǘ", "Ǘ"); ("ǚ", "Ǚ"); ("ǜ", "Ǜ");
    ("ǝ", "Ǝ"); ("ǟ", "Ǟ"); ("ǡ", "Ǡ"); ("ǣ", "Ǣ"); ("ǥ", "Ǥ"); ("ǧ", "Ǧ");
    ("ǩ", "Ǩ"); ("ǫ", "Ǫ"); ("ǭ", "Ǭ"); ("ǯ", "Ǯ"); ("ǰ", "J̌"); ("ǲ", "Ǳ");
    ("ǳ", "Ǳ"); ("ǵ", "Ǵ"); ("ǹ", "Ǹ"); ("ǻ", "Ǻ"); ("ǽ", "Ǽ"); ("ǿ", "Ǿ");
    ("ȁ", "Ȁ"); ("ȃ", "Ȃ"); ("ȅ", "Ȅ"); ("ȇ", "Ȇ"); ("ȉ", "Ȉ"); ("ȋ", "Ȋ");
    ("ȍ", "Ȍ"); ("ȏ", "Ȏ"); ("ȑ", "Ȑ"); ("ȓ", "Ȓ"); ("ȕ", "Ȕ"); ("ȗ", "Ȗ");
    ("ș", "Ș"); ("ț", "Ț"); ("ȝ", "Ȝ"); ("ȟ", "Ȟ"); ("ȣ", "Ȣ"); ("ȥ", "Ȥ");
    ("ȧ", "Ȧ"); ("ȩ", "Ȩ"); ("ȫ", "Ȫ"); ("ȭ", "Ȭ"); ("ȯ", "Ȯ"); ("ȱ", "Ȱ");
    ("ȳ", "Ȳ"); ("ȼ", "Ȼ"); ("ȿ", "Ȿ"); ("ɀ", "Ɀ"); ("ɂ", "Ɂ"); ("ɇ", "Ɇ");
    ("ɉ", "Ɉ"); ("ɋ", "Ɋ"); ("ɍ", "Ɍ"); ("ɏ", "Ɏ"); ("ɐ", "Ɐ"); ("ɑ", "Ɑ");
    ("ɒ", "Ɒ"); ("ɓ", "Ɓ"); ("ɔ", "Ɔ"); ("ɖ", "Ɖ"); ("ɗ", "Ɗ"); ("ə", "Ə");
    ("ɛ", "Ɛ"); ("ɜ", "Ɜ"); ("ɠ", "Ɠ"); ("ɡ", "Ɡ"); ("ɣ", "Ɣ"); ("ɥ", "Ɥ");
    ("ɦ", "Ɦ"); ("ɨ", "Ɨ"); ("ɩ", "Ɩ"); ("ɪ", "Ɪ"); ("ɫ", "Ɫ"); ("ɬ", "Ɬ");
    ("ɯ", "Ɯ"); ("ɱ", "Ɱ"); ("ɲ", "Ɲ"); ("ɵ", "Ɵ"); ("ɽ", "Ɽ"); ("ʀ", "Ʀ");
    ("ʂ", "Ʂ"); ("ʃ", "Ʃ"); ("ʇ", "Ʇ"); ("ʈ", "Ʈ"); ("ʉ", "Ʉ"); ("ʊ", "Ʊ");
    ("ʋ", "Ʋ"); ("ʌ", "Ʌ"); ("ʒ", "Ʒ"); ("ʝ", "Ʝ"); ("ʞ", "Ʞ"); ("ͅ", "Ι");
    ("ͱ", "Ͱ"); ("ͳ", "Ͳ"); ("ͷ", "Ͷ"); ("ͻ", "Ͻ"); ("ͼ", "Ͼ"); ("ͽ", "Ͽ");
    ("ΐ", "Ϊ́"); ("ά", "Ά"); ("έ", "Έ"); ("ή", "Ή"); ("ί", "Ί");
    ("ΰ", "Ϋ́"); ("α", "Α"); ("β", "Β"); ("γ", "Γ"); ("δ", "Δ"); ("ε", "Ε");
    ("ζ", "Ζ"); ("η", "Η"); ("θ", "Θ"); ("ι", "Ι"); ("κ", "Κ"); ("λ", "Λ");
    ("μ", "Μ"); ("ν", "Ν"); ("ξ", "Ξ"); ("ο", "Ο"); ("π", "Π"); ("ρ", "Ρ");
    ("ς", "Σ"); ("σ", "Σ"); ("τ", "Τ"); ("υ", "Υ"); ("φ", "Φ"); ("χ", "Χ");
    ("ψ", "Ψ"); ("ω", "Ω"); ("ϊ", "Ϊ"); ("ϋ", "Ϋ"); ("ό", "Ό"); ("ύ", "Ύ");
    ("ώ", "Ώ"); ("ϐ", "Β"); ("ϑ", "Θ"); ("ϕ", "Φ"); ("ϖ", "Π"); ("ϗ", "Ϗ");
    ("ϙ", "Ϙ"); ("ϛ", "Ϛ"); ("ϝ", "Ϝ"); ("ϟ", "Ϟ"); ("ϡ", "Ϡ"); ("ϣ", "Ϣ");
    ("ϥ", "Ϥ"); ("ϧ", "Ϧ"); ("ϩ", "Ϩ"); ("ϫ", "Ϫ"); ("ϭ", "Ϭ"); ("ϯ", "Ϯ");
    ("ϰ", "Κ"); ("ϱ", "Ρ"); ("ϲ", "Ϲ"); ("ϳ", "Ϳ"); ("ϵ", "Ε"); ("ϸ", "Ϸ");
    ("ϻ", "Ϻ"); ("а", "А"); ("б", "Б"); ("в", "В"); ("г", "Г"); ("д", "Д");
    ("е", "Е"); ("ж", "Ж"); ("з", "З"); ("и", "И"); ("й", "Й"); ("к", "К");
    ("л", "Л"); ("м", "М"); ("н", "Н"); ("о", "О"); ("п", "П"); ("р", "Р");
    ("с", "С"); ("т", "Т"); ("у", "У"); ("ф", "Ф"); ("х", "Х"); ("ц", "Ц");
    ("ч", "Ч"); ("ш", "Ш"); ("щ", "Щ"); ("ъ", "Ъ"); ("ы", "Ы"); ("ь", "Ь");
    ("э", "Э"); ("ю", "Ю"); ("я", "Я"); ("ѐ", "Ѐ"); ("ё", "Ё"); ("ђ", "Ђ");
    ("ѓ", "Ѓ"); ("є", "Є"); ("ѕ", "Ѕ"); ("і", "І"); ("ї", "Ї"); ("ј", "Ј");
    ("љ", "Љ"); ("њ", "Њ"); ("ћ", "Ћ"); ("ќ", "Ќ"); ("ѝ", "Ѝ"); ("ў", "Ў");
    ("џ", "Џ"); ("ѡ", "Ѡ"); ("ѣ", "Ѣ"); ("ѥ", "Ѥ"); ("ѧ", "Ѧ"); ("ѩ", "Ѩ");
    ("ѫ", "Ѫ"); ("ѭ", "Ѭ"); ("ѯ", "Ѯ"); ("ѱ", "Ѱ"); ("ѳ", "Ѳ"); ("ѵ", "Ѵ");
    ("ѷ", "Ѷ"); ("ѹ", "Ѹ"); ("ѻ", "Ѻ"); ("ѽ", "Ѽ"); ("ѿ", "Ѿ"); ("ҁ", "Ҁ");
    ("ҋ", "Ҋ"); ("ҍ", "Ҍ"); ("ҏ", "Ҏ"); ("ґ", "Ґ"); ("ғ", "Ғ"); ("ҕ", "Ҕ");
    ("җ", "Җ"); ("ҙ", "Ҙ"); ("қ", "Қ"); ("ҝ", "Ҝ"); ("ҟ", "Ҟ"); ("ҡ", "Ҡ");
    ("ң", "Ң"); ("ҥ", "Ҥ"); ("ҧ", "Ҧ"); ("ҩ", "Ҩ"); ("ҫ", "Ҫ"); ("ҭ", "Ҭ");
    ("ү", "Ү"); ("ұ", "Ұ"); ("ҳ", "Ҳ"); ("ҵ", "Ҵ"); ("ҷ", "Ҷ"); ("ҹ", "Ҹ");
    ("һ", "Һ"); ("ҽ", "Ҽ"); ("ҿ", "Ҿ"); ("ӂ", "Ӂ"); ("ӄ", "Ӄ"); ("ӆ", "Ӆ");
    ("ӈ", "Ӈ"); ("ӊ", "Ӊ"); ("ӌ", "Ӌ"); ("ӎ", "Ӎ"); ("ӏ", "Ӏ"); ("ӑ", "Ӑ");
    ("ӓ", "Ӓ"); ("ӕ", "Ӕ"); ("ӗ", "Ӗ"); ("ә", "Ә"); ("ӛ", "Ӛ"); ("ӝ", "Ӝ");
    ("ӟ", "Ӟ"); ("ӡ", "Ӡ"); ("ӣ", "Ӣ"); ("ӥ", "Ӥ"); ("ӧ", "Ӧ"); ("ө", "Ө");
    ("ӫ", "Ӫ"); ("ӭ", "Ӭ"); ("ӯ", "Ӯ"); ("ӱ", "Ӱ"); ("ӳ", "Ӳ"); ("ӵ", "Ӵ");
    ("ӷ", "Ӷ"); ("ӹ", "Ӹ"); ("ӻ", "Ӻ"); ("ӽ", "Ӽ"); ("ӿ", "Ӿ"); ("ԁ", "Ԁ");
    ("ԃ", "Ԃ"); ("ԅ", "Ԅ"); ("ԇ", "Ԇ"); ("ԉ", "Ԉ"); ("ԋ", "Ԋ"); ("ԍ", "Ԍ");
    ("ԏ", "Ԏ"); ("ԑ", "Ԑ"); ("ԓ", "Ԓ"); ("ԕ", "Ԕ"); ("ԗ", "Ԗ"); ("ԙ", "Ԙ");
    ("ԛ", "Ԛ"); ("ԝ", "Ԝ"); ("ԟ", "Ԟ"); ("ԡ", "Ԡ"); ("ԣ", "Ԣ"); ("ԥ", "Ԥ");
    ("ԧ", "Ԧ"); ("ԩ", "Ԩ"); ("ԫ", "Ԫ"); ("ԭ", "Ԭ"); ("ԯ", "Ԯ"); ("ա", "Ա");
    ("բ", "Բ"); ("գ", "Գ"); ("դ", "Դ"); ("ե", "Ե"); ("զ", "Զ"); ("է", "Է");
    ("ը", "Ը"); ("թ", "Թ"); ("ժ", "Ժ"); ("ի", "Ի"); ("լ", "Լ"); ("խ", "Խ");
    ("ծ", "Ծ"); ("կ", "Կ"); ("հ", "Հ"); ("ձ", "Ձ"); ("ղ", "Ղ"); ("ճ", "Ճ");
    ("մ", "Մ"); ("յ", "Յ"); ("ն", "Ն"); ("շ", "Շ"); ("ո", "Ո"); ("չ", "Չ");
    ("պ", "Պ"); ("ջ", "Ջ"); ("ռ", "Ռ"); ("ս", "Ս"); ("վ", "Վ"); ("տ", "Տ");
    ("ր", "Ր"); ("ց", "Ց"); ("ւ", "Ւ"); ("փ", "Փ"); ("ք", "Ք"); ("օ", "Օ");
    ("ֆ", "Ֆ"); ("և", "ԵՒ"); ("ა", "Ა"); ("ბ", "Ბ"); ("გ", "Გ"); ("დ", "Დ");
    ("ე", "Ე"); ("ვ", "Ვ"); ("ზ", "Ზ"); ("თ", "Თ"); ("ი", "Ი"); ("კ", "Კ");
    ("ლ", "Ლ"); ("მ", "Მ"); ("ნ", "Ნ"); ("ო", "Ო"); ("პ", "Პ"); ("ჟ", "Ჟ");
    ("რ", "Რ"); ("ს", "Ს"); ("ტ", "Ტ"); ("უ", "Უ"); ("ფ", "Ფ"); ("ქ", "Ქ");
    ("ღ", "Ღ"); ("ყ", "Ყ"); ("შ", "Შ"); ("ჩ", "Ჩ"); ("ც", "Ც"); ("ძ", "Ძ");
    ("წ", "Წ"); ("ჭ", "Ჭ"); ("ხ", "Ხ"); ("ჯ", "Ჯ"); ("ჰ", "Ჰ"); ("ჱ", "Ჱ");
    ("ჲ", "Ჲ"); ("ჳ", "Ჳ"); ("ჴ", "Ჴ"); ("ჵ", "Ჵ"); ("ჶ", "Ჶ"); ("ჷ", "Ჷ");
    ("ჸ", "Ჸ"); ("ჹ", "Ჹ"); ("ჺ", "Ჺ"); ("ჽ", "Ჽ"); ("ჾ", "Ჾ"); ("ჿ", "Ჿ");
    ("ᏸ", "Ᏸ"); ("ᏹ", "Ᏹ"); ("ᏺ", "Ᏺ"); ("ᏻ", "Ᏻ"); ("ᏼ", "Ᏼ"); ("ᏽ", "Ᏽ");
    ("ᲀ", "В"); ("ᲁ", "Д"); ("ᲂ", "О"); ("ᲃ", "С"); ("ᲄ", "Т"); ("ᲅ", "Т");
    ("ᲆ", "Ъ"); ("ᲇ", "Ѣ"); ("ᲈ", "Ꙋ"); ("ᵹ", "Ᵹ"); ("ᵽ", "Ᵽ"); ("ᶎ", "Ᶎ");
    ("ḁ", "Ḁ"); ("ḃ", "Ḃ"); ("ḅ", "Ḅ"); ("ḇ", "Ḇ"); ("ḉ", "Ḉ"); ("ḋ", "Ḋ");
    ("ḍ", "Ḍ"); ("ḏ", "Ḏ"); ("ḑ", "Ḑ"); ("ḓ", "Ḓ"); ("ḕ", "Ḕ"); ("ḗ", "Ḗ");
    ("ḙ", "Ḙ"); ("ḛ", "Ḛ"); ("ḝ", "Ḝ"); ("ḟ", "Ḟ"); ("ḡ", "Ḡ"); ("ḣ", "Ḣ");
    ("ḥ", "Ḥ"); ("ḧ", "Ḧ"); ("ḩ", "Ḩ"); ("ḫ", "Ḫ"); ("ḭ", "Ḭ"); ("ḯ", "Ḯ");
    ("ḱ", "Ḱ"); ("ḳ", "Ḳ"); ("ḵ", "Ḵ"); ("ḷ", "Ḷ"); ("ḹ", "Ḹ"); ("ḻ", "Ḻ");
    ("ḽ", "Ḽ"); ("ḿ", "Ḿ"); ("ṁ", "Ṁ"); ("ṃ", "Ṃ"); ("ṅ", "Ṅ"); ("ṇ", "Ṇ");
    ("ṉ", "Ṉ"); ("ṋ", "Ṋ"); ("ṍ", "Ṍ"); ("ṏ", "Ṏ"); ("ṑ", "Ṑ"); ("ṓ", "Ṓ");
    ("ṕ", "Ṕ"); ("ṗ", "Ṗ"); ("ṙ", "Ṙ"); ("ṛ", "Ṛ"); ("ṝ", "Ṝ"); ("ṟ", "Ṟ");
    ("ṡ", "Ṡ"); ("ṣ", "Ṣ"); ("ṥ", "Ṥ"); ("ṧ", "Ṧ"); ("ṩ", "Ṩ"); ("ṫ", "Ṫ");
    ("ṭ", "Ṭ"); ("ṯ", "Ṯ"); ("ṱ", "Ṱ"); ("ṳ", "Ṳ"); ("ṵ", "Ṵ"); ("ṷ", "Ṷ");
    ("ṹ", "Ṹ"); ("ṻ", "Ṻ"); ("ṽ", "Ṽ"); ("ṿ", "Ṿ"); ("ẁ", "Ẁ"); ("ẃ", "Ẃ");
    ("ẅ", "Ẅ"); ("ẇ", "Ẇ"); ("ẉ", "Ẉ"); ("ẋ", "Ẋ"); ("ẍ", "Ẍ"); ("ẏ", "Ẏ");
    ("ẑ", "Ẑ"); ("ẓ", "Ẓ"); ("ẕ", "Ẕ"); ("ẖ", "H̱"); ("ẗ", "T̈");
    ("ẘ", "W̊"); ("ẙ", "Y̊"); ("ẚ", "Aʾ"); ("ẛ", "Ṡ"); ("ạ", "Ạ");
    ("ả", "Ả"); ("ấ", "Ấ"); ("ầ", "Ầ"); ("ẩ", "Ẩ"); ("ẫ", "Ẫ"); ("ậ", "Ậ");
    ("ắ", "Ắ"); ("ằ", "Ằ"); ("ẳ", "Ẳ"); ("ẵ", "Ẵ"); ("ặ", "Ặ"); ("ẹ", "Ẹ");
    ("ẻ", "Ẻ"); ("ẽ", "Ẽ"); ("ế", "Ế"); ("ề", "Ề"); ("ể", "Ể"); ("ễ", "Ễ");
    ("ệ", "Ệ"); ("ỉ", "Ỉ"); ("ị", "Ị"); ("ọ", "Ọ"); ("ỏ", "Ỏ"); ("ố", "Ố");
    ("ồ", "Ồ"); ("ổ", "Ổ"); ("ỗ", "Ỗ"); ("ộ", "Ộ"); ("ớ", "Ớ"); ("ờ", "Ờ");
    ("ở", "Ở"); ("ỡ", "Ỡ"); ("ợ", "Ợ"); ("ụ", "Ụ"); ("ủ", "Ủ"); ("ứ", "Ứ");
    ("ừ", "Ừ"); ("ử", "Ử"); ("ữ", "Ữ"); ("ự", "Ự"); ("ỳ", "Ỳ"); ("ỵ", "Ỵ");
    ("ỷ", "Ỷ"); ("ỹ", "Ỹ"); ("ỻ", "Ỻ"); ("ỽ", "Ỽ"); ("ỿ", "Ỿ"); ("ἀ", "Ἀ");
    ("ἁ", "Ἁ"); ("ἂ", "Ἂ"); ("ἃ", "Ἃ"); ("ἄ", "Ἄ"); ("ἅ", "Ἅ"); ("ἆ", "Ἆ");
    ("ἇ", "Ἇ"); ("ἐ", "Ἐ"); ("ἑ", "Ἑ"); ("ἒ", "Ἒ"); ("ἓ", "Ἓ"); ("ἔ", "Ἔ");
    ("ἕ", "Ἕ"); ("ἠ", "Ἠ"); ("ἡ", "Ἡ"); ("ἢ", "Ἢ"); ("ἣ", "Ἣ"); ("ἤ", "Ἤ");
    ("ἥ", "Ἥ"); ("ἦ", "Ἦ"); ("ἧ", "Ἧ"); ("ἰ", "Ἰ"); ("ἱ", "Ἱ"); ("ἲ", "Ἲ");
    ("ἳ", "Ἳ"); ("ἴ", "Ἴ"); ("ἵ", "Ἵ"); ("ἶ", "Ἶ"); ("ἷ", "Ἷ"); ("ὀ", "Ὀ");
    ("ὁ", "Ὁ"); ("ὂ", "Ὂ"); ("ὃ", "Ὃ"); ("ὄ", "Ὄ"); ("ὅ", "Ὅ"); ("ὐ", "Υ̓");
    ("ὑ", "Ὑ"); ("ὒ", "Υ̓̀"); ("ὓ", "Ὓ"); ("ὔ", "Υ̓́"); ("ὕ", "Ὕ");
    ("ὖ", "Υ̓͂"); ("ὗ", "Ὗ"); ("ὠ", "Ὠ"); ("ὡ", "Ὡ"); ("ὢ", "Ὢ"); ("ὣ", "Ὣ");
    ("ὤ", "Ὤ"); ("ὥ", "Ὥ"); ("ὦ", "Ὦ"); ("ὧ", "Ὧ"); ("ὰ", "Ὰ"); ("ά", "Ά");
    ("ὲ", "Ὲ"); ("έ", "Έ"); ("ὴ", "Ὴ"); ("ή", "Ή"); ("ὶ", "Ὶ"); ("ί", "Ί");
    ("ὸ", "Ὸ"); ("ό", "Ό"); ("ὺ", "Ὺ"); ("ύ", "Ύ"); ("ὼ", "Ὼ"); ("ώ", "Ώ");
    ("ᾀ", "ἈΙ"); ("ᾁ", "ἉΙ"); ("ᾂ", "ἊΙ"); ("ᾃ", "ἋΙ"); ("ᾄ", "ἌΙ");
    ("ᾅ", "ἍΙ"); ("ᾆ", "ἎΙ"); ("ᾇ", "ἏΙ"); ("ᾈ", "ἈΙ"); ("ᾉ", "ἉΙ");
    ("ᾊ", "ἊΙ"); ("ᾋ", "ἋΙ"); ("ᾌ", "ἌΙ"); ("ᾍ", "ἍΙ"); ("ᾎ", "ἎΙ");
    ("ᾏ", "ἏΙ"); ("ᾐ", "ἨΙ"); ("ᾑ", "ἩΙ"); ("ᾒ", "ἪΙ"); ("ᾓ", "ἫΙ");
    ("ᾔ", "ἬΙ"); ("ᾕ", "ἭΙ"); ("ᾖ", "ἮΙ"); ("ᾗ", "ἯΙ"); ("ᾘ", "ἨΙ");
    ("ᾙ", "ἩΙ"); ("ᾚ", "ἪΙ"); ("ᾛ", "ἫΙ"); ("ᾜ", "ἬΙ"); ("ᾝ", "ἭΙ");
    ("ᾞ", "ἮΙ"); ("ᾟ", "ἯΙ"); ("ᾠ", "ὨΙ"); ("ᾡ", "ὩΙ"); ("ᾢ", "ὪΙ");
    ("ᾣ", "ὫΙ"); ("ᾤ", "ὬΙ"); ("ᾥ", "ὭΙ"); ("ᾦ", "ὮΙ"); ("ᾧ", "ὯΙ");
    ("ᾨ", "ὨΙ"); ("ᾩ", "ὩΙ"); ("ᾪ", "ὪΙ"); ("ᾫ", "ὫΙ"); ("ᾬ", "ὬΙ");
    ("ᾭ", "ὭΙ"); ("ᾮ", "ὮΙ"); ("ᾯ", "ὯΙ"); ("ᾰ", "Ᾰ"); ("ᾱ", "Ᾱ");
    ("ᾲ", "ᾺΙ"); ("ᾳ", "ΑΙ"); ("ᾴ", "ΆΙ"); ("ᾶ", "Α͂"); ("ᾷ", "Α͂Ι");
    ("ᾼ", "ΑΙ"); ("ι", "Ι"); ("ῂ", "ῊΙ"); ("ῃ", "ΗΙ"); ("ῄ", "ΉΙ");
    ("ῆ", "Η͂"); ("ῇ", "Η͂Ι"); ("ῌ", "ΗΙ"); ("ῐ", "Ῐ"); ("ῑ", "Ῑ");
    ("ῒ", "Ϊ̀"); ("ΐ", "Ϊ́"); ("ῖ", "Ι͂"); ("ῗ", "Ϊ͂"); ("ῠ", "Ῠ");
    ("ῡ", "Ῡ"); ("ῢ", "Ϋ̀"); ("ΰ", "Ϋ́"); ("ῤ", "Ρ̓"); ("ῥ", "Ῥ");
    ("ῦ", "Υ͂"); ("ῧ", "Ϋ͂"); ("ῲ", "ῺΙ"); ("ῳ", "ΩΙ"); ("ῴ", "ΏΙ");
    ("ῶ", "Ω͂"); ("ῷ", "Ω͂Ι"); ("ῼ", "ΩΙ"); ("ⅎ", "Ⅎ"); ("ⅰ", "Ⅰ");
    ("ⅱ", "Ⅱ"); ("ⅲ", "Ⅲ"); ("ⅳ", "Ⅳ"); ("ⅴ", "Ⅴ"); ("ⅵ", "Ⅵ"); ("ⅶ", "Ⅶ");
    ("ⅷ", "Ⅷ"); ("ⅸ", "Ⅸ"); ("ⅹ", "Ⅹ"); ("ⅺ", "Ⅺ"); ("ⅻ", "Ⅻ"); ("ⅼ", "Ⅼ");
    ("ⅽ", "Ⅽ"); ("ⅾ", "Ⅾ"); ("ⅿ", "Ⅿ"); ("ↄ", "Ↄ"); ("ⓐ", "Ⓐ"); ("ⓑ", "Ⓑ");
    ("ⓒ", "Ⓒ"); ("ⓓ", "Ⓓ"); ("ⓔ", "Ⓔ"); ("ⓕ", "Ⓕ"); ("ⓖ", "Ⓖ"); ("ⓗ", "Ⓗ");
    ("ⓘ", "Ⓘ"); ("ⓙ", "Ⓙ"); ("ⓚ", "Ⓚ"); ("ⓛ", "Ⓛ"); ("ⓜ", "Ⓜ"); ("ⓝ", "Ⓝ");
    ("ⓞ", "Ⓞ"); ("ⓟ", "Ⓟ"); ("ⓠ", "Ⓠ"); ("ⓡ", "Ⓡ"); ("ⓢ", "Ⓢ"); ("ⓣ", "Ⓣ");
    ("ⓤ", "Ⓤ"); ("ⓥ", "Ⓥ"); ("ⓦ", "Ⓦ"); ("ⓧ", "Ⓧ"); ("ⓨ", "Ⓨ"); ("ⓩ", "Ⓩ");
    ("ⰰ", "Ⰰ"); ("ⰱ", "Ⰱ"); ("ⰲ", "Ⰲ"); ("ⰳ", "Ⰳ"); ("ⰴ", "Ⰴ"); ("ⰵ", "Ⰵ");
    ("ⰶ", "Ⰶ"); ("ⰷ", "Ⰷ"); ("ⰸ", "Ⰸ"); ("ⰹ", "Ⰹ"); ("ⰺ", "Ⰺ"); ("ⰻ", "Ⰻ");
    ("ⰼ", "Ⰼ"); ("ⰽ", "Ⰽ"); ("ⰾ", "Ⰾ"); ("ⰿ", "Ⰿ"); ("ⱀ", "Ⱀ"); ("ⱁ", "Ⱁ");
    ("ⱂ", "Ⱂ"); ("ⱃ", "Ⱃ"); ("ⱄ", "Ⱄ"); ("ⱅ", "Ⱅ"); ("ⱆ", "Ⱆ"); ("ⱇ", "Ⱇ");
    ("ⱈ", "Ⱈ"); ("ⱉ", "Ⱉ"); ("ⱊ", "Ⱊ"); ("ⱋ", "Ⱋ"); ("ⱌ", "Ⱌ"); ("ⱍ", "Ⱍ");
    ("ⱎ", "Ⱎ"); ("ⱏ", "Ⱏ"); ("ⱐ", "Ⱐ"); ("ⱑ", "Ⱑ"); ("ⱒ", "Ⱒ"); ("ⱓ", "Ⱓ");
    ("ⱔ", "Ⱔ"); ("ⱕ", "Ⱕ"); ("ⱖ", "Ⱖ"); ("ⱗ", "Ⱗ"); ("ⱘ", "Ⱘ"); ("ⱙ", "Ⱙ");
    ("ⱚ", "Ⱚ"); ("ⱛ", "Ⱛ"); ("ⱜ", "Ⱜ"); ("ⱝ", "Ⱝ"); ("ⱞ", "Ⱞ"); ("ⱟ", "Ⱟ");
    ("ⱡ", "Ⱡ"); ("ⱥ", "Ⱥ"); ("ⱦ", "Ⱦ"); ("ⱨ", "Ⱨ"); ("ⱪ", "Ⱪ"); ("ⱬ", "Ⱬ");
    ("ⱳ", "Ⱳ"); ("ⱶ", "Ⱶ"); ("ⲁ", "Ⲁ"); ("ⲃ", "Ⲃ"); ("ⲅ", "Ⲅ"); ("ⲇ", "Ⲇ");
    ("ⲉ", "Ⲉ"); ("ⲋ", "Ⲋ"); ("ⲍ", "Ⲍ"); ("ⲏ", "Ⲏ"); ("ⲑ", "Ⲑ"); ("ⲓ", "Ⲓ");
    ("ⲕ", "Ⲕ"); ("ⲗ", "Ⲗ"); ("ⲙ", "Ⲙ"); ("ⲛ", "Ⲛ"); ("ⲝ", "Ⲝ"); ("ⲟ", "Ⲟ");
    ("ⲡ", "Ⲡ"); ("ⲣ", "Ⲣ"); ("ⲥ", "Ⲥ"); ("ⲧ", "Ⲧ"); ("ⲩ", "Ⲩ"); ("ⲫ", "Ⲫ");
    ("ⲭ", "Ⲭ"); ("ⲯ", "Ⲯ"); ("ⲱ", "Ⲱ"); ("ⲳ", "Ⲳ"); ("ⲵ", "Ⲵ"); ("ⲷ", "Ⲷ");
    ("ⲹ", "Ⲹ"); ("ⲻ", "Ⲻ"); ("ⲽ", "Ⲽ"); ("ⲿ", "Ⲿ"); ("ⳁ", "Ⳁ"); ("ⳃ", "Ⳃ");
    ("ⳅ", "Ⳅ"); ("ⳇ", "Ⳇ"); ("ⳉ", "Ⳉ"); ("ⳋ", "Ⳋ"); ("ⳍ", "Ⳍ"); ("ⳏ", "Ⳏ");
    ("ⳑ", "Ⳑ"); ("ⳓ", "Ⳓ"); ("ⳕ", "Ⳕ"); ("ⳗ", "Ⳗ"); ("ⳙ", "Ⳙ"); ("ⳛ", "Ⳛ");
    ("ⳝ", "Ⳝ"); ("ⳟ", "Ⳟ"); ("ⳡ", "Ⳡ"); ("ⳣ", "Ⳣ"); ("ⳬ", "Ⳬ"); ("ⳮ", "Ⳮ");
    ("ⳳ", "Ⳳ"); ("ⴀ", "Ⴀ"); ("ⴁ", "Ⴁ"); ("ⴂ", "Ⴂ"); ("ⴃ", "Ⴃ"); ("ⴄ", "Ⴄ");
    ("ⴅ", "Ⴅ"); ("ⴆ", "Ⴆ"); ("ⴇ", "Ⴇ"); ("ⴈ", "Ⴈ"); ("ⴉ", "Ⴉ"); ("ⴊ", "Ⴊ");
    ("ⴋ", "Ⴋ"); ("ⴌ", "Ⴌ"); ("ⴍ", "Ⴍ"); ("ⴎ", "Ⴎ"); ("ⴏ", "Ⴏ"); ("ⴐ", "Ⴐ");
    ("ⴑ", "Ⴑ"); ("ⴒ", "Ⴒ"); ("ⴓ", "Ⴓ"); ("ⴔ", "Ⴔ"); ("ⴕ", "Ⴕ"); ("ⴖ", "Ⴖ");
    ("ⴗ", "Ⴗ"); ("ⴘ", "Ⴘ"); ("ⴙ", "Ⴙ"); ("ⴚ", "Ⴚ"); ("ⴛ", "Ⴛ"); ("ⴜ", "Ⴜ");
    ("ⴝ", "Ⴝ"); ("ⴞ", "Ⴞ"); ("ⴟ", "Ⴟ"); ("ⴠ", "Ⴠ"); ("ⴡ", "Ⴡ"); ("ⴢ", "Ⴢ");
    ("ⴣ", "Ⴣ"); ("ⴤ", "Ⴤ"); ("ⴥ", "Ⴥ"); ("ⴧ", "Ⴧ"); ("ⴭ", "Ⴭ"); ("ꙁ", "Ꙁ");
    ("ꙃ", "Ꙃ"); ("ꙅ", "Ꙅ"); ("ꙇ", "Ꙇ"); ("ꙉ", "Ꙉ"); ("ꙋ", "Ꙋ"); ("ꙍ", "Ꙍ");
    ("ꙏ", "Ꙏ"); ("ꙑ", "Ꙑ"); ("ꙓ", "Ꙓ"); ("ꙕ", "Ꙕ"); ("ꙗ", "Ꙗ"); ("ꙙ", "Ꙙ");
    ("ꙛ", "Ꙛ"); ("ꙝ", "Ꙝ"); ("ꙟ", "Ꙟ"); ("ꙡ", "Ꙡ"); ("ꙣ", "Ꙣ"); ("ꙥ", "Ꙥ");
    ("ꙧ", "Ꙧ"); ("ꙩ", "Ꙩ"); ("ꙫ", "Ꙫ"); ("ꙭ", "Ꙭ"); ("ꚁ", "Ꚁ"); ("ꚃ", "Ꚃ");
    ("ꚅ", "Ꚅ"); ("ꚇ", "Ꚇ"); ("ꚉ", "Ꚉ"); ("ꚋ", "Ꚋ"); ("ꚍ", "Ꚍ"); ("ꚏ", "Ꚏ");
    ("ꚑ", "Ꚑ"); ("ꚓ", "Ꚓ"); ("ꚕ", "Ꚕ"); ("ꚗ", "Ꚗ"); ("ꚙ", "Ꚙ"); ("ꚛ", "Ꚛ");
    ("ꜣ", "Ꜣ"); ("ꜥ", "Ꜥ"); ("ꜧ", "Ꜧ"); ("ꜩ", "Ꜩ"); ("ꜫ", "Ꜫ"); ("ꜭ", "Ꜭ");
    ("ꜯ", "Ꜯ"); ("ꜳ", "Ꜳ"); ("ꜵ", "Ꜵ"); ("ꜷ", "Ꜷ"); ("ꜹ", "Ꜹ"); ("ꜻ", "Ꜻ");
    ("ꜽ", "Ꜽ"); ("ꜿ", "Ꜿ"); ("ꝁ", "Ꝁ"); ("ꝃ", "Ꝃ"); ("ꝅ", "Ꝅ"); ("ꝇ", "Ꝇ");
    ("ꝉ", "Ꝉ"); ("ꝋ", "Ꝋ"); ("ꝍ", "Ꝍ"); ("ꝏ", "Ꝏ"); ("ꝑ", "Ꝑ"); ("ꝓ", "Ꝓ");
    ("ꝕ", "Ꝕ"); ("ꝗ", "Ꝗ"); ("ꝙ", "Ꝙ"); ("ꝛ", "Ꝛ"); ("ꝝ", "Ꝝ"); ("ꝟ", "Ꝟ");
    ("ꝡ", "Ꝡ"); ("ꝣ", "Ꝣ"); ("ꝥ", "Ꝥ"); ("ꝧ", "Ꝧ"); ("ꝩ", "Ꝩ"); ("ꝫ", "Ꝫ");
    ("ꝭ", "Ꝭ"); ("ꝯ", "Ꝯ"); ("ꝺ", "Ꝺ"); ("ꝼ", "Ꝼ"); ("ꝿ", "Ꝿ"); ("ꞁ", "Ꞁ");
    ("ꞃ", "Ꞃ"); ("ꞅ", "Ꞅ"); ("ꞇ", "Ꞇ"); ("ꞌ", "Ꞌ"); ("ꞑ", "Ꞑ"); ("ꞓ", "Ꞓ");
    ("ꞔ", "Ꞔ"); ("ꞗ", "Ꞗ"); ("ꞙ", "Ꞙ"); ("ꞛ", "Ꞛ"); ("ꞝ", "Ꞝ"); ("ꞟ", "Ꞟ");
    ("ꞡ", "Ꞡ"); ("ꞣ", "Ꞣ"); ("ꞥ", "Ꞥ"); ("ꞧ", "Ꞧ"); ("ꞩ", "Ꞩ"); ("ꞵ", "Ꞵ");
    ("ꞷ", "Ꞷ"); ("ꞹ", "Ꞹ"); ("ꞻ", "Ꞻ"); ("ꞽ", "Ꞽ"); ("ꞿ", "Ꞿ"); ("ꟁ", "Ꟁ");
    ("ꟃ", "Ꟃ"); ("ꟈ", "Ꟈ"); ("ꟊ", "Ꟊ"); ("ꟑ", "Ꟑ"); ("ꟗ", "Ꟗ"); ("ꟙ", "Ꟙ");
    ("ꟶ", "Ꟶ"); ("ꭓ", "Ꭓ"); ("ꭰ", "Ꭰ"); ("ꭱ", "Ꭱ"); ("ꭲ", "Ꭲ"); ("ꭳ", "Ꭳ");
    ("ꭴ", "Ꭴ"); ("ꭵ", "Ꭵ"); ("ꭶ", "Ꭶ"); ("ꭷ", "Ꭷ"); ("ꭸ", "Ꭸ"); ("ꭹ", "Ꭹ");
    ("ꭺ", "Ꭺ"); ("ꭻ", "Ꭻ"); ("ꭼ", "Ꭼ"); ("ꭽ", "Ꭽ"); ("ꭾ", "Ꭾ"); ("ꭿ", "Ꭿ");
    ("ꮀ", "Ꮀ"); ("ꮁ", "Ꮁ"); ("ꮂ", "Ꮂ"); ("ꮃ", "Ꮃ"); ("ꮄ", "Ꮄ"); ("ꮅ", "Ꮅ");
    ("ꮆ", "Ꮆ"); ("ꮇ", "Ꮇ"); ("ꮈ", "Ꮈ"); ("ꮉ", "Ꮉ"); ("ꮊ", "Ꮊ"); ("ꮋ", "Ꮋ");
    ("ꮌ", "Ꮌ"); ("ꮍ", "Ꮍ"); ("ꮎ", "Ꮎ"); ("ꮏ", "Ꮏ"); ("ꮐ", "Ꮐ"); ("ꮑ", "Ꮑ");
    ("ꮒ", "Ꮒ"); ("ꮓ", "Ꮓ"); ("ꮔ", "Ꮔ"); ("ꮕ", "Ꮕ"); ("ꮖ", "Ꮖ"); ("ꮗ", "Ꮗ");
    ("ꮘ", "Ꮘ"); ("ꮙ", "Ꮙ"); ("ꮚ", "Ꮚ"); ("ꮛ", "Ꮛ"); ("ꮜ", "Ꮜ"); ("ꮝ", "Ꮝ");
    ("ꮞ", "Ꮞ"); ("ꮟ", "Ꮟ"); ("ꮠ", "Ꮠ"); ("ꮡ", "Ꮡ"); ("ꮢ", "Ꮢ"); ("ꮣ", "Ꮣ");
    ("ꮤ", "Ꮤ"); ("ꮥ", "Ꮥ"); ("ꮦ", "Ꮦ"); ("ꮧ", "Ꮧ"); ("ꮨ", "Ꮨ"); ("ꮩ", "Ꮩ");
    ("ꮪ", "Ꮪ"); ("ꮫ", "Ꮫ"); ("ꮬ", "Ꮬ"); ("ꮭ", "Ꮭ"); ("ꮮ", "Ꮮ"); ("ꮯ", "Ꮯ");
    ("ꮰ", "Ꮰ"); ("ꮱ", "Ꮱ"); ("ꮲ", "Ꮲ"); ("ꮳ", "Ꮳ"); ("ꮴ", "Ꮴ"); ("ꮵ", "Ꮵ");
    ("ꮶ", "Ꮶ"); ("ꮷ", "Ꮷ"); ("ꮸ", "Ꮸ"); ("ꮹ", "Ꮹ"); ("ꮺ", "Ꮺ"); ("ꮻ", "Ꮻ");
    ("ꮼ", "Ꮼ"); ("ꮽ", "Ꮽ"); ("ꮾ", "Ꮾ"); ("ꮿ", "Ꮿ"); ("ﬀ", "FF"); ("ﬁ", "FI");
    ("ﬂ", "FL"); ("ﬃ", "FFI"); ("ﬄ", "FFL"); ("ﬅ", "ST"); ("ﬆ", "ST");
    ("ﬓ", "ՄՆ"); ("ﬔ", "ՄԵ"); ("ﬕ", "ՄԻ"); ("ﬖ", "ՎՆ"); ("ﬗ", "ՄԽ");
    ("ａ", "Ａ"); ("ｂ", "Ｂ"); ("ｃ", "Ｃ"); ("ｄ", "Ｄ"); ("ｅ", "Ｅ"); ("ｆ", "Ｆ");
    ("ｇ", "Ｇ"); ("ｈ", "Ｈ"); ("ｉ", "Ｉ"); ("ｊ", "Ｊ"); ("ｋ", "Ｋ"); ("ｌ", "Ｌ");
    ("ｍ", "Ｍ"); ("ｎ", "Ｎ"); ("ｏ", "Ｏ"); ("ｐ", "Ｐ"); ("ｑ", "Ｑ"); ("ｒ", "Ｒ");
    ("ｓ", "Ｓ"); ("ｔ", "Ｔ"); ("ｕ", "Ｕ"); ("ｖ", "Ｖ"); ("ｗ", "Ｗ"); ("ｘ", "Ｘ");
    ("ｙ", "Ｙ"); ("ｚ", "Ｚ"); ("𐐨", "𐐀"); ("𐐩", "𐐁"); ("𐐪", "𐐂"); ("𐐫", "𐐃");
    ("𐐬", "𐐄"); ("𐐭", "𐐅"); ("𐐮", "𐐆"); ("𐐯", "𐐇"); ("𐐰", "𐐈"); ("𐐱", "𐐉");
    ("𐐲", "𐐊"); ("𐐳", "𐐋"); ("𐐴", "𐐌"); ("𐐵", "𐐍"); ("𐐶", "𐐎"); ("𐐷", "𐐏");
    ("𐐸", "𐐐"); ("𐐹", "𐐑"); ("𐐺", "𐐒"); ("𐐻", "𐐓"); ("𐐼", "𐐔"); ("𐐽", "𐐕");
    ("𐐾", "𐐖"); ("𐐿", "𐐗"); ("𐑀", "𐐘"); ("𐑁", "𐐙"); ("𐑂", "𐐚"); ("𐑃", "𐐛");
    ("𐑄", "𐐜"); ("𐑅", "𐐝"); ("𐑆", "𐐞"); ("𐑇", "𐐟"); ("𐑈", "𐐠"); ("𐑉", "𐐡");
    ("𐑊", "𐐢"); ("𐑋", "𐐣"); ("𐑌", "𐐤"); ("𐑍", "𐐥"); ("𐑎", "𐐦"); ("𐑏", "𐐧");
    ("𐓘", "𐒰"); ("𐓙", "𐒱"); ("𐓚", "𐒲"); ("𐓛", "𐒳"); ("𐓜", "𐒴"); ("𐓝", "𐒵");
    ("𐓞", "𐒶"); ("𐓟", "𐒷"); ("𐓠", "𐒸"); ("𐓡", "𐒹"); ("𐓢", "𐒺"); ("𐓣", "𐒻");
    ("𐓤", "𐒼"); ("𐓥", "𐒽"); ("𐓦", "𐒾"); ("𐓧", "𐒿"); ("𐓨", "𐓀"); ("𐓩", "𐓁");
    ("𐓪", "𐓂"); ("𐓫", "𐓃"); ("𐓬", "𐓄"); ("𐓭", "𐓅"); ("𐓮", "𐓆"); ("𐓯", "𐓇");
    ("𐓰", "𐓈"); ("𐓱", "𐓉"); ("𐓲", "𐓊"); ("𐓳", "𐓋"); ("𐓴", "𐓌"); ("𐓵", "𐓍");
    ("𐓶", "𐓎"); ("𐓷", "𐓏"); ("𐓸", "𐓐"); ("𐓹", "𐓑"); ("𐓺", "𐓒"); ("𐓻", "𐓓");
    ("𐖗", "𐕰"); ("𐖘", "𐕱"); ("𐖙", "𐕲"); ("𐖚", "𐕳"); ("𐖛", "𐕴"); ("𐖜", "𐕵");
    ("𐖝", "𐕶"); ("𐖞", "𐕷"); ("𐖟", "𐕸"); ("𐖠", "𐕹"); ("𐖡", "𐕺"); ("𐖣", "𐕼");
    ("𐖤", "𐕽"); ("𐖥", "𐕾"); ("𐖦", "𐕿"); ("𐖧", "𐖀"); ("𐖨", "𐖁"); ("𐖩", "𐖂");
    ("𐖪", "𐖃"); ("𐖫", "𐖄"); ("𐖬", "𐖅"); ("𐖭", "𐖆"); ("𐖮", "𐖇"); ("𐖯", "𐖈");
    ("𐖰", "𐖉"); ("𐖱", "𐖊"); ("𐖳", "𐖌"); ("𐖴", "𐖍"); ("𐖵", "𐖎"); ("𐖶", "𐖏");
    ("𐖷", "𐖐"); ("𐖸", "𐖑"); ("𐖹", "𐖒"); ("𐖻", "𐖔"); ("𐖼", "𐖕"); ("𐳀", "𐲀");
    ("𐳁", "𐲁"); ("𐳂", "𐲂"); ("𐳃", "𐲃"); ("𐳄", "𐲄"); ("𐳅", "𐲅"); ("𐳆", "𐲆");
    ("𐳇", "𐲇"); ("𐳈", "𐲈"); ("𐳉", "𐲉"); ("𐳊", "𐲊"); ("𐳋", "𐲋"); ("𐳌", "𐲌");
    ("𐳍", "𐲍"); ("𐳎", "𐲎"); ("𐳏", "𐲏"); ("𐳐", "𐲐"); ("𐳑", "𐲑"); ("𐳒", "𐲒");
    ("𐳓", "𐲓"); ("𐳔", "𐲔"); ("𐳕", "𐲕"); ("𐳖", "𐲖"); ("𐳗", "𐲗"); ("𐳘", "𐲘");
    ("𐳙", "𐲙"); ("𐳚", "𐲚"); ("𐳛", "𐲛"); ("𐳜", "𐲜"); ("𐳝", "𐲝"); ("𐳞", "𐲞");
    ("𐳟", "𐲟"); ("𐳠", "𐲠"); ("𐳡", "𐲡"); ("𐳢", "𐲢"); ("𐳣", "𐲣"); ("𐳤", "𐲤");
    ("𐳥", "𐲥"); ("𐳦", "𐲦"); ("𐳧", "𐲧"); ("𐳨", "𐲨"); ("𐳩", "𐲩"); ("𐳪", "𐲪");
    ("𐳫", "𐲫"); ("𐳬", "𐲬"); ("𐳭", "𐲭"); ("𐳮", "𐲮"); ("𐳯", "𐲯"); ("𐳰", "𐲰");
    ("𐳱", "𐲱"); ("𐳲", "𐲲"); ("𑣀", "𑢠"); ("𑣁", "𑢡"); ("𑣂", "𑢢"); ("𑣃", "𑢣");
    ("𑣄", "𑢤"); ("𑣅", "𑢥"); ("𑣆", "𑢦"); ("𑣇", "𑢧"); ("𑣈", "𑢨"); ("𑣉", "𑢩");
    ("𑣊", "𑢪"); ("𑣋", "𑢫"); ("𑣌", "𑢬"); ("𑣍", "𑢭"); ("𑣎", "𑢮"); ("𑣏", "𑢯");
    ("𑣐", "𑢰"); ("𑣑", "𑢱"); ("𑣒", "𑢲"); ("𑣓", "𑢳"); ("𑣔", "𑢴"); ("𑣕", "𑢵");
    ("𑣖", "𑢶"); ("𑣗", "𑢷"); ("𑣘", "𑢸"); ("𑣙", "𑢹"); ("𑣚", "𑢺"); ("𑣛", "𑢻");
    ("𑣜", "𑢼"); ("𑣝", "𑢽"); ("𑣞", "𑢾"); ("𑣟", "𑢿"); ("𖹠", "𖹀"); ("𖹡", "𖹁");
    ("𖹢", "𖹂"); ("𖹣", "𖹃"); ("𖹤", "𖹄"); ("𖹥", "𖹅"); ("𖹦", "𖹆"); ("𖹧", "𖹇");
    ("𖹨", "𖹈"); ("𖹩", "𖹉"); ("𖹪", "𖹊"); ("𖹫", "𖹋"); ("𖹬", "𖹌"); ("𖹭", "𖹍");
    ("𖹮", "𖹎"); ("𖹯", "𖹏"); ("𖹰", "𖹐"); ("𖹱", "𖹑"); ("𖹲", "𖹒"); ("𖹳", "𖹓");
    ("𖹴", "𖹔"); ("𖹵", "𖹕"); ("𖹶", "𖹖"); ("𖹷", "𖹗"); ("𖹸", "𖹘"); ("𖹹", "𖹙");
    ("𖹺", "𖹚"); ("𖹻", "𖹛"); ("𖹼", "𖹜"); ("𖹽", "𖹝"); ("𖹾", "𖹞"); ("𖹿", "𖹟");
    ("𞤢", "𞤀"); ("𞤣", "𞤁"); ("𞤤", "𞤂"); ("𞤥", "𞤃"); ("𞤦", "𞤄"); ("𞤧", "𞤅");
    ("𞤨", "𞤆"); ("𞤩", "𞤇"); ("𞤪", "𞤈"); ("𞤫", "𞤉"); ("𞤬", "𞤊"); ("𞤭", "𞤋");
    ("𞤮", "𞤌"); ("𞤯", "𞤍"); ("𞤰", "𞤎"); ("𞤱", "𞤏"); ("𞤲", "𞤐"); ("𞤳", "𞤑");
    ("𞤴", "𞤒"); ("𞤵", "𞤓"); ("𞤶", "𞤔"); ("𞤷", "𞤕"); ("𞤸", "𞤖"); ("𞤹", "𞤗");
    ("𞤺", "𞤘"); ("𞤻", "𞤙"); ("𞤼", "𞤚"); ("𞤽", "𞤛"); ("𞤾", "𞤜"); ("𞤿", "𞤝");
    ("𞥀", "𞤞"); ("𞥁", "𞤟"); ("𞥂", "𞤠"); ("𞥃", "𞤡") ].
Arguments upperTable : simpl never.

Fixpoint uppercaseMapping (ch : string) (table : list (string * string))
  : option string :=
  match table with
  | [] => None
  | (lower, upper) :: table' =>
      if String.eqb lower ch then Some upper else uppercaseMapping ch table'
  end.

(** [toUpperCase] of one code point. *)
Definition upperCodePoint (ch : string) : string :=
  match ch with
  | String c EmptyString => String (upper_ascii c) EmptyString
  | _ => default ch (uppercaseMapping ch upperTable)
  end.

(** [String.prototype.toUpperCase] *)
Definition toUpperCase (s : string) : string :=
  join (upperCodePoint <$> codePoints s).
Arguments toUpperCase : simpl never.

(** The letters [a] to [z] replaced by their capitals, the rest of the text
    as it is: the letter case a pattern such as [/[A-Z]/i] ignores. *)
Fixpoint asciiUpperCase (s : string) : string :=
  match s with
  | EmptyString => EmptyString
  | String c s' => String (upper_ascii c) (asciiUpperCase s')
  end.

(** *** Letter case

    A character is a lower-case letter with a capital when it is one of
    [a] to [z] or has an entry in the table. *)
Definition isLowerCase (ch : string) : bool :=
  match ch with
  | String c EmptyString =>
      (97 <=? nat_of_ascii c)%nat && (nat_of_ascii c <=? 122)%nat
  | _ => existsb (λ kv, String.eqb kv.1 ch) upperTable
  end.

(** None of the characters of the string is a letter that has a capital. *)
Definition is_upper (s : string) : Prop :=
  Forall (λ ch, isLowerCase ch = false) (codePoints s).

(** [upper] is the capital of the letter [lower]: [A] to [Z] for [a] to
    [z], 32 code points below, and the table's entry beyond ASCII. *)
Definition capitalOf (lower upper : string) : bool :=
  match lower, upper with
  | String c EmptyString, String d EmptyString =>
      (97 <=? nat_of_ascii c)%nat && (nat_of_ascii c <=? 122)%nat
      && (nat_of_ascii d =? nat_of_ascii c - 32)%nat
  | _, _ =>
      existsb (λ kv, String.eqb kv.1 lower && String.eqb kv.2 upper) upperTable
  end.

(** The same character, or a letter and its capital. *)
Definition sameLetter (x y : string) : bool :=
  String.eqb x y || capitalOf x y || capitalOf y x.

(** Two codes differ only in letter case: they have the same number of
    characters and, position by position, the same letter. *)
Definition differOnlyInCase (code code' : string) : Prop :=
  Forall2 (λ x y, sameLetter x y = true) (codePoints code) (codePoints code').

(** The text of one character: a first byte and continuation bytes. *)
Fixpoint allContinuation (s : string) : bool :=
  match s with
  | EmptyString => true
  | String c s' => isContinuation c && allContinuation s'
  end.

Definition oneCodePoint (ch : string) : Prop :=
  ∃ c tl, ch = String c tl ∧ allContinuation tl = true.

(** What the proofs use of an entry of the table: the key is not a single
    byte and is mapped to the value (no key occurs twice); the value
    begins a character, is its own upper-case form, and has no lower-case
    letter. *)
Definition entry_ok (kv : string * string) : bool :=
  (2 <=? String.length kv.1)%nat
  && negb (startsWithContinuation kv.2)
  && String.eqb (toUpperCase kv.2) kv.2
  && forallb (λ ch, negb (isLowerCase ch)) (codePoints kv.2)
  && match uppercaseMapping kv.1 upperTable with
     | Some upper => String.eqb upper kv.2
     | None => false
     end.

(** [Array.prototype.slice(-n)]: the last [n] elements. *)
Definition slice_last {A} (n : nat) (l : list A) : list A :=
  drop (length l - n) l.

(** A [Set] of strings, in insertion order. *)
Module JSSet.
Abbreviation t := (list string).
Definition empty : t := [].
Definition has (x : string) (s : t) : bool := bool_decide (x ∈ s).
Definition add (x : string) (s : t) : t := if has x s then s else s ++ [x].
Definition delete (x : string) (s : t) : t := filter (λ y, y ≠ x) s.
Definition size (s : t) : nat := length s.
(** [Array.from(set)] *)
Definition toArray (s : t) : list string := s.
End JSSet.

(** ** roomModel.js *)

(** Value stored in the module-level [participants] map. *)
Module Participant.
Record t := mk { userEmail : string; roomCode : string; joinedAt : Z }.
End Participant.

(** [messageObj] of [Room.addMessage]. The id is [Date.now() + Math.random()];
    the two summands are kept apart. *)
Module Message.
Record t := mk {
  id : Z * Z;
  message : string;
  senderEmail : string;
  timestamp : Z
}.
End Message.

(** The object [Room.getInfo] returns. *)
Module RoomInfo.
Record t := mk {
  code : string;
  participantCount : nat;
  createdAt : Z;
  isActive : bool;
  maxParticipants : nat;
  messageCount : nat
}.
End RoomInfo.

Module Room.
Record t := mk {
  id : string;
  code : string;
  participants : JSSet.t;
  createdAt : Z;
  messages : list Message.t;
  isActive : bool;
  maxParticipants : nat
}.

(** [constructor(code)] *)
Definition new (code : string) (now : Z) : t :=
  {| id := code;
     code := toUpperCase code;
     participants := JSSet.empty;
     createdAt := now;
     messages := [];
     isActive := true;
     maxParticipants := 50 |}.

(** [addParticipant(socketId, userEmail)]; [ps] is the module-level
    [participants] map. Returns the updated object and map ([return true]
    carries no information) or the thrown error. *)
Definition addParticipant (socketId userEmail : string) (now : Z)
    (this : t) (ps : gmap string Participant.t)
  : result (t * gmap string Participant.t) :=
  if (maxParticipants this <=? JSSet.size (participants this))%nat then
    Throw "Room is full"
  else
    Ok ({| id := id this;
           code := code this;
           participants := JSSet.add socketId (participants this);
           createdAt := createdAt this;
           messages := messages this;
           isActive := isActive this;
           maxParticipants := maxParticipants this |},
        <[socketId := Participant.mk userEmail (code this) now]> ps).

(** [removeParticipant(socketId)]: updated object, updated map, and the
    returned size. *)
Definition removeParticipant (socketId : string)
    (this : t) (ps : gmap string Participant.t)
  : t * gmap string Participant.t * nat :=
  let members := JSSet.delete socketId (participants this) in
  let this' :=
    {| id := id this;
       code := code this;
       participants := members;
       createdAt := createdAt this;
       messages := messages this;
       isActive := if (JSSet.size members =? 0)%nat then false
                   else isActive this;
       maxParticipants := maxParticipants this |} in
  (this', delete socketId ps, JSSet.size (participants this')).

(** [addMessage(message, senderEmail)]: updated object and [messageObj]. *)
Definition addMessage (message senderEmail : string) (now rnd : Z)
    (this : t) : t * Message.t :=
  let messageObj := Message.mk (now, rnd) message senderEmail now in
  let pushed := messages this ++ [messageObj] in
  ({| id := id this;
      code := code this;
      participants := participants this;
      createdAt := createdAt this;
      messages := if (100 <? length pushed)%nat then slice_last 100 pushed
                  else pushed;
      isActive := isActive this;
      maxParticipants := maxParticipants this |},
   messageObj).

(** [getInfo()] *)
Definition getInfo (this : t) : RoomInfo.t :=
  {| RoomInfo.code := code this;
     RoomInfo.participantCount := JSSet.size (participants this);
     RoomInfo.createdAt := createdAt this;
     RoomInfo.isActive := isActive this;
     RoomInfo.maxParticipants := maxParticipants this;
     RoomInfo.messageCount := length (messages this) |}.
End Room.

(** ** Shared state of roomModel.js and server.js *)

(** A reference to a [Room] object. *)
Abbreviation loc := nat.

(** Value stored in [socketToUser]. *)
Module SocketUser.
Record t := mk { userEmail : string; roomCode : string }.
End SocketUser.

(** [{ socketId, userEmail }] as listed in rosters. *)
Module RosterEntry.
Record t := mk { socketId : string; userEmail : string }.
End RosterEntry.

(** [messageObj] of the [private-message] handler. *)
Module PrivateMessage.
Record t := mk {
  id : Z * Z;
  message : string;
  senderEmail : string;
  recipientEmail : string;
  timestamp : Z;
  type : string
}.
End PrivateMessage.

Inductive SignalKind := Offer | Answer | IceCandidate.

Inductive Presence :=
| MediaStateChange (type : string) (enabled : bool)
| ScreenShareStart
| ScreenShareStop
| RecordingStarted (type : string)
| RecordingStopped (filename recordingType : string).

(** Data of the events the server emits. *)
Inductive Payload :=
| PRoomParticipants (roomParticipants : list RosterEntry.t)
| PUserJoined (socketId userEmail : string)
| PUserLeft (socketId userEmail : string)
| PParticipantsUpdate (count : nat) (participants : list RosterEntry.t)
| PError (message : string)
| PPong
| PSignal (payload from : string) (fromUser : option string)
| PChatMessage (messageObj : Message.t)
| PPrivateMessage (messageObj : PrivateMessage.t)
| PPresence (socketId userEmail : string) (what : Presence).

(** Addressing of an emit. *)
Inductive Target :=
| Self (socketId : string)               (* socket.emit(...)          *)
| Others (socketId group : string)       (* socket.to(group).emit(...) *)
| Everyone (group : string).             (* io.to(group).emit(...)     *)

(** A call into Socket.IO. *)
Inductive Effect :=
| Emit (to : Target) (event : string) (data : Payload)
| Join (socketId roomCode : string)      (* socket.join(roomCode)      *)
| Disconnect (socketId : string).        (* socket.disconnect(true)    *)

(** Continuations handed to [setTimeout], with what they capture. *)
Inductive Timer :=
| RoomParticipantsTimer (socketId : string)
    (roomParticipants : list RosterEntry.t)
| UserJoinedTimer (socketId roomCode userEmail : string)
| GraceTimer (socketId roomCode userEmail : string) (room : loc).

Record State := mkState {
  heap : list Room.t;                        (* Room objects            *)
  rooms : gmap string loc;                   (* roomModel.js: rooms     *)
  participants : gmap string Participant.t;  (* roomModel.js            *)
  socketToUser : gmap string SocketUser.t;   (* server.js               *)
  userToSocket : gmap string string;         (* server.js               *)
  userLastActivity : gmap string Z;          (* server.js               *)
  sockets : gset string;                     (* io.sockets.sockets keys *)
  timers : list (Z * Timer);                 (* pending, with due time  *)
  log : list Effect                          (* calls into Socket.IO    *)
}.

Definition initial : State :=
  mkState [] ∅ ∅ ∅ ∅ ∅ ∅ [] [].

Definition set_heap (f : list Room.t → list Room.t) (st : State) : State :=
  mkState (f (heap st)) (rooms st) (participants st) (socketToUser st)
    (userToSocket st) (userLastActivity st) (sockets st) (timers st) (log st).

Definition set_rooms (f : gmap string loc → gmap string loc) (st : State)
  : State :=
  mkState (heap st) (f (rooms st)) (participants st) (socketToUser st)
    (userToSocket st) (userLastActivity st) (sockets st) (timers st) (log st).

Definition set_participants
    (f : gmap string Participant.t → gmap string Participant.t) (st : State)
  : State :=
  mkState (heap st) (rooms st) (f (participants st)) (socketToUser st)
    (userToSocket st) (userLastActivity st) (sockets st) (timers st) (log st).

Definition set_socketToUser
    (f : gmap string SocketUser.t → gmap string SocketUser.t) (st : State)
  : State :=
  mkState (heap st) (rooms st) (participants st) (f (socketToUser st))
    (userToSocket st) (userLastActivity st) (sockets st) (timers st) (log st).

Definition set_userToSocket
    (f : gmap string string → gmap string string) (st : State) : State :=
  mkState (heap st) (rooms st) (participants st) (socketToUser st)
    (f (userToSocket st)) (userLastActivity st) (sockets st) (timers st)
    (log st).

Definition set_userLastActivity
    (f : gmap string Z → gmap string Z) (st : State) : State :=
  mkState (heap st) (rooms st) (participants st) (socketToUser st)
    (userToSocket st) (f (userLastActivity st)) (sockets st) (timers st)
    (log st).

Definition set_sockets (f : gset string → gset string) (st : State) : State :=
  mkState (heap st) (rooms st) (participants st) (socketToUser st)
    (userToSocket st) (userLastActivity st) (f (sockets st)) (timers st)
    (log st).

Definition set_timers (f : list (Z * Timer) → list (Z * Timer)) (st : State)
  : State :=
  mkState (heap st) (rooms st) (participants st) (socketToUser st)
    (userToSocket st) (userLastActivity st) (sockets st) (f (timers st))
    (log st).

Definition set_log (f : list Effect → list Effect) (st : State) : State :=
  mkState (heap st) (rooms st) (participants st) (socketToUser st)
    (userToSocket st) (userLastActivity st) (sockets st) (timers st)
    (f (log st)).

(** [target.emit(event, data)] *)
Definition emit (to : Target) (event : string) (data : Payload) (st : State)
  : State :=
  set_log (λ l, l ++ [Emit to event data]) st.

(** [setTimeout(cb, ms)] called at time [now]. *)
Definition setTimeout (cb : Timer) (ms now : Z) (st : State) : State :=
  set_timers (λ ts, ts ++ [(now + ms, cb)]) st.

(** Method calls on a [Room] held by reference. Locations are never freed,
    so the [None] branches are not reached from [initial] (see
    [reachable_refs_valid]); they stand for a call on [undefined]. *)
Definition addParticipantAt (room : loc) (socketId userEmail : string)
    (now : Z) (st : State) : result State :=
  match heap st !! room with
  | Some this =>
      match Room.addParticipant socketId userEmail now this (participants st)
      with
      | Ok (this', ps') =>
          Ok (set_participants (λ _, ps')
                (set_heap (λ h, <[room := this']> h) st))
      | Throw m => Throw m
      end
  | None => Throw "Cannot read properties of undefined"
  end.

Definition removeParticipantAt (room : loc) (socketId : string) (st : State)
  : State * nat :=
  match heap st !! room with
  | Some this =>
      let '(this', ps', n) :=
        Room.removeParticipant socketId this (participants st) in
      (set_participants (λ _, ps')
         (set_heap (λ h, <[room := this']> h) st),
       n)
  | None => (st, 0%nat)
  end.

Definition addMessageAt (room : loc) (message senderEmail : string)
    (now rnd : Z) (st : State) : State * option Message.t :=
  match heap st !! room with
  | Some this =>
      let '(this', messageObj) :=
        Room.addMessage message senderEmail now rnd this in
      (set_heap (λ h, <[room := this']> h) st, Some messageObj)
  | None => (st, None)
  end.

(** [room.participants] of the object at [room]. *)
Definition membersAt (room : loc) (st : State) : JSSet.t :=
  match heap st !! room with
  | Some this => Room.participants this
  | None => JSSet.empty
  end.

Module roomUtils.
(** [createRoom(code)] *)
Definition createRoom (code : string) (now : Z) (st : State) : loc * State :=
  let upperCode := toUpperCase code in
  match rooms st !! upperCode with
  | Some room => (room, st)
  | None =>
      let room := length (heap st) in
      (room,
       set_rooms (λ m, <[upperCode := room]> m)
         (set_heap (λ h, h ++ [Room.new upperCode now]) st))
  end.

(** [getRoom(code)] *)
Definition getRoom (code : string) (st : State) : option loc :=
  rooms st !! toUpperCase code.

(** [roomExists(code)] *)
Definition roomExists (code : string) (st : State) : bool :=
  bool_decide (is_Some (rooms st !! toUpperCase code)).

(** The test of [cleanupEmptyRooms] on one entry. *)
Definition swept (st : State) (room : loc) : bool :=
  match heap st !! room with
  | Some this =>
      (JSSet.size (Room.participants this) =? 0)%nat
      && negb (Room.isActive this)
  | None => false
  end.

(** [cleanupEmptyRooms()] *)
Definition cleanupEmptyRooms (st : State) : State :=
  set_rooms (filter (λ kv : string * loc, swept st kv.2 = false)) st.
End roomUtils.

(** [let room = roomUtils.getRoom(code); if (!room) room =
    roomUtils.createRoom(code)], as written in the HTTP join route and in the
    [join-room] handler. *)
Definition getOrCreate (code : string) (now : Z) (st : State) : loc * State :=
  match roomUtils.getRoom code st with
  | Some room => (room, st)
  | None => roomUtils.createRoom code now st
  end.

(** ** server.js *)

(** [participant?.userEmail || "Unknown"] for [participants.get(id)]. *)
Definition displayEmail (st : State) (id : string) : string :=
  match participants st !! id with
  | Some participant =>
      if truthy (Participant.userEmail participant)
      then Participant.userEmail participant
      else "Unknown"
  | None => "Unknown"
  end.

(** [ids.map((id) => ({ socketId: id, userEmail: ... }))] *)
Definition roster (st : State) (ids : list string) : list RosterEntry.t :=
  map (λ id, RosterEntry.mk id (displayEmail st id)) ids.

(** [updateUserActivity(userEmail)] *)
Definition updateUserActivity (userEmail : string) (now : Z) (st : State)
  : State :=
  if truthy userEmail
  then set_userLastActivity (λ m, <[userEmail := now]> m) st
  else st.

(** The [disconnect] handler of socket [socketId]. *)
Definition onDisconnect (socketId : string) (now : Z) (st : State) : State :=
  match socketToUser st !! socketId with
  | Some user =>
      let roomCode := SocketUser.roomCode user in
      let userEmail := SocketUser.userEmail user in
      match roomUtils.getRoom roomCode st with
      | Some room =>
          setTimeout (GraceTimer socketId roomCode userEmail room) 5000 now st
      | None => st
      end
  | None => st
  end.

(** [existingSocket.disconnect(true)]: Socket.IO drops the socket from
    [io.sockets.sockets] and runs its [disconnect] handler synchronously. *)
Definition disconnectSocket (socketId : string) (now : Z) (st : State)
  : State :=
  onDisconnect socketId now
    (set_sockets (λ s, s ∖ {[socketId]})
       (set_log (λ l, l ++ [Disconnect socketId]) st)).

(** [join-room], lines "Clean up any existing session". *)
Definition cleanupExisting (socketId userEmail : string) (now : Z)
    (st : State) : State :=
  match userToSocket st !! userEmail with
  | Some existingSocketId =>
      if truthy existingSocketId && negb (String.eqb existingSocketId socketId)
      then
        let st1 :=
          if bool_decide (existingSocketId ∈ sockets st)
          then disconnectSocket existingSocketId now st
          else st in
        set_userToSocket (λ m, delete userEmail m)
          (set_socketToUser (λ m, delete existingSocketId m) st1)
      else st
  | None => st
  end.

(** [join-room], from [socket.join(roomCode)] to
    [updateUserActivity(userEmail)]. *)
Definition bindUser (socketId roomCode userEmail : string) (now : Z)
    (st : State) : State :=
  updateUserActivity userEmail now
    (set_userToSocket (λ m, <[userEmail := socketId]> m)
       (set_socketToUser
          (λ m, <[socketId := SocketUser.mk userEmail roomCode]> m)
          (set_log (λ l, l ++ [Join socketId roomCode]) st))).

(** [join-room], from "Get or create room" to the end of the [try] block,
    and the [catch]. *)
Definition enterRoom (socketId roomCode userEmail : string) (now : Z)
    (st : State) : State :=
  let '(room, st1) := getOrCreate roomCode now st in
  match addParticipantAt room socketId userEmail now st1 with
  | Ok st2 =>
      let members := JSSet.toArray (membersAt room st2) in
      let roomParticipants :=
        roster st2 (filter (λ participantId, participantId ≠ socketId) members)
      in
      let st3 :=
        setTimeout (RoomParticipantsTimer socketId roomParticipants) 1000 now
          st2 in
      let st4 :=
        setTimeout (UserJoinedTimer socketId roomCode userEmail) 1500 now st3
      in
      emit (Everyone roomCode) "participants-update"
        (PParticipantsUpdate (JSSet.size (membersAt room st4))
           (roster st4 members))
        st4
  | Throw message => emit (Self socketId) "error" (PError message) st1
  end.

(** The [join-room] handler. *)
Definition onJoinRoom (socketId roomCode userEmail : string) (now : Z)
    (st : State) : State :=
  enterRoom socketId roomCode userEmail now
    (bindUser socketId roomCode userEmail now
       (cleanupExisting socketId userEmail now st)).

(** The [ping] handler. *)
Definition onPing (socketId userEmail : string) (now : Z) (st : State)
  : State :=
  emit (Self socketId) "pong" PPong (updateUserActivity userEmail now st).

Definition signalName (k : SignalKind) : string :=
  match k with
  | Offer => "offer"
  | Answer => "answer"
  | IceCandidate => "ice-candidate"
  end.

(** The [offer], [answer] and [ice-candidate] handlers. *)
Definition onSignal (k : SignalKind) (socketId payload to : string)
    (st : State) : State :=
  let sender := socketToUser st !! socketId in
  emit (Others socketId to) (signalName k)
    (PSignal payload socketId (SocketUser.userEmail <$> sender)) st.

(** The [chat-message] handler. *)
Definition onChatMessage (message senderEmail roomCode : string)
    (now rnd : Z) (st : State) : State :=
  match roomUtils.getRoom roomCode st with
  | Some room =>
      match addMessageAt room message senderEmail now rnd st with
      | (st1, Some messageObj) =>
          emit (Everyone roomCode) "chat-message" (PChatMessage messageObj) st1
      | (st1, None) => st1
      end
  | None => st
  end.

(** The [private-message] handler. *)
Definition onPrivateMessage
    (socketId message senderEmail recipientEmail : string) (now rnd : Z)
    (st : State) : State :=
  let notFound :=
    emit (Self socketId) "error" (PError "Recipient not found") st in
  match userToSocket st !! recipientEmail with
  | Some recipientSocketId =>
      if truthy recipientSocketId then
        let messageObj :=
          PrivateMessage.mk (now, rnd) message senderEmail recipientEmail now
            "private" in
        emit (Self socketId) "private-message" (PPrivateMessage messageObj)
          (emit (Others socketId recipientSocketId) "private-message"
             (PPrivateMessage messageObj) st)
      else notFound
  | None => notFound
  end.

Definition presenceName (p : Presence) : string :=
  match p with
  | MediaStateChange _ _ => "user-media-state-changed"
  | ScreenShareStart => "user-screen-share-started"
  | ScreenShareStop => "user-screen-share-stopped"
  | RecordingStarted _ => "user-recording-started"
  | RecordingStopped _ _ => "user-recording-stopped"
  end.

(** The [media-state-change], [screen-share-*] and [recording-*] handlers. *)
Definition onPresence (p : Presence) (socketId roomCode : string) (st : State)
  : State :=
  match socketToUser st !! socketId with
  | Some user =>
      emit (Others socketId roomCode) (presenceName p)
        (PPresence socketId (SocketUser.userEmail user) p) st
  | None => st
  end.

(** The continuation the [disconnect] handler schedules. *)
Definition graceTimeout (socketId roomCode userEmail : string) (room : loc)
    (st : State) : State :=
  if bool_decide (userToSocket st !! userEmail = Some socketId) then
    let '(st1, remainingCount) := removeParticipantAt room socketId st in
    let st2 :=
      emit (Others socketId roomCode) "user-left"
        (PUserLeft socketId userEmail) st1 in
    let st3 :=
      emit (Everyone roomCode) "participants-update"
        (PParticipantsUpdate remainingCount
           (roster st2 (JSSet.toArray (membersAt room st2))))
        st2 in
    set_userLastActivity (λ m, delete userEmail m)
      (set_userToSocket (λ m, delete userEmail m)
         (set_socketToUser (λ m, delete socketId m) st3))
  else st.

Definition runTimer (cb : Timer) (st : State) : State :=
  match cb with
  | RoomParticipantsTimer socketId roomParticipants =>
      emit (Self socketId) "room-participants"
        (PRoomParticipants roomParticipants) st
  | UserJoinedTimer socketId roomCode userEmail =>
      emit (Others socketId roomCode) "user-joined"
        (PUserJoined socketId userEmail) st
  | GraceTimer socketId roomCode userEmail room =>
      graceTimeout socketId roomCode userEmail room st
  end.

(** The [k]-th pending continuation runs and leaves the queue. *)
Definition fireTimer (k : nat) (st : State) : State :=
  match timers st !! k with
  | Some (_, cb) => runTimer cb (set_timers (λ ts, delete k ts) st)
  | None => st
  end.

(** [GET /join/:email/:code], after [validateJoinRequest]. *)
Definition joinRoute (code : string) (now : Z) (st : State) : State :=
  let upperCode := toUpperCase code in
  (getOrCreate upperCode now st).2.

(** ** The event loop *)

(** What the process reacts to, one run-to-completion step each. *)
Inductive Event :=
| Connection (socketId : string)
| JoinRoom (socketId roomCode userEmail : string)
| Ping (socketId userEmail : string)
| Signal (k : SignalKind) (socketId payload to : string)
| ChatMessage (socketId message senderEmail roomCode : string) (rnd : Z)
| PrivateMsg (socketId message senderEmail recipientEmail roomCode : string)
    (rnd : Z)
| PresenceChange (p : Presence) (socketId roomCode : string)
| TransportClose (socketId : string)
| TimerFires (k : nat)
| HttpJoin (email code : string)
| SweepTick.

Definition handle (now : Z) (ev : Event) (st : State) : State :=
  match ev with
  | Connection socketId => set_sockets (λ s, {[socketId]} ∪ s) st
  | JoinRoom socketId roomCode userEmail =>
      onJoinRoom socketId roomCode userEmail now st
  | Ping socketId userEmail => onPing socketId userEmail now st
  | Signal k socketId payload to => onSignal k socketId payload to st
  | ChatMessage _ message senderEmail roomCode rnd =>
      onChatMessage message senderEmail roomCode now rnd st
  | PrivateMsg socketId message senderEmail recipientEmail _ rnd =>
      onPrivateMessage socketId message senderEmail recipientEmail now rnd st
  | PresenceChange p socketId roomCode => onPresence p socketId roomCode st
  | TransportClose socketId =>
      onDisconnect socketId now (set_sockets (λ s, s ∖ {[socketId]}) st)
  | TimerFires k => fireTimer k st
  | HttpJoin _ code => joinRoute code now st
  | SweepTick => roomUtils.cleanupEmptyRooms st
  end.

(** When the event can occur: socket events come from connected sockets,
    whose ids Socket.IO generates non-empty; a continuation runs once due. *)
Definition enabled (now : Z) (ev : Event) (st : State) : Prop :=
  match ev with
  | Connection socketId => socketId ≠ "" ∧ socketId ∉ sockets st
  | JoinRoom socketId _ _
  | Ping socketId _
  | Signal _ socketId _ _
  | ChatMessage socketId _ _ _ _
  | PrivateMsg socketId _ _ _ _ _
  | PresenceChange _ socketId _
  | TransportClose socketId => socketId ∈ sockets st
  | TimerFires k =>
      match timers st !! k with
      | Some (due, _) => due ≤ now
      | None => False
      end
  | HttpJoin _ _ | SweepTick => True
  end.

(** Run a timed trace. *)
Fixpoint run (tr : list (Z * Event)) (st : State) : State :=
  match tr with
  | [] => st
  | (now, ev) :: tr' => run tr' (handle now ev st)
  end.

Inductive reachable : State → Prop :=
| reachable_initial : reachable initial
| reachable_step now ev st :
    reachable st → enabled now ev st → reachable (handle now ev st).

(** ** Histories of one Room *)

(** The methods of [Room] that mutate it, as calls with their arguments. *)
Inductive RoomOp :=
| CallAdd (socketId userEmail : string) (now : Z)
| CallRemove (socketId : string)
| CallMessage (message senderEmail : string) (now rnd : Z).

(** One call on the object and the [participants] map; a call that throws
    leaves both as they were. *)
Definition applyOp (op : RoomOp) (s : Room.t * gmap string Participant.t)
  : Room.t * gmap string Participant.t :=
  match op with
  | CallAdd socketId userEmail now =>
      match Room.addParticipant socketId userEmail now s.1 s.2 with
      | Ok s' => s'
      | Throw _ => s
      end
  | CallRemove socketId => (Room.removeParticipant socketId s.1 s.2).1
  | CallMessage message senderEmail now rnd =>
      ((Room.addMessage message senderEmail now rnd s.1).1, s.2)
  end.

Definition applyOps (ops : list RoomOp)
    (s : Room.t * gmap string Participant.t)
  : Room.t * gmap string Participant.t :=
  foldl (λ acc op, applyOp op acc) s ops.

(** Some [removeParticipant] of the history returned with the member set
    empty. *)
Fixpoint everEmptied (ops : list RoomOp)
    (s : Room.t * gmap string Participant.t) : bool :=
  match ops with
  | [] => false
  | op :: ops' =>
      let s' := applyOp op s in
      match op with
      | CallRemove _ =>
          (JSSet.size (Room.participants s'.1) =? 0)%nat || everEmptied ops' s'
      | _ => everEmptied ops' s'
      end
  end.

(** ** Histories of the whole process *)

(** The event makes the process call [removeParticipant] on the object at
    [room]: a due grace continuation that captured it finds the identity
    still bound to its socket. *)
Definition callsRemove (room : loc) (ev : Event) (st : State) : Prop :=
  match ev with
  | TimerFires k =>
      match timers st !! k with
      | Some (_, GraceTimer socketId _ userEmail room') =>
          room' = room ∧ userToSocket st !! userEmail = Some socketId
      | _ => False
      end
  | _ => False
  end.

(** No event of the trace calls [removeParticipant] on [room]. *)
Fixpoint removalFree (room : loc) (tr : list (Z * Event)) (st : State)
  : Prop :=
  match tr with
  | [] => True
  | (now, ev) :: tr' =>
      ¬ callsRemove room ev st ∧ removalFree room tr' (handle now ev st)
  end.

(** The two identity maps agree on every bound socket, and socket ids are
    non-empty. *)
Definition identity_ok (st : State) : Prop :=
  (∀ s, s ∈ sockets st → s ≠ "") ∧
  (∀ s user, socketToUser st !! s = Some user →
     s ≠ "" ∧ userToSocket st !! SocketUser.userEmail user = Some s) ∧
  (∀ userEmail s, userToSocket st !! userEmail = Some s → s ≠ "").

(** Every registry entry points to an object that carries the entry's key,
    an upper-case string, as code and id. *)
Definition registry_ok (st : State) : Prop :=
  ∀ code room,
    rooms st !! code = Some room →
    ∃ this, heap st !! room = Some this ∧ Room.code this = code
            ∧ Room.id this = code ∧ toUpperCase code = code.

(** The Room captured by every grace continuation of [ts] lies below [n]. *)
Definition timers_ok (ts : list (Z * Timer)) (n : nat) : Prop :=
  ∀ due socketId roomCode userEmail room,
    (due, GraceTimer socketId roomCode userEmail room) ∈ ts → (room < n)%nat.

(** Every reference held by the registry or by a pending continuation
    points to an object. *)
Definition refs_ok (st : State) : Prop :=
  registry_ok st ∧ timers_ok (timers st) (length (heap st)).

(** From [st] to [st'] every Room object stays where it is and keeps its
    code and id; it keeps its flag too, except at the locations [flagged]. *)
Definition evolves (flagged : loc → Prop) (st st' : State) : Prop :=
  ∀ room this,
    heap st !! room = Some this →
    ∃ this',
      heap st' !! room = Some this' ∧
      Room.code this' = Room.code this ∧
      Room.id this' = Room.id this ∧
      (flagged room ∨ Room.isActive this' = Room.isActive this).

(** Capacity 50 and at most 50 members. *)
Definition within_capacity (s : Room.t * gmap string Participant.t) : Prop :=
  Room.maxParticipants s.1 = 50%nat ∧
  (JSSet.size (Room.participants s.1) ≤ 50)%nat.

(** The data of the emits of one event name, in order. *)
Definition emitted (event : string) (l : list Effect)
  : list (Target * Payload) :=
  omap (λ e, match e with
             | Emit to event' data =>
                 if String.eqb event' event then Some (to, data) else None
             | _ => None
             end) l.

(** Every event of the trace can occur when its turn comes. *)
Fixpoint admissible (tr : list (Z * Event)) (st : State) : Prop :=
  match tr with
  | [] => True
  | (now, ev) :: tr' => enabled now ev st ∧ admissible tr' (handle now ev st)
  end.

#[global] Instance enabled_dec now ev st : Decision (enabled now ev st).
Proof.
  destruct ev; simpl; try apply _.
  destruct (timers st !! k) as [[due cb]|]; apply _.
Defined.

#[global] Instance admissible_dec tr st : Decision (admissible tr st).
Proof.
  revert st. induction tr as [|[now ev] tr IH]; intros st; simpl; apply _.
Defined.

#[global] Instance callsRemove_dec room ev st :
  Decision (callsRemove room ev st).
Proof.
  destruct ev; simpl; try apply _.
  destruct (timers st !! k) as [[due []]|]; apply _.
Defined.

#[global] Instance removalFree_dec room tr st :
  Decision (removalFree room tr st).
Proof.
  revert st. induction tr as [|[now ev] tr IH]; intros st; simpl; apply _.
Defined.

(** Chat posts [(message, senderEmail, now, rnd)] stored one after the
    other by [addMessage], and the record each one becomes. *)
Definition postAll (posts : list (string * string * Z * Z)) (this : Room.t)
  : Room.t :=
  foldl
    (λ acc post,
       (Room.addMessage post.1.1.1 post.1.1.2 post.1.2 post.2 acc).1)
    this posts.

Definition messageOf (post : string * string * Z * Z) : Message.t :=
  Message.mk (post.1.2, post.2) post.1.1.1 post.1.1.2 post.1.2.

(** The members of the Room registered for a code (none when the code is
    not registered). *)
Definition membersOf (code : string) (st : State) : JSSet.t :=
  match roomUtils.getRoom code st with
  | Some room => membersAt room st
  | None => JSSet.empty
  end.

(** ** How the process touches the model *)

(** The store of Room objects and the [participants] map change only by a
    [new Room] appended to the store or by a method call on a stored
    object. *)
Inductive model_step :
  list Room.t * gmap string Participant.t →
  list Room.t * gmap string Participant.t → Prop :=
| model_same m : model_step m m
| model_then m1 m2 m3 : model_step m1 m2 → model_step m2 m3 → model_step m1 m3
| model_new h ps code now : model_step (h, ps) (h ++ [Room.new code now], ps)
| model_call h ps room this op :
    h !! room = Some this →
    model_step (h, ps)
      (<[room := (applyOp op (this, ps)).1]> h, (applyOp op (this, ps)).2).

(** What every Room object satisfies: distinct members, at most 50 of
    them for a capacity of 50, and at most 100 messages. *)
Definition room_ok (this : Room.t) : Prop :=
  NoDup (Room.participants this) ∧
  (JSSet.size (Room.participants this) ≤ 50)%nat ∧
  Room.maxParticipants this = 50%nat ∧
  (length (Room.messages this) ≤ 100)%nat.

(** Every entry of the [participants] map names a handle that is a member
    of a Room object carrying the entry's room code. *)
Definition participants_ok (m : list Room.t * gmap string Participant.t)
  : Prop :=
  ∀ socketId participant,
    m.2 !! socketId = Some participant →
    ∃ room this,
      m.1 !! room = Some this ∧
      Room.code this = Participant.roomCode participant ∧
      socketId ∈ Room.participants this.

(** A [participants-update] carries the length of its roster as count, and
    a roster of distinct handles. *)
Definition update_ok (e : Effect) : Prop :=
  match e with
  | Emit _ _ (PParticipantsUpdate count roster) =>
      count = length roster ∧ NoDup (RosterEntry.socketId <$> roster)
  | _ => True
  end.

(** ** middleware/errorHandler.js *)

(** [\s]: the characters U+0009 to U+000D, U+0020, U+00A0, U+1680,
    U+2000 to U+200A, U+2028, U+2029, U+202F, U+205F, U+3000 and U+FEFF,
    by their bytes. *)
Definition whiteSpace : list string :=
  (λ bytes, string_of_list_ascii (ascii_of_nat <$> bytes)) <$>
  [ [9]; [10]; [11]; [12]; [13]; [32]; [194; 160]; [225; 154; 128];
    [226; 128; 128]; [226; 128; 129]; [226; 128; 130]; [226; 128; 131];
    [226; 128; 132]; [226; 128; 133]; [226; 128; 134]; [226; 128; 135];
    [226; 128; 136]; [226; 128; 137]; [226; 128; 138]; [226; 128; 168];
    [226; 128; 169]; [226; 128; 175]; [226; 129; 159]; [227; 128; 128];
    [239; 187; 191] ]%nat.

Definition isSpace (ch : string) : bool := existsb (String.eqb ch) whiteSpace.

(** [[^\s@]] *)
Definition plainChar (ch : string) : bool :=
  negb (isSpace ch) && negb (String.eqb ch "@").

(** [[A-Z0-9]] under the [i] flag, which adds [a] to [z] and nothing
    beyond ASCII. *)
Definition codeChar (c : ascii) : bool :=
  let n := nat_of_ascii c in
  ((48 <=? n) && (n <=? 57) || (65 <=? n) && (n <=? 90)
   || (97 <=? n) && (n <=? 122))%nat.

(** [/^[^\s@]+@[^\s@]+\.[^\s@]+$/.test(email)]: the characters split, at
    some position [i] of an at-sign and some later position [j] of a dot,
    into three non-empty runs of [[^\s@]]. *)
Definition emailRegex_test (email : string) : bool :=
  let cs := codePoints email in
  existsb
    (λ i,
       existsb
         (λ j,
            bool_decide (cs !! i = Some "@")
            && bool_decide (cs !! j = Some ".")
            && (1 <=? i)%nat && (i + 2 <=? j)%nat
            && (j + 2 <=? length cs)%nat
            && forallb plainChar (take i cs)
            && forallb plainChar (take (j - (i + 1)) (drop (i + 1) cs))
            && forallb plainChar (drop (j + 1) cs))
         (seq 0 (length cs)))
    (seq 0 (length cs)).

(** [/^[A-Z0-9]{3,12}$/i.test(code)]; the characters it accepts are single
    bytes. *)
Definition codeRegex_test (code : string) : bool :=
  let cs := list_ascii_of_string code in
  (3 <=? length cs)%nat && (length cs <=? 12)%nat && forallb codeChar cs.

(** [validateJoinRequest]: [None] is [next()], [Some (status, error)] the
    JSON answer. *)
Definition validateJoinRequest (email code : string) : option (nat * string) :=
  if negb (truthy email) || negb (truthy code) then
    Some (400%nat, "Email and meeting code are required")
  else if negb (emailRegex_test email) then
    Some (400%nat, "Invalid email format")
  else if negb (codeRegex_test code) then
    Some (400%nat, "Invalid meeting code format")
  else None.

(** [rateLimiter]; [store] is [global.rateLimitStore]. Returns whether
    [next()] was called (otherwise the answer is 429) and the store. *)
Definition rateLimiter (ip : string) (now : Z) (store : gmap string (list Z))
  : bool * gmap string (list Z) :=
  let userRequests := default [] (store !! ip) in
  let recentRequests := filter (λ time, now - time < 60000) userRequests in
  if (30 <=? length recentRequests)%nat then (false, store)
  else (true, <[ip := recentRequests ++ [now]]> store).

(** Requests of one address, served in order: the times of those let
    through, and the store. *)
Fixpoint serve (ip : string) (times : list Z) (store : gmap string (list Z))
  : list Z * gmap string (list Z) :=
  match times with
  | [] => ([], store)
  | now :: times' =>
      let '(ok, store') := rateLimiter ip now store in
      let '(passed, store'') := serve ip times' store' in
      (if ok then now :: passed else passed, store'')
  end.

(** Non-decreasing times. *)
Fixpoint chronological (times : list Z) : Prop :=
  match times with
  | [] => True
  | t :: times' => (∀ t', t' ∈ times' → t ≤ t') ∧ chronological times'
  end.

(** ** server.js: the page route with its middleware *)

Inductive Page :=
| SendFile (name : string)
| JsonError (status : nat) (error : string).

(** [app.get("/join/:email/:code", validateJoinRequest, ...)] *)
Definition getJoinPage (email code : string) (now : Z) (st : State)
  : Page * State :=
  match validateJoinRequest email code with
  | Some (status, error) => (JsonError status error, st)
  | None => (SendFile "meeting.html", joinRoute code now st)
  end.

(** ** controllers/roomController.js *)

Module RoomController.
(** [data] of the successful answer of [joinRoom]. *)
Record JoinData := mkJoinData {
  roomCode : string;
  roomId : string;
  participantCount : nat;
  createdAt : Z;
  userEmail : string;
  canJoin : bool
}.

Inductive JoinAnswer :=
| JoinOk (data : JoinData) (message : string)
| JoinError (status : nat) (error : string).

(** [joinRoom(req, res)] with [req.params = { email, code }]; reading a
    property of a missing object is caught as status 500. *)
Definition joinRoom (email code : string) (st : State) : JoinAnswer :=
  if negb (truthy email) || negb (truthy code) then
    JoinError 400 "Email and meeting code are required"
  else if negb (emailRegex_test email) then
    JoinError 400 "Invalid email format"
  else
    match rooms st !! toUpperCase code with
    | None =>
        JoinError 404 "Meeting room not found. Please check the meeting code."
    | Some room =>
        match heap st !! room with
        | None => JoinError 500 "Internal server error"
        | Some this =>
            let MAX_PARTICIPANTS := 50%nat in
            if (MAX_PARTICIPANTS <=? JSSet.size (Room.participants this))%nat
            then
              JoinError 403
                "Meeting room is full. Maximum participants reached."
            else
              JoinOk
                {| roomCode := toUpperCase code;
                   roomId := Room.id this;
                   participantCount := JSSet.size (Room.participants this);
                   createdAt := Room.createdAt this;
                   userEmail := email;
                   canJoin := true |}
                "Room found. Ready to join."
        end
    end.
End RoomController.

(** ** Sample data and runs *)

(** A history of exactly 100 messages, numbered by their time. *)
Definition hundred_messages : list Message.t :=
  map (λ n, Message.mk (Z.of_nat n, 0) "hello" "a@x.com" (Z.of_nat n))
    (seq 0 100).

(** Fifty distinct handles. *)
Definition fifty_handles : list string :=
  map (λ n, String (ascii_of_nat n) "") (seq 65 50).

(** [a@x.com] joins room "abc" on socket "s1", then the transport closes. *)
Definition joined_then_closed : list (Z * Event) :=
  [ (0, Connection "s1");
    (10, JoinRoom "s1" "abc" "a@x.com");
    (1000, TransportClose "s1") ].

(** The same, and the identity comes back on a new socket "s2" two seconds
    after the close; the grace continuation of "s1" runs when due. *)
Definition reconnect_within_grace : list (Z * Event) :=
  joined_then_closed ++
  [ (1010, TimerFires 0);      (* room-participants for "s1"  *)
    (1510, TimerFires 0);      (* user-joined for "s1"        *)
    (2900, Connection "s2");
    (3000, JoinRoom "s2" "abc" "a@x.com");
    (4000, TimerFires 1);      (* room-participants for "s2"  *)
    (4500, TimerFires 1);      (* user-joined for "s2"        *)
    (6000, TimerFires 0) ].    (* grace continuation of "s1"  *)

(** A page load of the join route for a new code, followed by two sweeps,
    a chat message to the room and a third sweep; no socket ever joins. *)
Definition page_load_then_sweeps : list (Z * Event) :=
  [ (0, HttpJoin "a@x.com" "abc");
    (300000, SweepTick);
    (600000, SweepTick);
    (600001, Connection "s1");
    (600002, ChatMessage "s1" "anyone?" "a@x.com" "abc" 7);
    (900000, SweepTick) ].

(** [a@x.com] is bound to "s1" and a second socket "s2" is connected. *)
Definition two_sockets : list (Z * Event) :=
  [ (0, Connection "s1");
    (10, JoinRoom "s1" "abc" "a@x.com");
    (20, Connection "s2") ].



(** The states a timed trace goes through, the first one included. *)
Fixpoint states (tr : list (Z * Event)) (st : State) : list State :=
  st :: match tr with
        | [] => []
        | (now, ev) :: tr' => states tr' (handle now ev st)
        end.

(** Fifty sockets fill room "abc" and their join timers run; a socket
    "late" asks to join and is refused, the Room being full; the fifty
    leave, their grace continuations run, and a sweep deletes the Room. *)
Definition full_room_emptied : list (Z * Event) :=
  flat_map
    (λ s, [(0, Connection s); (10, JoinRoom s "abc" (s ++ "@x.com")%string)])
    fifty_handles
  ++ replicate 100 (2000, TimerFires 0)
  ++ [ (2100, Connection "late"); (2200, JoinRoom "late" "abc" "z@x.com") ]
  ++ map (λ s, (3000, TransportClose s)) fifty_handles
  ++ replicate 50 (8000, TimerFires 0)
  ++ [ (300000, SweepTick) ].

(** The socket "late" closes, its grace continuation runs when due, and the
    next sweep comes. *)
Definition late_socket_leaves : list (Z * Event) :=
  [ (300200, TransportClose "late");
    (305200, TimerFires 0);
    (600000, SweepTick) ].

(** * Properties *)

(** ** Strings and sets *)

Lemma upper_ascii_idem c : upper_ascii (upper_ascii c) = upper_ascii c.
Proof. by destruct c as [[] [] [] [] [] [] [] []]. Qed.

Section text.
Implicit Types (c d : ascii) (s t ch : string) (l : list string).

Lemma append_cons c s t : (String c s +:+ t) = String c (s +:+ t).
Proof. reflexivity. Qed.

Lemma append_nil_l s : ("" +:+ s) = s.
Proof. reflexivity. Qed.

Lemma append_nil_r s : (s +:+ "") = s.
Proof. induction s as [|c s IH]; [done|]. by rewrite append_cons, IH. Qed.

Lemma append_assoc s t u : ((s +:+ t) +:+ u) = (s +:+ (t +:+ u)).
Proof. induction s as [|c s IH]; [done|]. by rewrite !append_cons, IH. Qed.

Lemma join_cons s l : join (s :: l) = (s +:+ join l).
Proof. reflexivity. Qed.

Lemma join_app l1 l2 : join (l1 ++ l2) = (join l1 +:+ join l2).
Proof.
  induction l1 as [|s l1 IH]; [done|]. simpl. by rewrite IH, append_assoc.
Qed.

Lemma codePoints_nil_inv s : codePoints s = [] → s = "".
Proof.
  destruct s as [|c s]; [done|]. simpl.
  destruct (codePoints s) as [|ch rest]; [done|].
  by destruct (startsWithContinuation ch).
Qed.

(** Splitting loses nothing. *)
Lemma join_codePoints s : join (codePoints s) = s.
Proof.
  induction s as [|c s IH]; [done|]. simpl.
  destruct (codePoints s) as [|ch rest] eqn:E.
  - by apply codePoints_nil_inv in E as ->.
  - simpl in IH.
    destruct (startsWithContinuation ch); simpl;
      by rewrite ?append_cons, ?append_nil_l, IH.
Qed.

Lemma codePoints_head s ch rest :
  codePoints s = ch :: rest →
  startsWithContinuation ch = startsWithContinuation s.
Proof.
  destruct s as [|c s]; [done|]. simpl.
  destruct (codePoints s) as [|ch' rest']; [by intros [= <- <-]|].
  destruct (startsWithContinuation ch'); by intros [= <- <-].
Qed.

Lemma codePoints_app s t :
  startsWithContinuation t = false →
  codePoints (s +:+ t) = codePoints s ++ codePoints t.
Proof.
  intros Ht. induction s as [|c s IH]; [done|].
  rewrite append_cons. simpl. rewrite IH.
  destruct (codePoints s) as [|ch rest] eqn:E; simpl;
    [|by destruct (startsWithContinuation ch)].
  destruct (codePoints t) as [|ch' rest'] eqn:Et; [done|].
  by rewrite (codePoints_head _ _ _ Et), Ht.
Qed.

Lemma codePoints_one c tl :
  allContinuation tl = true → codePoints (String c tl) = [String c tl].
Proof.
  revert c. induction tl as [|d tl IH]; intros c Htl; [done|].
  simpl in Htl. apply andb_true_iff in Htl as [Hd Htl].
  change (codePoints (String c (String d tl)))
    with (match codePoints (String d tl) with
          | ch :: rest =>
              if startsWithContinuation ch then String c ch :: rest
              else String c EmptyString :: ch :: rest
          | [] => [String c EmptyString]
          end).
  rewrite (IH d Htl). simpl. by rewrite Hd.
Qed.

Lemma codePoints_each s : Forall oneCodePoint (codePoints s).
Proof.
  induction s as [|c s IH]; [constructor|]. simpl.
  destruct (codePoints s) as [|ch rest].
  { repeat constructor. by exists c, "". }
  apply Forall_cons in IH as [(d & tl & -> & Htl) Hrest]. simpl.
  destruct (isContinuation d) eqn:Hd.
  - constructor; [|done]. exists c, (String d tl). simpl. by rewrite Hd.
  - constructor; [by exists c, ""|]. constructor; [|done]. by exists d, tl.
Qed.

Lemma codePoints_tail s :
  Forall (λ ch, startsWithContinuation ch = false) (tail (codePoints s)).
Proof.
  induction s as [|c s IH]; [constructor|]. simpl.
  destruct (codePoints s) as [|ch rest] eqn:E; [constructor|].
  simpl in IH. destruct (startsWithContinuation ch) eqn:H; simpl; [done|].
  by constructor.
Qed.

Lemma startsWithContinuation_app s t :
  startsWithContinuation (s +:+ t) =
  if String.eqb s "" then startsWithContinuation t
  else startsWithContinuation s.
Proof. by destruct s. Qed.

Lemma join_start l :
  Forall (λ ch, startsWithContinuation ch = false) l →
  startsWithContinuation (join l) = false.
Proof.
  induction 1 as [|ch l Hch _ IH]; [done|]. simpl.
  rewrite startsWithContinuation_app. by destruct (String.eqb ch "").
Qed.

Lemma forallb_elem {A} (f : A → bool) (xs : list A) x :
  forallb f xs = true → x ∈ xs → f x = true.
Proof.
  intros Hall Hin. induction Hin as [x xs|x y xs _ IH]; simpl in Hall;
    apply andb_true_iff in Hall as [Hx Hxs]; [done|by apply IH].
Qed.

Lemma existsb_elem {A} (f : A → bool) (xs : list A) :
  existsb f xs = true → ∃ x, x ∈ xs ∧ f x = true.
Proof.
  induction xs as [|x xs IH]; [done|]. simpl.
  intros [Hx|Hxs]%orb_true_iff.
  - exists x. split; [left|done].
  - destruct (IH Hxs) as (y & Hy & Hfy). exists y. split; [by right|done].
Qed.

(** The table. *)
Lemma upperTable_ok : forallb entry_ok upperTable = true.
Proof. vm_compute. reflexivity. Qed.

Lemma uppercaseMapping_elem ch table upper :
  uppercaseMapping ch table = Some upper → (ch, upper) ∈ table.
Proof.
  induction table as [|[k v] table IH]; [done|]. simpl.
  destruct (String.eqb_spec k ch) as [->|].
  - intros [= ->]. left.
  - intros H. right. by apply IH.
Qed.

Lemma uppercaseMapping_None ch table :
  uppercaseMapping ch table = None →
  existsb (λ kv, String.eqb kv.1 ch) table = false.
Proof.
  induction table as [|[k v] table IH]; [done|]. simpl.
  destruct (String.eqb k ch); [done|]. exact IH.
Qed.

Lemma upperTable_elem k v :
  (k, v) ∈ upperTable →
  (2 ≤ String.length k)%nat ∧
  startsWithContinuation v = false ∧
  toUpperCase v = v ∧
  Forall (λ ch, isLowerCase ch = false) (codePoints v) ∧
  uppercaseMapping k upperTable = Some v.
Proof.
  intros Hin.
  pose proof (forallb_elem entry_ok upperTable _ upperTable_ok Hin) as Hok.
  unfold entry_ok in Hok. cbn [fst snd] in Hok.
  repeat (apply andb_true_iff in Hok as [Hok ?]).
  split_and!.
  - by apply Nat.leb_le.
  - by apply negb_true_iff.
  - by apply String.eqb_eq.
  - apply Forall_forall. intros ch Hch.
    match goal with
    | H : forallb _ _ = true |- _ =>
        apply negb_true_iff, (forallb_elem _ _ _ H Hch)
    end.
  - destruct (uppercaseMapping k upperTable) as [upper|]; [|done].
    f_equal. by apply String.eqb_eq.
Qed.

Lemma isContinuation_upper_ascii c :
  isContinuation (upper_ascii c) = isContinuation c.
Proof. by destruct c as [[] [] [] [] [] [] [] []]. Qed.

Lemma isLowerCase_upper_ascii c :
  isLowerCase (String (upper_ascii c) "") = false.
Proof. by destruct c as [[] [] [] [] [] [] [] []]. Qed.

Lemma upperCodePoint_start ch :
  startsWithContinuation ch = false →
  startsWithContinuation (upperCodePoint ch) = false.
Proof.
  intros Hch. unfold upperCodePoint.
  destruct ch as [|c [|d tl]].
  - destruct (uppercaseMapping _ _) as [upper|] eqn:E; [|done].
    by apply uppercaseMapping_elem, upperTable_elem in E as (_ & ? & _).
  - simpl. by rewrite isContinuation_upper_ascii.
  - destruct (uppercaseMapping _ _) as [upper|] eqn:E; [|done].
    by apply uppercaseMapping_elem, upperTable_elem in E as (_ & ? & _).
Qed.

Lemma toUpperCase_one ch :
  oneCodePoint ch → toUpperCase ch = upperCodePoint ch.
Proof.
  intros (c & tl & -> & Htl). unfold toUpperCase.
  rewrite codePoints_one by done. simpl. apply append_nil_r.
Qed.

Lemma toUpperCase_upperCodePoint ch :
  oneCodePoint ch → toUpperCase (upperCodePoint ch) = upperCodePoint ch.
Proof.
  intros Hone. pose proof Hone as (c & tl & -> & Htl).
  destruct tl as [|d tl].
  - change (upperCodePoint (String c "")) with (String (upper_ascii c) "").
    rewrite toUpperCase_one by by exists (upper_ascii c), "".
    unfold upperCodePoint. by rewrite upper_ascii_idem.
  - set (ch := String c (String d tl)) in *.
    assert (upperCodePoint ch = default ch (uppercaseMapping ch upperTable))
      as Hup by reflexivity.
    rewrite Hup. destruct (uppercaseMapping ch upperTable) as [upper|] eqn:E.
    + by apply uppercaseMapping_elem, upperTable_elem in E as (_ & _ & ? & _).
    + simpl. rewrite toUpperCase_one by done. by rewrite Hup.
Qed.

Lemma notLower_upperCodePoint ch :
  oneCodePoint ch →
  Forall (λ x, isLowerCase x = false) (codePoints (upperCodePoint ch)).
Proof.
  intros (c & tl & -> & Htl). destruct tl as [|d tl].
  - simpl. repeat constructor. apply isLowerCase_upper_ascii.
  - set (ch := String c (String d tl)) in *.
    assert (upperCodePoint ch = default ch (uppercaseMapping ch upperTable))
      as -> by reflexivity.
    destruct (uppercaseMapping ch upperTable) as [upper|] eqn:E.
    + by apply uppercaseMapping_elem, upperTable_elem in E
        as (_ & _ & _ & ? & _).
    + change (default ch None) with ch. subst ch.
      rewrite codePoints_one by done. repeat constructor.
      by apply uppercaseMapping_None.
Qed.

Lemma codePoints_upper l :
  Forall (λ ch, startsWithContinuation ch = false) (tail l) →
  codePoints (join (upperCodePoint <$> l))
  = concat (codePoints <$> (upperCodePoint <$> l)).
Proof.
  induction l as [|ch l IH]; [done|]. simpl. intros Hl.
  rewrite codePoints_app.
  - f_equal. apply IH. destruct l; [constructor|].
    by apply Forall_cons in Hl as [_ ?].
  - apply join_start, Forall_fmap.
    eapply Forall_impl; [exact Hl|]. intros x Hx. by apply upperCodePoint_start.
Qed.

Lemma codePoints_toUpperCase s :
  codePoints (toUpperCase s)
  = concat (codePoints <$> (upperCodePoint <$> codePoints s)).
Proof. apply codePoints_upper, codePoints_tail. Qed.

Lemma toUpperCase_idem s : toUpperCase (toUpperCase s) = toUpperCase s.
Proof.
  unfold toUpperCase at 1. rewrite codePoints_toUpperCase.
  unfold toUpperCase.
  pose proof (codePoints_each s) as Hall.
  induction Hall as [|ch l Hch _ IH]; [done|].
  rewrite !fmap_cons, concat_cons, fmap_app, join_app, join_cons, IH.
  f_equal. by apply toUpperCase_upperCodePoint.
Qed.

Lemma toUpperCase_is_upper s : is_upper (toUpperCase s).
Proof.
  unfold is_upper. rewrite codePoints_toUpperCase.
  pose proof (codePoints_each s) as Hall.
  induction Hall as [|ch l Hch _ IH]; [constructor|].
  rewrite !fmap_cons, concat_cons. apply Forall_app.
  split; [|done]. by apply notLower_upperCodePoint.
Qed.

Lemma capitalOf_upper x y :
  capitalOf x y = true → oneCodePoint y →
  upperCodePoint x = y ∧ upperCodePoint y = y.
Proof.
  intros Hcap Hy.
  assert (existsb (λ kv, String.eqb kv.1 x && String.eqb kv.2 y) upperTable
          = true →
          upperCodePoint x = y ∧ upperCodePoint y = y) as Htable.
  { intros ([k v] & Hin & Heq)%existsb_elem.
    simpl in Heq. apply andb_true_iff in Heq as [->%String.eqb_eq ->%String.eqb_eq].
    apply upperTable_elem in Hin as (Hlen & _ & Hup & _ & Hmap).
    split.
    - unfold upperCodePoint. rewrite Hmap.
      destruct x as [|c [|d tl]]; try done. simpl in Hlen. lia.
    - by rewrite <- (toUpperCase_one y Hy). }
  unfold capitalOf in Hcap.
  destruct x as [|c [|? ?]]; [by apply Htable| |by apply Htable].
  destruct y as [|d [|? ?]]; [by apply Htable| |by apply Htable].
  apply andb_true_iff in Hcap as [[Hlo Hhi]%andb_true_iff Hd].
  apply Nat.eqb_eq in Hd.
  unfold upperCodePoint, upper_ascii. cbn zeta. rewrite Hlo, Hhi.
  cbn [andb]. rewrite <- Hd, ascii_nat_embedding. split; [done|].
  apply Nat.leb_le in Hlo. apply Nat.leb_le in Hhi.
  assert ((97 <=? nat_of_ascii d)%nat = false) as ->
    by (apply Nat.leb_gt; lia).
  done.
Qed.

Lemma differOnlyInCase_toUpperCase s t :
  differOnlyInCase s t → toUpperCase s = toUpperCase t.
Proof.
  unfold differOnlyInCase, toUpperCase. intros Hsame. f_equal.
  pose proof (codePoints_each s) as Hs. pose proof (codePoints_each t) as Ht.
  induction Hsame as [|x y l k Hxy _ IH]; [done|].
  apply Forall_cons in Hs as [Hx Hs]. apply Forall_cons in Ht as [Hy Ht].
  simpl. f_equal; [|by apply IH].
  unfold sameLetter in Hxy.
  apply orb_true_iff in Hxy as [[Heq|Hcap]%orb_true_iff|Hcap].
  - by apply String.eqb_eq in Heq as ->.
  - destruct (capitalOf_upper x y Hcap Hy) as [-> ->]. done.
  - destruct (capitalOf_upper y x Hcap Hx) as [-> ->]. done.
Qed.

Lemma codePoints_plain s :
  Forall (λ c, isContinuation c = false) (list_ascii_of_string s) →
  codePoints s = (λ c, String c "") <$> list_ascii_of_string s.
Proof.
  induction s as [|c s IH]; [done|]. simpl.
  intros [Hc Hs]%Forall_cons. rewrite (IH Hs).
  destruct (list_ascii_of_string s) as [|d cs]; [done|].
  apply Forall_cons in Hs as [Hd _]. simpl. by rewrite Hd.
Qed.

Lemma toUpperCase_plain s :
  Forall (λ c, isContinuation c = false) (list_ascii_of_string s) →
  toUpperCase s = asciiUpperCase s.
Proof.
  intros Hs. unfold toUpperCase. rewrite (codePoints_plain s Hs). clear Hs.
  induction s as [|c s IH]; [done|].
  cbn [list_ascii_of_string asciiUpperCase].
  by rewrite !fmap_cons, join_cons, IH.
Qed.
End text.

Lemma truthy_true s : truthy s = true ↔ s ≠ "".
Proof.
  unfold truthy. destruct (String.eqb_spec s ""); simpl; split; congruence.
Qed.

Section jsset.
Implicit Types (x y : string) (s : JSSet.t).

Lemma JSSet_has_true x s : JSSet.has x s = true ↔ x ∈ s.
Proof. unfold JSSet.has. by rewrite bool_decide_eq_true. Qed.

Lemma JSSet_elem_of_add y x s : y ∈ JSSet.add x s ↔ y = x ∨ y ∈ s.
Proof.
  unfold JSSet.add, JSSet.has. case_bool_decide.
  - split; [by right | intros [->|]; done].
  - rewrite elem_of_app, list_elem_of_singleton. tauto.
Qed.

Lemma JSSet_has_add x s : JSSet.has x (JSSet.add x s) = true.
Proof. apply JSSet_has_true, JSSet_elem_of_add. by left. Qed.

Lemma JSSet_size_add x s :
  JSSet.size (JSSet.add x s) =
  if JSSet.has x s then JSSet.size s else S (JSSet.size s).
Proof.
  unfold JSSet.add, JSSet.size. destruct (JSSet.has x s); [done|].
  rewrite length_app. simpl. lia.
Qed.

Lemma JSSet_NoDup_add x s : NoDup s → NoDup (JSSet.add x s).
Proof.
  intros Hs. unfold JSSet.add, JSSet.has. case_bool_decide; [done|].
  apply NoDup_app. split_and!; [done| |apply NoDup_singleton].
  intros y Hy ->%list_elem_of_singleton. done.
Qed.

Lemma JSSet_elem_of_delete y x s : y ∈ JSSet.delete x s ↔ y ≠ x ∧ y ∈ s.
Proof. unfold JSSet.delete. by rewrite list_elem_of_filter. Qed.

Lemma JSSet_delete_absent x s : x ∉ s → JSSet.delete x s = s.
Proof.
  intros Hx. unfold JSSet.delete.
  induction s as [|y s IH]; [done|].
  apply not_elem_of_cons in Hx as [Hxy Hxs].
  rewrite filter_cons_True by (intros ->; done). by rewrite IH.
Qed.

Lemma JSSet_delete_idem x s :
  JSSet.delete x (JSSet.delete x s) = JSSet.delete x s.
Proof.
  apply JSSet_delete_absent. rewrite JSSet_elem_of_delete. tauto.
Qed.

Lemma JSSet_size_delete x s : (JSSet.size (JSSet.delete x s) ≤ JSSet.size s)%nat.
Proof. apply length_filter. Qed.
End jsset.

(** ** Room.addMessage *)

Lemma slice_last_length {A} n (l : list A) :
  length (slice_last n l) = (length l `min` n)%nat.
Proof. unfold slice_last. rewrite length_drop. lia. Qed.

Lemma slice_last_full {A} (x y : A) (l : list A) :
  length (x :: l) = 100%nat → slice_last 100 ((x :: l) ++ [y]) = l ++ [y].
Proof.
  intros Hlen. unfold slice_last. rewrite length_app, Hlen. simpl.
  by rewrite drop_0.
Qed.

(** C5. After any [addMessage] the history holds at most 100 messages, and
    the returned message is its last entry; below 100 the message is simply
    appended; on a history of exactly 100 the oldest entry alone is dropped
    and the new message comes last. *)
Theorem addMessage_keeps_last_100
    (this : Room.t) (message senderEmail : string) (now rnd : Z) :
  let this' := (Room.addMessage message senderEmail now rnd this).1 in
  let messageObj := (Room.addMessage message senderEmail now rnd this).2 in
  messageObj = Message.mk (now, rnd) message senderEmail now ∧
  (length (Room.messages this') ≤ 100)%nat ∧
  last (Room.messages this') = Some messageObj ∧
  ((length (Room.messages this) < 100)%nat →
     Room.messages this' = Room.messages this ++ [messageObj]) ∧
  (length (Room.messages this) = 100%nat →
     ∃ oldest rest,
       Room.messages this = oldest :: rest ∧
       Room.messages this' = rest ++ [messageObj] ∧
       length (Room.messages this') = 100%nat).
Proof.
  simpl. set (m := Message.mk _ _ _ _).
  rewrite length_app. simpl. split_and!.
  - done.
  - case_match eqn:Hgt; [rewrite slice_last_length|];
      rewrite ?length_app; simpl.
    + lia.
    + apply Nat.ltb_ge in Hgt. lia.
  - case_match eqn:Hgt.
    + unfold slice_last. rewrite drop_app_le.
      * by rewrite last_snoc.
      * rewrite length_app. simpl. lia.
    + by rewrite last_snoc.
  - intros Hlt. case_match eqn:Hgt; [|done]. apply Nat.ltb_lt in Hgt. lia.
  - intros Hlen. destruct (Room.messages this) as [|oldest rest] eqn:E;
      [done|].
    exists oldest, rest. rewrite Hlen. simpl. split; [done|].
    change (oldest :: rest ++ [m]) with ((oldest :: rest) ++ [m]).
    rewrite slice_last_full; [|done].
    split; [done|]. rewrite length_app. simpl in *. lia.
Qed.

Lemma addMessage_keeps_last_100_witness :
  let this := Room.mk "ABC" "ABC" [] 0 hundred_messages true 50 in
  let this' := (Room.addMessage "bye" "b@x.com" 500 7 this).1 in
  let messageObj := (Room.addMessage "bye" "b@x.com" 500 7 this).2 in
  length (Room.messages this) = 100%nat ∧
  ∃ oldest rest,
    Room.messages this = oldest :: rest ∧
    Room.messages this' = rest ++ [messageObj] ∧
    length (Room.messages this') = 100%nat.
Proof.
  intros this this' messageObj. split; [reflexivity|].
  apply (addMessage_keeps_last_100 this "bye" "b@x.com" 500 7).
  reflexivity.
Defined.

(** ** Room.addParticipant *)

(** C1. In a Room of capacity 50: with 50 members [addParticipant] throws
    "Room is full" before touching anything, and the [join-room] handler
    that called it only reports the error to the caller (the object store,
    the registry and the [participants] map are as before); with fewer than
    50 members it returns normally, the handle is in the member set, and the
    [participants] map holds an entry for the handle with the given
    identity, the Room's code and the join time. *)
Theorem addParticipant_capacity
    (this : Room.t) (ps : gmap string Participant.t)
    (socketId userEmail : string) (now : Z) :
  Room.maxParticipants this = 50%nat →
  (JSSet.size (Room.participants this) = 50%nat →
     Room.addParticipant socketId userEmail now this ps = Throw "Room is full"
     ∧ ∀ st room roomCode,
         heap st !! room = Some this →
         participants st = ps →
         roomUtils.getRoom roomCode st = Some room →
         enterRoom socketId roomCode userEmail now st =
         emit (Self socketId) "error" (PError "Room is full") st) ∧
  ((JSSet.size (Room.participants this) < 50)%nat →
     ∃ this',
       Room.addParticipant socketId userEmail now this ps =
       Ok (this',
           <[socketId := Participant.mk userEmail (Room.code this) now]> ps)
       ∧ Room.participants this' = JSSet.add socketId (Room.participants this)
       ∧ socketId ∈ Room.participants this'
       ∧ (<[socketId := Participant.mk userEmail (Room.code this) now]> ps)
           !! socketId
         = Some (Participant.mk userEmail (Room.code this) now)
       ∧ Room.messages this' = Room.messages this
       ∧ Room.isActive this' = Room.isActive this
       ∧ Room.maxParticipants this' = Room.maxParticipants this).
Proof.
  intros Hcap. split.
  - intros Hfull.
    assert (Room.addParticipant socketId userEmail now this ps
            = Throw "Room is full") as Hthrow.
    { unfold Room.addParticipant. rewrite Hcap, Hfull. reflexivity. }
    split; [exact Hthrow|].
    intros st room roomCode Hroom Hps Hget.
    unfold enterRoom, getOrCreate. rewrite Hget.
    unfold addParticipantAt. rewrite Hroom, Hps, Hthrow. reflexivity.
  - intros Hlt. unfold Room.addParticipant. rewrite Hcap.
    destruct (50 <=? JSSet.size (Room.participants this))%nat eqn:Hle.
    { apply Nat.leb_le in Hle. lia. }
    eexists. split; [reflexivity|]. simpl. split_and!; try done.
    + apply JSSet_elem_of_add. by left.
    + apply lookup_insert_eq.
Qed.

Lemma addParticipant_capacity_witness :
  let full := Room.mk "ABC" "ABC" fifty_handles 0 [] true 50 in
  let fresh := Room.new "ABC" 0 in
  (JSSet.size (Room.participants full) = 50%nat ∧
   Room.addParticipant "late" "z@x.com" 9 full ∅ = Throw "Room is full") ∧
  ((JSSet.size (Room.participants fresh) < 50)%nat ∧
   ∃ this',
     Room.addParticipant "s1" "a@x.com" 9 fresh ∅ =
     Ok (this', <[ "s1" := Participant.mk "a@x.com" "ABC" 9 ]> ∅)
     ∧ "s1" ∈ Room.participants this').
Proof.
  intros full fresh. split.
  - split; [reflexivity|].
    apply (addParticipant_capacity full ∅ "late" "z@x.com" 9);
      reflexivity.
  - split; [simpl; lia|].
    destruct (addParticipant_capacity fresh ∅ "s1" "a@x.com" 9) as [_ H];
      [reflexivity|].
    destruct H as (this' & Hadd & _ & Hin & _); [simpl; lia|].
    exists this'. split; [exact Hadd | exact Hin].
Defined.

(** ** Room.removeParticipant *)

(** C8, as the code has it. [removeParticipant] is idempotent: a second call
    with the same handle changes nothing and returns the same count. The
    count returned is the current size, and a call that leaves the member
    set empty sets [isActive] to false and returns 0. For a handle that is
    not a member the member set and the count are those of before, but the
    call still deletes the handle's entry of the [participants] map and
    still clears [isActive] when the set is empty; it changes nothing at
    all when, besides, the map has no entry for the handle and the Room is
    non-empty or already inactive. *)
Theorem removeParticipant_idempotent
    (this : Room.t) (ps : gmap string Participant.t) (socketId : string) :
  let '(this1, ps1, n1) := Room.removeParticipant socketId this ps in
  Room.removeParticipant socketId this1 ps1 = (this1, ps1, n1) ∧
  n1 = JSSet.size (Room.participants this1) ∧
  (socketId ∉ Room.participants this1) ∧
  (JSSet.size (Room.participants this1) = 0%nat →
     Room.isActive this1 = false ∧ n1 = 0%nat) ∧
  (socketId ∉ Room.participants this →
     Room.participants this1 = Room.participants this ∧
     n1 = JSSet.size (Room.participants this) ∧
     ps1 = delete socketId ps ∧
     Room.isActive this1 =
       (if (JSSet.size (Room.participants this) =? 0)%nat then false
        else Room.isActive this) ∧
     (ps !! socketId = None →
      Room.participants this ≠ [] ∨ Room.isActive this = false →
      this1 = this ∧ ps1 = ps)).
Proof.
  unfold Room.removeParticipant. simpl. split_and!.
  - rewrite JSSet_delete_idem, delete_delete_eq.
    by destruct (JSSet.size (JSSet.delete socketId _) =? 0)%nat.
  - done.
  - rewrite JSSet_elem_of_delete. tauto.
  - intros ->. done.
  - intros Habsent. rewrite (JSSet_delete_absent _ _ Habsent).
    split_and!; try done.
    intros Hnone Hstate. split; [|by apply delete_id].
    destruct this as [i c members t ms a cap]; simpl in *. f_equal.
    destruct members; simpl; [|done].
    by destruct Hstate as [?| ->].
Qed.

Lemma removeParticipant_idempotent_witness :
  let this := Room.mk "ABC" "ABC" ["s1"; "s2"] 0 [] true 50 in
  let ps := {[ "s1" := Participant.mk "a@x.com" "ABC" 0 ]} : gmap _ _ in
  ("s3" ∉ Room.participants this) ∧
  (Room.removeParticipant "s3" this ps).1.1 = this ∧
  (Room.removeParticipant "s3" this ps).1.2 = ps.
Proof.
  intros this ps.
  assert ("s3" ∉ Room.participants this) as Habsent.
  { simpl. rewrite !not_elem_of_cons. split_and!; try done.
    apply not_elem_of_nil. }
  split; [exact Habsent|].
  pose proof (removeParticipant_idempotent this ps "s3") as H.
  destruct (Room.removeParticipant "s3" this ps) as [[this1 ps1] n1].
  destruct H as (_ & _ & _ & _ & H).
  destruct (H Habsent) as (_ & _ & _ & _ & Hsame).
  simpl. apply Hsame; [reflexivity | by left].
Defined.

(** C8 as stated fails: on a new Room, removing a handle that is not a
    member returns the current count 0, yet clears [isActive] and deletes
    the entry another Room recorded for that handle. *)
Lemma removeParticipant_absent_mutates :
  let this := Room.new "ABC" 0 in
  let ps := {[ "s9" := Participant.mk "z@x.com" "XYZ" 0 ]} : gmap _ _ in
  let out := Room.removeParticipant "s9" this ps in
  ("s9" ∉ Room.participants this) ∧
  out.2 = JSSet.size (Room.participants this) ∧
  Room.isActive this = true ∧ Room.isActive out.1.1 = false ∧
  is_Some (ps !! "s9") ∧ out.1.2 !! "s9" = None ∧
  out.1 ≠ (this, ps).
Proof.
  simpl. split_and!; try done.
  apply not_elem_of_nil.
Qed.

(** ** The flag and the capacity along a Room's history *)

Section room_history.
Implicit Types (s : Room.t * gmap string Participant.t) (op : RoomOp).

Lemma applyOp_within_capacity op s :
  within_capacity s → within_capacity (applyOp op s).
Proof.
  intros [Hcap Hsize]. destruct op as [socketId userEmail now|socketId|];
    simpl; [| |done].
  - unfold Room.addParticipant. rewrite Hcap.
    destruct (50 <=? JSSet.size (Room.participants s.1))%nat eqn:Hle;
      [done|].
    apply Nat.leb_gt in Hle. split; simpl; [done|].
    rewrite JSSet_size_add. destruct (JSSet.has socketId _); lia.
  - split; simpl; [done|].
    pose proof (JSSet_size_delete socketId (Room.participants s.1)). lia.
Qed.

Lemma applyOps_within_capacity ops s :
  within_capacity s → within_capacity (applyOps ops s).
Proof.
  revert s. induction ops as [|op ops IH]; intros s Hs; [done|].
  apply IH, applyOp_within_capacity, Hs.
Qed.

(** The flag after one call: only [removeParticipant] clears it, and only
    when it leaves the set empty; no call sets it. *)
Lemma applyOp_isActive op s :
  Room.isActive (applyOp op s).1 =
  match op with
  | CallRemove _ =>
      if (JSSet.size (Room.participants (applyOp op s).1) =? 0)%nat
      then false else Room.isActive s.1
  | _ => Room.isActive s.1
  end.
Proof.
  destruct op as [socketId userEmail now|socketId|]; simpl; try done.
  unfold Room.addParticipant. by destruct (_ <=? _)%nat.
Qed.

Lemma applyOps_isActive ops s :
  Room.isActive (applyOps ops s).1 = false ↔
  Room.isActive s.1 = false ∨ everEmptied ops s = true.
Proof.
  revert s. induction ops as [|op ops IH]; intros s.
  - simpl. split; [by left | by intros [?|?]].
  - change (applyOps (op :: ops) s) with (applyOps ops (applyOp op s)).
    rewrite IH, applyOp_isActive. simpl.
    destruct op as [socketId userEmail now|socketId|]; try done.
    destruct (JSSet.size _ =? 0)%nat; simpl; [|done].
    split; [by right | by left].
Qed.
End room_history.

(** C9, as the code has it. After any sequence of calls on a Room made by
    the constructor, the member set holds at most 50 handles; the flag is
    false exactly when some earlier [removeParticipant] returned with the
    member set empty (nothing sets it back to true); hence right after a
    removal an empty member set comes with a false flag. *)
Theorem room_history_invariant
    (code : string) (now : Z) (ps : gmap string Participant.t)
    (ops : list RoomOp) :
  let start := (Room.new code now, ps) in
  let this := (applyOps ops start).1 in
  (JSSet.size (Room.participants this) ≤ 50)%nat ∧
  Room.maxParticipants this = 50%nat ∧
  (Room.isActive this = false ↔ everEmptied ops start = true) ∧
  (∀ ops' socketId,
     ops = ops' ++ [CallRemove socketId] →
     JSSet.size (Room.participants this) = 0%nat →
     Room.isActive this = false).
Proof.
  intros start this.
  assert (within_capacity start) as Hstart by (split; simpl; [done|lia]).
  destruct (applyOps_within_capacity ops start Hstart) as [Hcap Hsize].
  split_and!; [done|done| |].
  - subst this. rewrite applyOps_isActive. simpl. split; [|by right].
    by intros [?|?].
  - intros ops' socketId -> Hempty. subst this.
    unfold applyOps in *. rewrite foldl_app in *. simpl in *.
    by rewrite Hempty.
Qed.

Lemma room_history_invariant_witness :
  let ops := [CallAdd "s1" "a@x.com" 1; CallRemove "s1"] in
  let this := (applyOps ops (Room.new "ABC" 0, ∅)).1 in
  JSSet.size (Room.participants this) = 0%nat ∧ Room.isActive this = false.
Proof.
  intros ops this. split; [reflexivity|].
  destruct (room_history_invariant "ABC" 0 ∅ ops) as (_ & _ & _ & H).
  apply (H [CallAdd "s1" "a@x.com" 1] "s1"); reflexivity.
Defined.

(** C9 as stated fails: a Room emptied once and joined again has a member
    while its flag is false, the last membership change being the join. *)
Lemma rejoined_room_inactive :
  let ops :=
    [CallAdd "s1" "a@x.com" 1; CallRemove "s1"; CallAdd "s2" "b@x.com" 2] in
  let this := (applyOps ops (Room.new "ABC" 0, ∅)).1 in
  Room.participants this = ["s2"] ∧
  Room.isActive this = false ∧
  ¬ (Room.isActive this = false ↔
     JSSet.size (Room.participants this) = 0%nat).
Proof.
  intros ops this. split_and!; [reflexivity|reflexivity|].
  intros [H _]. specialize (H eq_refl). discriminate H.
Qed.

(** ** The grace-period continuation *)

(** The continuation does nothing when the identity is no longer bound to
    the socket that disconnected. *)
Lemma graceTimeout_rebound socketId roomCode userEmail room st :
  userToSocket st !! userEmail ≠ Some socketId →
  graceTimeout socketId roomCode userEmail room st = st.
Proof.
  intros Hne. unfold graceTimeout. by rewrite bool_decide_eq_false_2.
Qed.

(** Rosters: one entry per handle, in order, with the identity the
    [participants] map records for the handle. *)
Lemma roster_length st ids : length (roster st ids) = length ids.
Proof. unfold roster. apply length_map. Qed.

Lemma roster_handles st ids : RosterEntry.socketId <$> roster st ids = ids.
Proof.
  induction ids as [|id ids IH]; [done|].
  simpl. f_equal. exact IH.
Qed.



(** ** Reconnection within the grace period *)

(** C3, on the scenario of the specification: [a@x.com] joins on "s1", the
    transport closes at 1000 ms, the identity rejoins on "s2" at 3000 ms and
    the grace continuation of "s1" runs at 6000 ms. No [user-left] is
    emitted and no [participants-update] lowers the count, but the handle
    "s1", whose socket is gone, is never taken out of the Room: the last
    [participants-update] has count 2 and lists [a@x.com] twice, and no
    continuation is left to remove it. *)
Theorem reconnect_within_grace_lists_identity_twice :
  let st := run reconnect_within_grace initial in
  admissible reconnect_within_grace initial ∧
  emitted "user-left" (log st) = [] ∧
  emitted "participants-update" (log st) =
    [ (Everyone "abc",
       PParticipantsUpdate 1 [RosterEntry.mk "s1" "a@x.com"]);
      (Everyone "abc",
       PParticipantsUpdate 2
         [RosterEntry.mk "s1" "a@x.com"; RosterEntry.mk "s2" "a@x.com"]) ] ∧
  membersAt 0%nat st = ["s1"; "s2"] ∧
  ("s1" ∉ sockets st) ∧
  userToSocket st !! "a@x.com" = Some "s2" ∧
  timers st = [].
Proof.
  intros st. split; [compute_done|].
  split_and!; try (vm_compute; reflexivity). compute_done.
Qed.

(** ** The identity maps along a run *)

Lemma identity_ok_ext st st' :
  sockets st' ⊆ sockets st →
  socketToUser st' = socketToUser st →
  userToSocket st' = userToSocket st →
  identity_ok st → identity_ok st'.
Proof.
  intros Hs Hsu Hus (Hids & Hmaps & Hvals). split_and!.
  - intros s Hin. apply Hids, Hs, Hin.
  - rewrite Hsu, Hus. exact Hmaps.
  - rewrite Hus. exact Hvals.
Qed.

Lemma getOrCreate_cases code now st :
  (rooms st !! toUpperCase code = Some (getOrCreate code now st).1
   ∧ (getOrCreate code now st).2 = st)
  ∨ (rooms st !! toUpperCase code = None
     ∧ (getOrCreate code now st).1 = length (heap st)
     ∧ (getOrCreate code now st).2 =
       set_rooms (λ m, <[toUpperCase code := length (heap st)]> m)
         (set_heap (λ h, h ++ [Room.new (toUpperCase code) now]) st)).
Proof.
  unfold getOrCreate, roomUtils.getRoom, roomUtils.createRoom.
  destruct (rooms st !! toUpperCase code) as [room|] eqn:E; simpl.
  - by left.
  - by right.
Qed.

(** What the handlers leave alone in the identity maps. *)
Lemma onDisconnect_identity socketId now st :
  sockets (onDisconnect socketId now st) = sockets st ∧
  socketToUser (onDisconnect socketId now st) = socketToUser st ∧
  userToSocket (onDisconnect socketId now st) = userToSocket st.
Proof. unfold onDisconnect. by repeat case_match. Qed.

Lemma enterRoom_identity socketId roomCode userEmail now st :
  sockets (enterRoom socketId roomCode userEmail now st) = sockets st ∧
  socketToUser (enterRoom socketId roomCode userEmail now st)
  = socketToUser st ∧
  userToSocket (enterRoom socketId roomCode userEmail now st)
  = userToSocket st.
Proof.
  unfold enterRoom.
  destruct (getOrCreate_cases roomCode now st) as [[_ Hst]|(_ & _ & Hst)];
    destruct (getOrCreate roomCode now st) as [room st1]; simpl in Hst;
    subst st1; unfold addParticipantAt; simpl;
    repeat case_match; simplify_eq; done.
Qed.

Lemma cleanupExisting_identity socketId userEmail now st :
  identity_ok st →
  identity_ok (cleanupExisting socketId userEmail now st) ∧
  ∀ s user,
    socketToUser (cleanupExisting socketId userEmail now st) !! s = Some user →
    SocketUser.userEmail user = userEmail → s = socketId.
Proof.
  intros (Hids & Hmaps & Hvals). unfold cleanupExisting.
  destruct (userToSocket st !! userEmail) as [existing|] eqn:Hex.
  - destruct (truthy existing && negb (String.eqb existing socketId))
      eqn:Hcond.
    + set (st1 := if bool_decide (existing ∈ sockets st)
                  then disconnectSocket existing now st else st).
      assert (sockets st1 ⊆ sockets st ∧ socketToUser st1 = socketToUser st
              ∧ userToSocket st1 = userToSocket st) as (Hs1 & Hsu1 & Hus1).
      { subst st1. case_bool_decide; [|done]. unfold disconnectSocket.
        destruct (onDisconnect_identity existing now
                    (set_sockets (λ s, s ∖ {[existing]})
                       (set_log (λ l, l ++ [Disconnect existing]) st)))
          as (-> & -> & ->).
        simpl. split; [|done].
        by intros s [Hin _]%elem_of_difference. }
      clearbody st1. split; [split_and!|]; simpl; rewrite ?Hsu1, ?Hus1.
      * intros s Hin. apply Hids, Hs1, Hin.
      * intros s user [Hne Hsome]%lookup_delete_Some.
        destruct (Hmaps s user Hsome) as [Hs Hback]. split; [done|].
        rewrite lookup_delete_ne; [done|].
        intros Heq. rewrite Heq, Hback in Hex. by simplify_eq.
      * intros u s [_ Hsome]%lookup_delete_Some. by eapply Hvals.
      * intros s user [Hne Hsome]%lookup_delete_Some Hmail.
        destruct (Hmaps s user Hsome) as [_ Hback].
        rewrite Hmail, Hex in Hback. by simplify_eq.
    + split; [done|]. intros s user Hsome Hmail.
      destruct (Hmaps s user Hsome) as [Hs Hback].
      rewrite Hmail, Hex in Hback. simplify_eq.
      apply andb_false_iff in Hcond as [Hfalsy|Heq].
      * apply truthy_true in Hs. congruence.
      * apply negb_false_iff, String.eqb_eq in Heq. done.
  - split; [done|]. intros s user Hsome Hmail.
    destruct (Hmaps s user Hsome) as [_ Hback].
    rewrite Hmail, Hex in Hback. done.
Qed.

Lemma updateUserActivity_identity userEmail now st :
  sockets (updateUserActivity userEmail now st) = sockets st ∧
  socketToUser (updateUserActivity userEmail now st) = socketToUser st ∧
  userToSocket (updateUserActivity userEmail now st) = userToSocket st.
Proof. unfold updateUserActivity. by case_match. Qed.

Lemma bindUser_identity socketId roomCode userEmail now st :
  socketId ≠ "" →
  identity_ok st →
  (∀ s user, socketToUser st !! s = Some user →
             SocketUser.userEmail user = userEmail → s = socketId) →
  identity_ok (bindUser socketId roomCode userEmail now st).
Proof.
  intros Hsid (Hids & Hmaps & Hvals) Honly. unfold bindUser.
  eapply identity_ok_ext;
    [by rewrite (proj1 (updateUserActivity_identity _ _ _))
    |apply updateUserActivity_identity
    |apply updateUserActivity_identity|].
  split_and!; simpl; [done| |].
  - intros s user Hsome. destruct (decide (s = socketId)) as [->|Hne].
    + rewrite lookup_insert_eq in Hsome. simplify_eq. simpl.
      by rewrite lookup_insert_eq.
    + rewrite lookup_insert_ne in Hsome by done.
      destruct (Hmaps s user Hsome) as [Hs Hback]. split; [done|].
      rewrite lookup_insert_ne; [done|].
      intros Hmail. by apply Hne, (Honly s user).
  - intros u s [[_ <-]|[_ Hsome]]%lookup_insert_Some; [done|].
    by eapply Hvals.
Qed.

Lemma graceTimeout_identity socketId roomCode userEmail room st :
  identity_ok st →
  identity_ok (graceTimeout socketId roomCode userEmail room st).
Proof.
  intros (Hids & Hmaps & Hvals). unfold graceTimeout.
  case_bool_decide as Hbound; [|done].
  unfold removeParticipantAt.
  destruct (heap st !! room) as [this|]; simpl.
  all: split_and!; simpl; [done| |].
  all: try (intros u s [_ Hsome]%lookup_delete_Some; by eapply Hvals).
  all: intros s user [Hne Hsome]%lookup_delete_Some;
    destruct (Hmaps s user Hsome) as [Hs Hback]; (split; [done|]);
    rewrite lookup_delete_ne; [done|];
    intros Heq; rewrite Heq, Hback in Hbound; by simplify_eq.
Qed.

Lemma handle_identity now ev st :
  enabled now ev st → identity_ok st → identity_ok (handle now ev st).
Proof.
  intros Hen Hok. destruct ev; simpl in *.
  - destruct Hen as [Hne Hnew]. destruct Hok as (Hids & Hmaps & Hvals).
    split_and!; simpl; [|done|done].
    intros s [->%elem_of_singleton|Hin]%elem_of_union;
      [done|by apply Hids].
  - unfold onJoinRoom.
    destruct (cleanupExisting_identity socketId userEmail now st Hok)
      as [Hok1 Honly].
    eapply identity_ok_ext;
      [by rewrite (proj1 (enterRoom_identity _ _ _ _ _))
      |apply enterRoom_identity|apply enterRoom_identity|].
    apply bindUser_identity; [by apply Hok|done|done].
  - unfold onPing. eapply identity_ok_ext; [| | |exact Hok]; simpl;
      by rewrite ?(proj1 (updateUserActivity_identity _ _ _));
      try apply updateUserActivity_identity.
  - done.
  - unfold onChatMessage, addMessageAt.
    eapply identity_ok_ext; [| | |exact Hok];
      destruct (roomUtils.getRoom roomCode st) as [room|]; try done;
      by destruct (heap st !! room).
  - unfold onPrivateMessage.
    eapply identity_ok_ext; [| | |exact Hok]; by repeat case_match.
  - unfold onPresence.
    eapply identity_ok_ext; [| | |exact Hok]; by repeat case_match.
  - destruct (onDisconnect_identity socketId now
                (set_sockets (λ s, s ∖ {[socketId]}) st)) as (Hs & Hsu & Hus).
    eapply identity_ok_ext; [| | |exact Hok]; [|done|done].
    rewrite Hs. simpl. by intros s [Hin _]%elem_of_difference.
  - unfold fireTimer. destruct (timers st !! k) as [[due cb]|]; [|done].
    destruct cb; simpl; [done|done|].
    by apply graceTimeout_identity.
  - unfold joinRoute.
    destruct (getOrCreate_cases (toUpperCase code) now st)
      as [[_ ->]|(_ & _ & ->)]; done.
  - done.
Qed.

Lemma reachable_identity st : reachable st → identity_ok st.
Proof.
  induction 1 as [|now ev st _ IH Hen].
  - by split_and!.
  - by apply handle_identity.
Qed.

Lemma run_reachable tr st :
  reachable st → admissible tr st → reachable (run tr st).
Proof.
  revert st. induction tr as [|[now ev] tr IH]; intros st Hst Htr; [done|].
  destruct Htr as [Hen Htr]. apply IH; [|done]. by constructor.
Qed.

(** C2. In every state the process can reach, two entries of
    [socketToUser] with the same identity are the same connection (and
    [userToSocket], a map, gives an identity one connection). When a
    [join-room] arrives from a connection for an identity that
    [userToSocket] binds to another handle, the handler first runs the
    clean-up: a prior connection that is still live is disconnected, and in
    any case its [socketToUser] entry and the identity's [userToSocket]
    entry are deleted; only then is the new binding written, so that after
    the handler the identity resolves to the new connection alone. *)
Theorem one_connection_per_identity (st : State) :
  reachable st →
  (∀ s1 s2 user1 user2,
     socketToUser st !! s1 = Some user1 →
     socketToUser st !! s2 = Some user2 →
     SocketUser.userEmail user1 = SocketUser.userEmail user2 →
     s1 = s2) ∧
  (∀ socketId roomCode userEmail now existing,
     userToSocket st !! userEmail = Some existing →
     existing ≠ socketId →
     let mid := cleanupExisting socketId userEmail now st in
     let st' := onJoinRoom socketId roomCode userEmail now st in
     st' = enterRoom socketId roomCode userEmail now
             (bindUser socketId roomCode userEmail now mid) ∧
     (existing ∈ sockets st → Disconnect existing ∈ log mid) ∧
     (existing ∉ sockets mid) ∧
     socketToUser mid !! existing = None ∧
     userToSocket mid !! userEmail = None ∧
     (existing ∉ sockets st') ∧
     socketToUser st' !! existing = None ∧
     userToSocket st' !! userEmail = Some socketId ∧
     socketToUser st' !! socketId = Some (SocketUser.mk userEmail roomCode)).
Proof.
  intros Hreach. pose proof (reachable_identity st Hreach) as Hok.
  destruct Hok as (Hids & Hmaps & Hvals). split.
  - intros s1 s2 user1 user2 H1 H2 Hmail.
    destruct (Hmaps s1 user1 H1) as [_ Hb1].
    destruct (Hmaps s2 user2 H2) as [_ Hb2].
    rewrite Hmail, Hb2 in Hb1. by simplify_eq.
  - intros socketId roomCode userEmail now existing Hex Hne mid st'.
    assert (truthy existing && negb (String.eqb existing socketId) = true)
      as Hcond.
    { apply andb_true_iff. split.
      - apply truthy_true. by eapply Hvals.
      - apply negb_true_iff, String.eqb_neq, Hne. }
    set (st1 := if bool_decide (existing ∈ sockets st)
                then disconnectSocket existing now st else st).
    assert (mid = set_userToSocket (λ m, delete userEmail m)
                    (set_socketToUser (λ m, delete existing m) st1)) as Hmid.
    { subst mid st1. unfold cleanupExisting. by rewrite Hex, Hcond. }
    assert (st' = enterRoom socketId roomCode userEmail now
                    (bindUser socketId roomCode userEmail now mid)) as Hst'
      by reflexivity.
    clearbody mid st'.
    assert ((existing ∈ sockets st → Disconnect existing ∈ log st1) ∧
            existing ∉ sockets st1) as [Hlog1 Hdead1].
    { subst st1. case_bool_decide as Hin; [|done].
      unfold disconnectSocket, onDisconnect.
      repeat case_match; simpl; split;
        try (intros _; apply elem_of_app; right; apply list_elem_of_singleton;
             done);
        by intros [_ Hn]%elem_of_difference; apply Hn, elem_of_singleton. }
    assert (sockets st' = sockets mid ∧
            socketToUser st' =
              <[socketId := SocketUser.mk userEmail roomCode]>
                (socketToUser mid) ∧
            userToSocket st' = <[userEmail := socketId]> (userToSocket mid))
      as (Hs' & Hsu' & Hus').
    { rewrite Hst'.
      destruct (enterRoom_identity socketId roomCode userEmail now
                  (bindUser socketId roomCode userEmail now mid))
        as (-> & -> & ->).
      unfold bindUser.
      destruct (updateUserActivity_identity userEmail now
        (set_userToSocket (λ m, <[userEmail := socketId]> m)
           (set_socketToUser
              (λ m, <[socketId := SocketUser.mk userEmail roomCode]> m)
              (set_log (λ l, l ++ [Join socketId roomCode]) mid))))
        as (-> & -> & ->).
      done. }
    split_and!.
    + done.
    + rewrite Hmid. simpl. exact Hlog1.
    + rewrite Hmid. simpl. exact Hdead1.
    + rewrite Hmid. simpl. apply lookup_delete_eq.
    + rewrite Hmid. simpl. apply lookup_delete_eq.
    + rewrite Hs', Hmid. simpl. exact Hdead1.
    + rewrite Hsu', lookup_insert_ne by done.
      rewrite Hmid. simpl. apply lookup_delete_eq.
    + rewrite Hus'. apply lookup_insert_eq.
    + rewrite Hsu'. apply lookup_insert_eq.
Qed.

Lemma one_connection_per_identity_witness :
  let st := run two_sockets initial in
  let mid := cleanupExisting "s2" "a@x.com" 30 st in
  let st' := onJoinRoom "s2" "abc" "a@x.com" 30 st in
  reachable st ∧
  userToSocket st !! "a@x.com" = Some "s1" ∧
  ("s1" ∉ sockets mid) ∧
  socketToUser mid !! "s1" = None ∧
  userToSocket mid !! "a@x.com" = None ∧
  socketToUser st' !! "s1" = None ∧
  userToSocket st' !! "a@x.com" = Some "s2".
Proof.
  intros st mid st'.
  assert (reachable st) as Hreach.
  { apply run_reachable; [constructor|compute_done]. }
  assert (userToSocket st !! "a@x.com" = Some "s1") as Hbound
    by compute_done.
  split; [exact Hreach|]. split; [exact Hbound|].
  destruct (one_connection_per_identity st Hreach) as [_ H].
  destruct (H "s2" "abc" "a@x.com" 30 "s1" Hbound)
    as (_ & _ & Hdead & Hsu & Hus & _ & Hsu' & Hus' & _); [done|].
  by split_and!.
Defined.

(** ** The private-message handler *)

(** C7. In every state the process can reach: when the recipient identity
    has no bound connection the handler only emits an [error] ("Recipient
    not found") to the sender, nothing else is emitted and no other state
    changes; when the recipient is bound to a handle, the handler builds
    one message of type "private" with the server's id and timestamp, emits
    it to the recipient's handle and then to the sender, and changes
    nothing else. *)
Theorem private_message_relay
    (st : State) (socketId message senderEmail recipientEmail : string)
    (now rnd : Z) :
  reachable st →
  let st' :=
    onPrivateMessage socketId message senderEmail recipientEmail now rnd st in
  (userToSocket st !! recipientEmail = None →
     st' =
     set_log
       (λ l, l ++ [Emit (Self socketId) "error"
                     (PError "Recipient not found")])
       st) ∧
  (∀ recipientSocketId,
     userToSocket st !! recipientEmail = Some recipientSocketId →
     let messageObj :=
       PrivateMessage.mk (now, rnd) message senderEmail recipientEmail now
         "private" in
     st' =
     set_log
       (λ l, l ++ [Emit (Others socketId recipientSocketId) "private-message"
                     (PPrivateMessage messageObj);
                   Emit (Self socketId) "private-message"
                     (PPrivateMessage messageObj)])
       st).
Proof.
  intros Hreach. destruct (reachable_identity st Hreach) as (_ & _ & Hvals).
  unfold onPrivateMessage. split.
  - intros ->. reflexivity.
  - intros recipientSocketId Hbound.
    pose proof (Hvals _ _ Hbound) as Hne%truthy_true.
    rewrite Hbound, Hne. unfold emit, set_log. simpl.
    by rewrite <- app_assoc.
Qed.

Lemma private_message_relay_witness :
  let st := run two_sockets initial in
  let offline := onPrivateMessage "s2" "hi" "b@x.com" "c@x.com" 30 1 st in
  let online := onPrivateMessage "s2" "hi" "b@x.com" "a@x.com" 30 1 st in
  let messageObj :=
    PrivateMessage.mk (30, 1) "hi" "b@x.com" "a@x.com" 30 "private" in
  reachable st ∧
  (userToSocket st !! "c@x.com" = None ∧
   log offline =
     log st ++ [Emit (Self "s2") "error" (PError "Recipient not found")]) ∧
  (userToSocket st !! "a@x.com" = Some "s1" ∧
   log online =
     log st ++ [Emit (Others "s2" "s1") "private-message"
                  (PPrivateMessage messageObj);
                Emit (Self "s2") "private-message"
                  (PPrivateMessage messageObj)]).
Proof.
  intros st offline online messageObj.
  assert (reachable st) as Hreach.
  { apply run_reachable; [constructor|compute_done]. }
  assert (userToSocket st !! "c@x.com" = None) as Hoff by compute_done.
  assert (userToSocket st !! "a@x.com" = Some "s1") as Hon by compute_done.
  split; [exact Hreach|]. split; (split; [done|]).
  - subst offline.
    destruct (private_message_relay st "s2" "hi" "b@x.com" "c@x.com" 30 1
                Hreach) as [H _].
    rewrite (H Hoff). reflexivity.
  - subst online.
    destruct (private_message_relay st "s2" "hi" "b@x.com" "a@x.com" 30 1
                Hreach) as [_ H].
    rewrite (H "s1" Hon). reflexivity.
Defined.

(** ** Room objects along a run *)

Section evolution.
Implicit Types (st : State) (flagged : loc → Prop).

Lemma evolves_same_heap flagged st st' :
  heap st' = heap st → evolves flagged st st'.
Proof.
  intros Hheap room this Hroom. exists this. rewrite Hheap.
  split_and!; try done. by right.
Qed.

Lemma evolves_trans flagged st1 st2 st3 :
  evolves flagged st1 st2 → evolves flagged st2 st3 →
  evolves flagged st1 st3.
Proof.
  intros H12 H23 room this Hroom.
  destruct (H12 room this Hroom) as (this2 & Hroom2 & Hc2 & Hi2 & Hf2).
  destruct (H23 room this2 Hroom2) as (this3 & Hroom3 & Hc3 & Hi3 & Hf3).
  exists this3. split_and!; [done|congruence|congruence|].
  destruct Hf2 as [?|Hf2]; [by left|].
  destruct Hf3 as [?|Hf3]; [by left|]. right. congruence.
Qed.

Lemma evolves_store flagged st st' l old new :
  heap st !! l = Some old →
  heap st' = <[l := new]> (heap st) →
  Room.code new = Room.code old →
  Room.id new = Room.id old →
  flagged l ∨ Room.isActive new = Room.isActive old →
  evolves flagged st st'.
Proof.
  intros Hl Hheap Hcode Hid Hflag room this Hroom. rewrite Hheap.
  destruct (decide (room = l)) as [->|Hne].
  - exists new. rewrite list_lookup_insert_eq by by eapply lookup_lt_Some.
    by simplify_eq.
  - exists this. rewrite list_lookup_insert_ne by done.
    split_and!; try done. by right.
Qed.

Lemma evolves_getOrCreate flagged code now st :
  evolves flagged st (getOrCreate code now st).2.
Proof.
  destruct (getOrCreate_cases code now st) as [[_ ->]|(_ & _ & ->)].
  - by apply evolves_same_heap.
  - intros room this Hroom. exists this. simpl.
    rewrite lookup_app_l by by eapply lookup_lt_Some.
    split_and!; try done. by right.
Qed.

Lemma evolves_addParticipantAt flagged room socketId userEmail now st st' :
  addParticipantAt room socketId userEmail now st = Ok st' →
  evolves flagged st st'.
Proof.
  unfold addParticipantAt, Room.addParticipant.
  destruct (heap st !! room) as [this|] eqn:Hroom; [|done].
  destruct (_ <=? _)%nat; [done|]. intros [= <-].
  eapply evolves_store; [exact Hroom|reflexivity|done|done|by right].
Qed.

Lemma evolves_addMessageAt flagged room message senderEmail now rnd st :
  evolves flagged st (addMessageAt room message senderEmail now rnd st).1.
Proof.
  unfold addMessageAt.
  destruct (heap st !! room) as [this|] eqn:Hroom;
    [|by apply evolves_same_heap].
  eapply evolves_store; [exact Hroom|reflexivity|done|done|by right].
Qed.

Lemma evolves_removeParticipantAt room socketId st :
  evolves (λ l, l = room) st (removeParticipantAt room socketId st).1.
Proof.
  unfold removeParticipantAt.
  destruct (heap st !! room) as [this|] eqn:Hroom;
    [|by apply evolves_same_heap].
  eapply evolves_store; [exact Hroom|reflexivity|done|done|by left].
Qed.

Lemma evolves_enterRoom flagged socketId roomCode userEmail now st :
  evolves flagged st (enterRoom socketId roomCode userEmail now st).
Proof.
  unfold enterRoom.
  pose proof (evolves_getOrCreate flagged roomCode now st) as Hcreate.
  destruct (getOrCreate roomCode now st) as [room st1]. simpl in Hcreate.
  destruct (addParticipantAt room socketId userEmail now st1) as [st2|]
    eqn:Hadd.
  - eapply evolves_trans; [exact Hcreate|].
    eapply evolves_trans; [by eapply evolves_addParticipantAt|].
    by apply evolves_same_heap.
  - eapply evolves_trans; [exact Hcreate|]. by apply evolves_same_heap.
Qed.

Lemma heap_onDisconnect socketId now st :
  heap (onDisconnect socketId now st) = heap st.
Proof. unfold onDisconnect. by repeat case_match. Qed.

Lemma heap_cleanupExisting socketId userEmail now st :
  heap (cleanupExisting socketId userEmail now st) = heap st.
Proof.
  unfold cleanupExisting, disconnectSocket.
  repeat case_match; simpl; by rewrite ?heap_onDisconnect.
Qed.

Lemma heap_bindUser socketId roomCode userEmail now st :
  heap (bindUser socketId roomCode userEmail now st) = heap st.
Proof. unfold bindUser, updateUserActivity. by case_match. Qed.

Lemma evolves_graceTimeout socketId roomCode userEmail room st :
  evolves
    (λ l, room = l ∧ userToSocket st !! userEmail = Some socketId)
    st (graceTimeout socketId roomCode userEmail room st).
Proof.
  unfold graceTimeout. case_bool_decide as Hbound;
    [|by apply evolves_same_heap].
  pose proof (evolves_removeParticipantAt room socketId st) as Hrm.
  destruct (removeParticipantAt room socketId st) as [st1 n].
  simpl in *. intros l this Hl.
  destruct (Hrm l this Hl) as (this' & Hl' & Hc & Hi & Hf).
  exists this'. split_and!; try done.
  destruct Hf as [->|Hf]; [by left | by right].
Qed.

(** One step of the event loop. *)
Lemma evolves_handle now ev st :
  evolves (λ room, callsRemove room ev st) st (handle now ev st).
Proof.
  destruct ev; simpl; try by apply evolves_same_heap.
  - unfold onJoinRoom.
    eapply evolves_trans; [|apply evolves_enterRoom].
    apply evolves_same_heap.
    by rewrite heap_bindUser, heap_cleanupExisting.
  - unfold onPing, updateUserActivity. apply evolves_same_heap.
    by case_match.
  - unfold onChatMessage.
    destruct (roomUtils.getRoom roomCode st) as [room|];
      [|by apply evolves_same_heap].
    pose proof (evolves_addMessageAt (λ _, False) room message senderEmail
                  now rnd st) as Hadd.
    destruct (addMessageAt room message senderEmail now rnd st)
      as [st1 [messageObj|]]; simpl in Hadd.
    + eapply evolves_trans; [exact Hadd|]. by apply evolves_same_heap.
    + exact Hadd.
  - unfold onPrivateMessage. apply evolves_same_heap.
    by repeat case_match.
  - unfold onPresence. apply evolves_same_heap. by case_match.
  - apply evolves_same_heap. by rewrite heap_onDisconnect.
  - unfold fireTimer.
    destruct (timers st !! k) as [[due cb]|] eqn:Hk;
      [|by apply evolves_same_heap].
    destruct cb as [| |socketId roomCode userEmail room]; simpl;
      try by apply evolves_same_heap.
    apply (evolves_graceTimeout socketId roomCode userEmail room
             (set_timers (λ ts, delete k ts) st)).
  - unfold joinRoute. apply evolves_getOrCreate.
Qed.
End evolution.

(** ** The registry along a run *)

Section registry.
Implicit Types (st : State) (code : string) (room : loc).

(** What the handlers leave alone in the registry. *)
Lemma rooms_onDisconnect socketId now st :
  rooms (onDisconnect socketId now st) = rooms st.
Proof. unfold onDisconnect. by repeat case_match. Qed.

Lemma rooms_cleanupExisting socketId userEmail now st :
  rooms (cleanupExisting socketId userEmail now st) = rooms st.
Proof.
  unfold cleanupExisting, disconnectSocket.
  repeat case_match; simpl; by rewrite ?rooms_onDisconnect.
Qed.

Lemma rooms_bindUser socketId roomCode userEmail now st :
  rooms (bindUser socketId roomCode userEmail now st) = rooms st.
Proof. unfold bindUser, updateUserActivity. by case_match. Qed.

Lemma rooms_enterRoom socketId roomCode userEmail now st :
  rooms (enterRoom socketId roomCode userEmail now st)
  = rooms (getOrCreate roomCode now st).2.
Proof.
  unfold enterRoom. destruct (getOrCreate roomCode now st) as [room st1].
  unfold addParticipantAt, Room.addParticipant.
  by repeat case_match; simplify_eq.
Qed.

Lemma rooms_graceTimeout socketId roomCode userEmail room st :
  rooms (graceTimeout socketId roomCode userEmail room st) = rooms st.
Proof.
  unfold graceTimeout, removeParticipantAt.
  case_bool_decide; [|done]. by destruct (heap st !! room).
Qed.

Lemma rooms_fireTimer k st : rooms (fireTimer k st) = rooms st.
Proof.
  unfold fireTimer. destruct (timers st !! k) as [[due cb]|]; [|done].
  destruct cb; simpl; try done. by rewrite rooms_graceTimeout.
Qed.

Lemma rooms_onChatMessage message senderEmail roomCode now rnd st :
  rooms (onChatMessage message senderEmail roomCode now rnd st) = rooms st.
Proof.
  unfold onChatMessage, addMessageAt.
  destruct (roomUtils.getRoom roomCode st) as [room|]; [|done].
  by destruct (heap st !! room).
Qed.

(** [getOrCreate] keeps the entries there are and returns the entry of
    the upper-cased code. *)
Lemma getOrCreate_keeps code' now st code room :
  rooms st !! code = Some room →
  rooms (getOrCreate code' now st).2 !! code = Some room.
Proof.
  intros Hin.
  destruct (getOrCreate_cases code' now st) as [[_ ->]|(Hnone & _ & ->)];
    [done|].
  simpl. rewrite lookup_insert_ne; [done|]. intros <-. congruence.
Qed.

Lemma getOrCreate_registered code now st :
  rooms (getOrCreate code now st).2 !! toUpperCase code
  = Some (getOrCreate code now st).1.
Proof.
  destruct (getOrCreate_cases code now st) as [[H ->]|(_ & -> & ->)];
    [done|].
  simpl. apply lookup_insert_eq.
Qed.

(** A step keeps the entry of an object whose flag is true. *)
Lemma handle_keeps_active now ev st code room this :
  rooms st !! code = Some room →
  heap st !! room = Some this →
  Room.isActive this = true →
  rooms (handle now ev st) !! code = Some room.
Proof.
  intros Hin Hroom Hactive. destruct ev; simpl; try done.
  - unfold onJoinRoom. rewrite rooms_enterRoom.
    apply getOrCreate_keeps.
    by rewrite rooms_bindUser, rooms_cleanupExisting.
  - unfold onPing, updateUserActivity. by case_match.
  - by rewrite rooms_onChatMessage.
  - unfold onPrivateMessage. by repeat case_match.
  - unfold onPresence. by case_match.
  - by rewrite rooms_onDisconnect.
  - by rewrite rooms_fireTimer.
  - unfold joinRoute. by apply getOrCreate_keeps.
  - apply map_lookup_filter_Some. split; [done|]. simpl.
    unfold roomUtils.swept. rewrite Hroom, Hactive.
    apply andb_false_r.
Qed.
End registry.

(** ** The janitor and the flag *)

(** C10, as the code has it. (1) A sweep deletes a registry entry only if
    the Room it points to has no member and a false flag, and it changes
    nothing but the registry. (2) A step of the process that turns a Room's
    flag from true to false is a grace continuation calling
    [removeParticipant] on that Room. (3) Hence along any run in which
    [removeParticipant] is never called on it, a registered Room whose flag
    is true stays registered, whatever sweeps occur, and keeps its flag.
    (4) The HTTP join route registers, for a code not yet known, a Room with
    no member and a true flag, to which (3) applies. (5) The call need not
    concern a member: a grace continuation that finds its identity still
    bound clears the flag of the Room it captured whenever no other handle
    is a member, be its own handle a member or not. *)
Theorem active_room_survives_sweeps :
  (∀ st code room,
     rooms st !! code = Some room →
     rooms (roomUtils.cleanupEmptyRooms st) !! code = None →
     ∃ this,
       heap st !! room = Some this ∧
       JSSet.size (Room.participants this) = 0%nat ∧
       Room.isActive this = false) ∧
  (∀ st, heap (roomUtils.cleanupEmptyRooms st) = heap st) ∧
  (∀ now ev st room this this',
     heap st !! room = Some this →
     heap (handle now ev st) !! room = Some this' →
     Room.isActive this = true →
     Room.isActive this' = false →
     callsRemove room ev st) ∧
  (∀ tr st code room this,
     rooms st !! code = Some room →
     heap st !! room = Some this →
     Room.isActive this = true →
     removalFree room tr st →
     rooms (run tr st) !! code = Some room ∧
     ∃ this',
       heap (run tr st) !! room = Some this' ∧ Room.isActive this' = true) ∧
  (∀ st email code now,
     rooms st !! toUpperCase code = None →
     let st' := handle now (HttpJoin email code) st in
     ∃ room,
       rooms st' !! toUpperCase code = Some room ∧
       heap st' !! room = Some (Room.new (toUpperCase code) now) ∧
       membersAt room st' = [] ∧
       Room.isActive (Room.new (toUpperCase code) now) = true) ∧
  (∀ st k due socketId roomCode userEmail room this,
     timers st !! k = Some (due, GraceTimer socketId roomCode userEmail room) →
     userToSocket st !! userEmail = Some socketId →
     heap st !! room = Some this →
     filter (λ id, id ≠ socketId) (Room.participants this) = [] →
     ∃ this',
       heap (fireTimer k st) !! room = Some this' ∧
       Room.participants this' = [] ∧
       Room.isActive this' = false).
Proof.
  split_and!.
  - intros st code room Hin Hgone. unfold roomUtils.cleanupEmptyRooms in Hgone.
    simpl in Hgone.
    destruct (roomUtils.swept st room) eqn:Hswept.
    + unfold roomUtils.swept in Hswept.
      destruct (heap st !! room) as [this|]; [|done].
      apply andb_true_iff in Hswept as [Hsize Hflag].
      exists this. split_and!; [done|by apply Nat.eqb_eq|].
      by apply negb_true_iff.
    + assert (filter (λ kv : string * loc, roomUtils.swept st kv.2 = false)
                (rooms st) !! code = Some room) as Hkept
        by by apply map_lookup_filter_Some.
      congruence.
  - done.
  - intros now ev st room this this' Hroom Hroom' Hactive Hcleared.
    destruct (evolves_handle now ev st room this Hroom)
      as (this2 & Hroom2 & _ & _ & [Hcall|Hsame]); [done|].
    congruence.
  - induction tr as [|[now ev] tr IH];
      intros st code room this Hin Hroom Hactive Hfree; simpl.
    + split; [done|]. by exists this.
    + destruct Hfree as [Hnocall Hfree].
      destruct (evolves_handle now ev st room this Hroom)
        as (this1 & Hroom1 & _ & _ & [Hcall|Hsame]); [done|].
      apply (IH _ code room this1); [|done|congruence|done].
      by eapply handle_keeps_active.
  - intros st email code now Hnew st'. subst st'. simpl. unfold joinRoute.
    destruct (getOrCreate_cases (toUpperCase code) now st)
      as [[Hsome _]|(_ & _ & ->)].
    { rewrite toUpperCase_idem in Hsome. congruence. }
    rewrite toUpperCase_idem. exists (length (heap st)).
    set (st1 := set_rooms _ _).
    assert (heap st1 !! length (heap st)
            = Some (Room.new (toUpperCase code) now)) as Hnth
      by by apply list_lookup_middle.
    split_and!; [apply lookup_insert_eq|done| |done].
    unfold membersAt. by rewrite Hnth.
  - intros st k due socketId roomCode userEmail room this Htimer Hbound Hroom
      Hnone.
    unfold fireTimer. rewrite Htimer. simpl.
    unfold graceTimeout. simpl. rewrite bool_decide_eq_true_2 by done.
    unfold removeParticipantAt. simpl. rewrite Hroom. simpl.
    rewrite list_lookup_insert_eq by by eapply lookup_lt_Some.
    eexists. split; [reflexivity|]. simpl. unfold JSSet.delete.
    by rewrite Hnone.
Qed.

Lemma active_room_survives_sweeps_witness :
  let st0 := initial in
  let tr := page_load_then_sweeps in
  admissible tr st0 ∧
  rooms st0 !! "ABC" = None ∧
  rooms (run tr st0) !! "ABC" = Some 0%nat ∧
  membersAt 0%nat (run tr st0) = [] ∧
  ∃ this',
    heap (run tr st0) !! 0%nat = Some this' ∧ Room.isActive this' = true.
Proof.
  intros st0 tr. split; [compute_done|]. split; [done|].
  destruct active_room_survives_sweeps as (_ & _ & _ & Hkeep & Hnew & _).
  destruct (Hnew st0 "a@x.com" "abc" 0) as (room & Hreg & Hobj & _ & Hflag);
    [done|].
  assert (room = 0%nat) as ->.
  { assert (rooms (handle 0 (HttpJoin "a@x.com" "abc") st0) !! "ABC"
            = Some 0%nat) as H0 by compute_done.
    change (toUpperCase "abc") with "ABC" in Hreg. congruence. }
  destruct (Hkeep (tail tr) (handle 0 (HttpJoin "a@x.com" "abc") st0)
              "ABC" 0%nat _ Hreg Hobj Hflag) as [Hin Hobj'].
  { compute_done. }
  split; [exact Hin|]. split; [compute_done|]. exact Hobj'.
Defined.

(** C10 as stated fails. Room "abc" fills up, a socket "late" is refused
    (the handler has bound it to the code by then), the Room empties and is
    swept. A page load of the join route then makes a new Room for the
    code. Nobody ever joins it: its member set is empty in every state that
    follows, so no participant is ever removed from it. Yet when "late"
    disconnects, the grace continuation calls [removeParticipant] on it,
    the flag turns false, and the next sweep deletes it. *)
Lemma unjoined_room_is_swept :
  let st0 := run full_room_emptied initial in
  let st1 := handle 300100 (HttpJoin "z@x.com" "abc") st0 in
  let st2 := run late_socket_leaves st1 in
  admissible
    (full_room_emptied ++ (300100, HttpJoin "z@x.com" "abc")
                          :: late_socket_leaves)
    initial ∧
  emitted "error" (log st0) = [(Self "late", PError "Room is full")] ∧
  rooms st0 !! "ABC" = None ∧
  rooms st1 !! "ABC" = Some 1%nat ∧
  heap st1 !! 1%nat = Some (Room.new "ABC" 300100) ∧
  Forall (λ st, membersAt 1%nat st = []) (states late_socket_leaves st1) ∧
  heap st2 !! 1%nat = Some (Room.mk "ABC" "ABC" [] 300100 [] false 50) ∧
  rooms st2 !! "ABC" = None.
Proof.
  intros st0 st1 st2. split; [compute_done|].
  split_and!; try (vm_compute; reflexivity). compute_done.
Qed.

(** ** References along a run *)

Section references.
Implicit Types (st : State) (ts : list (Z * Timer)).

Lemma evolves_length flagged st st' :
  evolves flagged st st' → (length (heap st) ≤ length (heap st'))%nat.
Proof.
  intros Hev. destruct (decide (length (heap st) ≤ length (heap st'))%nat)
    as [|Hgt]; [done|].
  destruct (lookup_lt_is_Some_2 (heap st) (length (heap st')))
    as [this Hroom]; [lia|].
  destruct (Hev _ _ Hroom) as (this' & Hroom' & _).
  apply lookup_lt_Some in Hroom'. lia.
Qed.

Lemma registry_ok_evolves flagged st st' :
  registry_ok st →
  (∀ code room, rooms st' !! code = Some room →
                rooms st !! code = Some room) →
  evolves flagged st st' →
  registry_ok st'.
Proof.
  intros Hok Hsub Hev code room Hin.
  destruct (Hok code room (Hsub _ _ Hin)) as (this & Hroom & Hc & Hi & Hu).
  destruct (Hev room this Hroom) as (this' & Hroom' & Hc' & Hi' & _).
  exists this'. split_and!; [done|congruence|congruence|done].
Qed.

Lemma registry_ok_getOrCreate code now st :
  registry_ok st → registry_ok (getOrCreate code now st).2.
Proof.
  intros Hok.
  destruct (getOrCreate_cases code now st) as [[_ ->]|(Hnone & _ & ->)];
    [done|].
  intros code' room. simpl.
  intros [[<- <-]|[Hne Hin]]%lookup_insert_Some.
  - exists (Room.new (toUpperCase code) now).
    split_and!; [by apply list_lookup_middle| | |];
      simpl; by rewrite ?toUpperCase_idem.
  - destruct (Hok code' room Hin) as (this & Hroom & Hrest).
    exists this. split; [|done].
    rewrite lookup_app_l; [done|]. by eapply lookup_lt_Some.
Qed.

Lemma evolves_enterRoom_created flagged socketId roomCode userEmail now st :
  evolves flagged (getOrCreate roomCode now st).2
    (enterRoom socketId roomCode userEmail now st).
Proof.
  unfold enterRoom. destruct (getOrCreate roomCode now st) as [room st1].
  simpl.
  destruct (addParticipantAt room socketId userEmail now st1) as [st2|]
    eqn:Hadd.
  - eapply evolves_trans; [by eapply evolves_addParticipantAt|].
    by apply evolves_same_heap.
  - by apply evolves_same_heap.
Qed.

Lemma timers_ok_mono ts n m : (n ≤ m)%nat → timers_ok ts n → timers_ok ts m.
Proof.
  intros Hle Hok due socketId roomCode userEmail room Hin.
  specialize (Hok _ _ _ _ _ Hin). lia.
Qed.

Lemma timers_ok_snoc ts n due cb :
  timers_ok ts n →
  (∀ socketId roomCode userEmail room,
     cb = GraceTimer socketId roomCode userEmail room → (room < n)%nat) →
  timers_ok (ts ++ [(due, cb)]) n.
Proof.
  intros Hok Hcb due' socketId roomCode userEmail room
    [Hin|Hin%list_elem_of_singleton]%elem_of_app.
  - by eapply Hok.
  - simplify_eq. by eapply Hcb.
Qed.

Lemma timers_ok_delete ts n k : timers_ok ts n → timers_ok (delete k ts) n.
Proof.
  intros Hok due socketId roomCode userEmail room Hin.
  eapply Hok, list_elem_of_delete_inv, Hin.
Qed.

Lemma timers_onDisconnect socketId now st :
  registry_ok st →
  timers_ok (timers st) (length (heap st)) →
  timers_ok (timers (onDisconnect socketId now st)) (length (heap st)).
Proof.
  intros Hreg Hok. unfold onDisconnect.
  destruct (socketToUser st !! socketId) as [user|]; [|done].
  destruct (roomUtils.getRoom _ st) as [room|] eqn:Hget; [|done].
  simpl. apply timers_ok_snoc; [done|].
  intros ? ? ? ? [= <- <- <- <-].
  destruct (Hreg _ _ Hget) as (this & Hroom & _).
  by eapply lookup_lt_Some.
Qed.

Lemma timers_cleanupExisting socketId userEmail now st :
  registry_ok st →
  timers_ok (timers st) (length (heap st)) →
  timers_ok (timers (cleanupExisting socketId userEmail now st))
    (length (heap st)).
Proof.
  intros Hreg Hok. unfold cleanupExisting.
  destruct (userToSocket st !! userEmail) as [existing|]; [|done].
  destruct (_ && _); [|done]. simpl.
  case_bool_decide; [|done]. unfold disconnectSocket.
  by apply (timers_onDisconnect existing now
              (set_sockets (λ s, s ∖ {[existing]})
                 (set_log (λ l, l ++ [Disconnect existing]) st))).
Qed.

Lemma timers_bindUser socketId roomCode userEmail now st :
  timers (bindUser socketId roomCode userEmail now st) = timers st.
Proof. unfold bindUser, updateUserActivity. by case_match. Qed.

Lemma timers_getOrCreate code now st :
  timers (getOrCreate code now st).2 = timers st.
Proof.
  by destruct (getOrCreate_cases code now st) as [[_ ->]|(_ & _ & ->)].
Qed.

Lemma timers_enterRoom socketId roomCode userEmail now st n :
  timers_ok (timers st) n →
  timers_ok (timers (enterRoom socketId roomCode userEmail now st)) n.
Proof.
  intros Hok. unfold enterRoom.
  pose proof (timers_getOrCreate roomCode now st) as Hts.
  destruct (getOrCreate roomCode now st) as [room st1]. simpl in Hts.
  unfold addParticipantAt, Room.addParticipant.
  destruct (heap st1 !! room) as [this|]; [|by simpl; rewrite Hts].
  destruct (_ <=? _)%nat; simpl; rewrite Hts; [done|].
  by repeat apply timers_ok_snoc.
Qed.

Lemma timers_graceTimeout socketId roomCode userEmail room st :
  timers (graceTimeout socketId roomCode userEmail room st) = timers st.
Proof.
  unfold graceTimeout, removeParticipantAt.
  case_bool_decide; [|done]. by destruct (heap st !! room).
Qed.

Lemma timers_handle now ev st :
  refs_ok st →
  timers_ok (timers (handle now ev st)) (length (heap st)).
Proof.
  intros [Hreg Hok]. destruct ev; simpl; try done.
  - unfold onJoinRoom. apply timers_enterRoom.
    rewrite timers_bindUser. by apply timers_cleanupExisting.
  - unfold onPing, updateUserActivity. by case_match.
  - unfold onChatMessage, addMessageAt.
    destruct (roomUtils.getRoom roomCode st) as [room|]; [|done].
    by destruct (heap st !! room).
  - unfold onPrivateMessage. by repeat case_match.
  - unfold onPresence. by case_match.
  - by apply (timers_onDisconnect socketId now
                (set_sockets (λ s, s ∖ {[socketId]}) st)).
  - unfold fireTimer. destruct (timers st !! k) as [[due cb]|]; [|done].
    destruct cb; simpl; rewrite ?timers_graceTimeout; simpl;
      by apply timers_ok_delete.
  - unfold joinRoute. by rewrite timers_getOrCreate.
Qed.

Lemma registry_handle now ev st :
  registry_ok st → registry_ok (handle now ev st).
Proof.
  intros Hreg.
  assert (∀ st', rooms st' = rooms st → heap st' = heap st →
                 registry_ok st') as Hsame.
  { intros st' Hr Hh. eapply registry_ok_evolves; [exact Hreg| |].
    - by rewrite Hr.
    - by apply (evolves_same_heap (λ _, False)). }
  destruct ev.
  - by apply Hsame.
  - simpl. unfold onJoinRoom.
    eapply (registry_ok_evolves (λ _, False));
      [|by rewrite rooms_enterRoom|apply evolves_enterRoom_created].
    apply registry_ok_getOrCreate, Hsame.
    + by rewrite rooms_bindUser, rooms_cleanupExisting.
    + by rewrite heap_bindUser, heap_cleanupExisting.
  - eapply registry_ok_evolves; [exact Hreg| |apply evolves_handle].
    simpl. unfold onPing, updateUserActivity. by case_match.
  - by apply Hsame.
  - eapply registry_ok_evolves; [exact Hreg| |apply evolves_handle].
    simpl. by rewrite rooms_onChatMessage.
  - eapply registry_ok_evolves; [exact Hreg| |apply evolves_handle].
    simpl. unfold onPrivateMessage. by repeat case_match.
  - eapply registry_ok_evolves; [exact Hreg| |apply evolves_handle].
    simpl. unfold onPresence. by case_match.
  - eapply registry_ok_evolves; [exact Hreg| |apply evolves_handle].
    simpl. by rewrite rooms_onDisconnect.
  - eapply registry_ok_evolves; [exact Hreg| |apply evolves_handle].
    simpl. by rewrite rooms_fireTimer.
  - simpl. unfold joinRoute. by apply registry_ok_getOrCreate.
  - eapply registry_ok_evolves; [exact Hreg| |apply evolves_handle].
    simpl. by intros code room [Hin _]%map_lookup_filter_Some.
Qed.

(** Locations are never freed. *)
Lemma reachable_refs_valid st : reachable st → refs_ok st.
Proof.
  induction 1 as [|now ev st _ IH Hen].
  - split; [by intros code room|].
    intros due socketId roomCode userEmail room Hin.
    by apply elem_of_nil in Hin.
  - split; [by apply registry_handle, IH|].
    eapply timers_ok_mono; [|by apply timers_handle].
    eapply evolves_length, evolves_handle.
Qed.
End references.

(** ** The grace period elapses *)



(** ** Get-or-create *)

(** C6. In every state the process can reach, get-then-create for a code
    returns a Room [room] and a state [st1] such that asking again, by
    get-then-create or by [createRoom] alone, returns the same Room and
    leaves [st1] as it is (no second object is made; the first call made at
    most one), and [createRoom] alone on the first state gives the same
    result. So does asking with any code that differs from the first only
    in letter case (character by character the same, or a letter and its
    capital) and, more generally, with any code that has the same
    upper-case form. The Room is registered under the upper-cased code and
    under no other key; that is its stored code, and it is upper case:
    none of its characters is a letter that has a capital. *)
Theorem getOrCreate_idempotent (st : State) (code : string) (now now' : Z) :
  reachable st →
  let room := (getOrCreate code now st).1 in
  let st1 := (getOrCreate code now st).2 in
  getOrCreate code now' st1 = (room, st1) ∧
  roomUtils.createRoom code now' st1 = (room, st1) ∧
  roomUtils.createRoom code now st = (room, st1) ∧
  (∀ code',
     differOnlyInCase code code' →
     toUpperCase code' = toUpperCase code ∧
     getOrCreate code' now' st1 = (room, st1) ∧
     roomUtils.createRoom code' now' st1 = (room, st1)) ∧
  (∀ code',
     toUpperCase code' = toUpperCase code →
     getOrCreate code' now' st1 = (room, st1) ∧
     roomUtils.createRoom code' now' st1 = (room, st1)) ∧
  (length (heap st1) ≤ S (length (heap st)))%nat ∧
  rooms st1 !! toUpperCase code = Some room ∧
  (∀ key, rooms st1 !! key = Some room → key = toUpperCase code) ∧
  ∃ this,
    heap st1 !! room = Some this ∧
    Room.code this = toUpperCase code ∧
    toUpperCase (Room.code this) = Room.code this ∧
    is_upper (Room.code this).
Proof.
  intros Hreach room st1.
  pose proof (getOrCreate_registered code now st) as Hreg.
  fold room st1 in Hreg.
  destruct (reachable_refs_valid st Hreach) as [Hok _].
  pose proof (registry_ok_getOrCreate code now st Hok) as Hok1.
  fold st1 in Hok1.
  assert (∀ c t, toUpperCase c = toUpperCase code →
                 getOrCreate c t st1 = (room, st1) ∧
                 roomUtils.createRoom c t st1 = (room, st1)) as Hagain.
  { intros c t Hc.
    unfold getOrCreate, roomUtils.getRoom, roomUtils.createRoom.
    by rewrite Hc, Hreg. }
  destruct (Hok1 _ _ Hreg) as (this & Hroom & Hc & _ & Hup).
  split_and!.
  - by apply Hagain.
  - by apply Hagain.
  - subst room st1. unfold getOrCreate, roomUtils.getRoom.
    destruct (rooms st !! toUpperCase code) as [r|] eqn:E.
    + unfold roomUtils.createRoom. by rewrite E.
    + by destruct (roomUtils.createRoom code now st).
  - intros code' Hcase%differOnlyInCase_toUpperCase.
    split; [done|]. by apply Hagain.
  - exact (λ code', Hagain code' now').
  - subst st1.
    destruct (getOrCreate_cases code now st) as [[_ ->]|(_ & _ & ->)];
      simpl; [lia|].
    rewrite length_app. simpl. lia.
  - done.
  - intros key Hkey.
    destruct (Hok1 _ _ Hkey) as (this' & Hroom' & Hc' & _).
    congruence.
  - exists this. split_and!; [done|done|by rewrite Hc|].
    rewrite Hc. apply toUpperCase_is_upper.
Qed.

Lemma getOrCreate_idempotent_witness :
  (let room := (getOrCreate "abc" 0 initial).1 in
   let st1 := (getOrCreate "abc" 0 initial).2 in
   differOnlyInCase "abc" "AbC" ∧
   getOrCreate "AbC" 5 st1 = (room, st1) ∧
   rooms st1 !! "ABC" = Some room) ∧
  (let room := (getOrCreate "é1" 0 initial).1 in
   let st1 := (getOrCreate "é1" 0 initial).2 in
   differOnlyInCase "é1" "É1" ∧
   getOrCreate "É1" 5 st1 = (room, st1) ∧
   rooms st1 !! "É1" = Some room).
Proof.
  split; intros room st1.
  - assert (differOnlyInCase "abc" "AbC") as Hcase
      by (unfold differOnlyInCase; repeat constructor).
    destruct (getOrCreate_idempotent initial "abc" 0 5)
      as (_ & _ & _ & H & _ & _ & Hreg & _); [constructor|].
    destruct (H "AbC" Hcase) as (_ & Hget & _).
    split; [exact Hcase|]. split; [exact Hget|exact Hreg].
  - assert (differOnlyInCase "é1" "É1") as Hcase
      by (unfold differOnlyInCase; repeat constructor).
    destruct (getOrCreate_idempotent initial "é1" 0 5)
      as (_ & _ & _ & H & _ & _ & Hreg & _); [constructor|].
    destruct (H "É1" Hcase) as (_ & Hget & _).
    split; [exact Hcase|]. split; [exact Hget|exact Hreg].
Defined.

(** * Further properties of the Room class *)

Lemma slice_last_short {A} n (l : list A) :
  (length l ≤ n)%nat → slice_last n l = l.
Proof.
  intros Hle. unfold slice_last.
  replace (length l - n)%nat with 0%nat by lia. apply drop_0.
Qed.

Lemma slice_last_app {A} n (l k : list A) :
  slice_last n (slice_last n l ++ k) = slice_last n (l ++ k).
Proof.
  destruct (decide (length l ≤ n)%nat) as [Hle|Hgt].
  - by rewrite (slice_last_short n l).
  - unfold slice_last at 1 3. rewrite !length_app, slice_last_length.
    unfold slice_last.
    rewrite <- (drop_app_le l k (length l - n)) by lia.
    rewrite drop_drop. f_equal. lia.
Qed.

Lemma addMessage_messages message senderEmail now rnd this :
  Room.messages (Room.addMessage message senderEmail now rnd this).1 =
  slice_last 100
    (Room.messages this ++ [Message.mk (now, rnd) message senderEmail now]).
Proof.
  simpl. case_match eqn:Hgt; [done|].
  apply Nat.ltb_ge in Hgt. by rewrite slice_last_short.
Qed.

(** X1. Posting any number of chat messages to a Room whose history is
    within its bound leaves exactly the last 100 of the old history
    followed by the new messages, in posting order; members, flag and
    code are untouched. *)
Theorem postAll_keeps_last_100
    (posts : list (string * string * Z * Z)) (this : Room.t) :
  (length (Room.messages this) ≤ 100)%nat →
  Room.messages (postAll posts this) =
    slice_last 100 (Room.messages this ++ (messageOf <$> posts)) ∧
  Room.participants (postAll posts this) = Room.participants this ∧
  Room.isActive (postAll posts this) = Room.isActive this ∧
  Room.code (postAll posts this) = Room.code this.
Proof.
  revert this.
  induction posts as [|[[[message senderEmail] now] rnd] posts IH];
    intros this Hlen.
  - simpl. by rewrite app_nil_r, slice_last_short.
  - unfold postAll in *. cbn [foldl]. cbn [fst snd].
    destruct (IH (Room.addMessage message senderEmail now rnd this).1)
      as (-> & -> & -> & ->).
    { rewrite addMessage_messages, slice_last_length. lia. }
    split; [|done]. rewrite addMessage_messages, slice_last_app.
    by rewrite <- app_assoc.
Qed.

Lemma postAll_keeps_last_100_witness :
  let this := Room.mk "ABC" "ABC" [] 0 hundred_messages true 50 in
  let posts := [("one", "a@x.com", 500, 1); ("two", "b@x.com", 501, 2)] in
  (length (Room.messages this) ≤ 100)%nat ∧
  Room.messages (postAll posts this) =
    drop 2 hundred_messages ++ (messageOf <$> posts).
Proof.
  intros this posts. split; [simpl; lia|].
  destruct (postAll_keeps_last_100 posts this) as [-> _]; [simpl; lia|].
  reflexivity.
Defined.

Lemma JSSet_delete_add_absent x s :
  x ∉ s → JSSet.delete x (JSSet.add x s) = s.
Proof.
  intros Hx. unfold JSSet.add, JSSet.has.
  rewrite bool_decide_eq_false_2 by done.
  unfold JSSet.delete. rewrite filter_app.
  fold (JSSet.delete x s). rewrite JSSet_delete_absent by done.
  rewrite filter_cons_False by (intros H; by apply H).
  by rewrite filter_nil, app_nil_r.
Qed.

(** X2. Round trip: in a Room below capacity, adding a handle that is
    neither a member nor in the [participants] map and then removing it
    gives back the member set and the map, and returns the old size; the
    Room is as before except that its flag is cleared when it had no
    member. *)
Theorem add_then_remove_restores
    (this : Room.t) (ps : gmap string Participant.t)
    (socketId userEmail : string) (now : Z) :
  socketId ∉ Room.participants this →
  ps !! socketId = None →
  (JSSet.size (Room.participants this) < Room.maxParticipants this)%nat →
  ∃ this1 ps1,
    Room.addParticipant socketId userEmail now this ps = Ok (this1, ps1) ∧
    Room.removeParticipant socketId this1 ps1 =
    (Room.mk (Room.id this) (Room.code this) (Room.participants this)
       (Room.createdAt this) (Room.messages this)
       (if (JSSet.size (Room.participants this) =? 0)%nat then false
        else Room.isActive this)
       (Room.maxParticipants this),
     ps, JSSet.size (Room.participants this)).
Proof.
  intros Habsent Hnone Hroom. unfold Room.addParticipant.
  destruct (_ <=? _)%nat eqn:Hle; [apply Nat.leb_le in Hle; lia|].
  eexists _, _. split; [reflexivity|].
  unfold Room.removeParticipant. simpl.
  rewrite JSSet_delete_add_absent by done.
  by rewrite delete_insert_id.
Qed.

Lemma add_then_remove_restores_witness :
  let this := Room.mk "ABC" "ABC" ["s1"] 0 [] true 50 in
  ("s2" ∉ Room.participants this) ∧
  ∃ this1 ps1,
    Room.addParticipant "s2" "b@x.com" 5 this ∅ = Ok (this1, ps1) ∧
    Room.removeParticipant "s2" this1 ps1 = (this, ∅, 1%nat).
Proof.
  intros this.
  assert ("s2" ∉ Room.participants this) as Habsent.
  { simpl. rewrite not_elem_of_cons. split; [done|apply not_elem_of_nil]. }
  split; [exact Habsent|].
  destruct (add_then_remove_restores this ∅ "s2" "b@x.com" 5)
    as (this1 & ps1 & Hadd & Hrm); [done|done|simpl; lia|].
  by exists this1, ps1.
Defined.

(** X3. Adding a handle that is already a member of a Room below capacity
    leaves the Room object exactly as it was (no second entry, same size)
    and overwrites the handle's entry of the [participants] map with the
    new identity and join time. *)
Theorem addParticipant_again
    (this : Room.t) (ps : gmap string Participant.t)
    (socketId userEmail : string) (now : Z) :
  socketId ∈ Room.participants this →
  (JSSet.size (Room.participants this) < Room.maxParticipants this)%nat →
  Room.addParticipant socketId userEmail now this ps =
  Ok (this, <[socketId := Participant.mk userEmail (Room.code this) now]> ps).
Proof.
  intros Hin Hroom. unfold Room.addParticipant.
  destruct (_ <=? _)%nat eqn:Hle; [apply Nat.leb_le in Hle; lia|].
  unfold JSSet.add, JSSet.has. rewrite bool_decide_eq_true_2 by done.
  by destruct this.
Qed.

Lemma addParticipant_again_witness :
  let this := Room.mk "ABC" "ABC" ["s1"; "s2"] 0 [] true 50 in
  let ps : gmap string Participant.t :=
    {[ "s1" := Participant.mk "a@x.com" "ABC" 0 ]} in
  ("s1" ∈ Room.participants this) ∧
  Room.addParticipant "s1" "other@x.com" 7 this ps =
  Ok (this, <[ "s1" := Participant.mk "other@x.com" "ABC" 7 ]> ps).
Proof.
  intros this ps.
  assert ("s1" ∈ Room.participants this) as Hin
    by (simpl; apply elem_of_cons; by left).
  split; [exact Hin|].
  apply (addParticipant_again this ps "s1" "other@x.com" 7 Hin).
  simpl. lia.
Defined.

Lemma length_filter_remove_one (x : string) (l : list string) :
  NoDup l → x ∈ l → S (length (filter (λ y, y ≠ x) l)) = length l.
Proof.
  induction 1 as [|y l Hy Hnd IH]; intros Hin; [by apply elem_of_nil in Hin|].
  apply elem_of_cons in Hin as [->|Hin].
  - rewrite filter_cons_False by (intros H; by apply H).
    fold (JSSet.delete y l). by rewrite JSSet_delete_absent.
  - rewrite filter_cons_True by (intros ->; done). simpl.
    by rewrite IH.
Qed.

(** X4. Removing a member of a Room with distinct members returns the old
    size less one, deletes the member's entry of the [participants] map,
    keeps every other member (in the same order), and clears the flag
    exactly when the member was the only one. *)
Theorem removeParticipant_member
    (this : Room.t) (ps : gmap string Participant.t) (socketId : string) :
  NoDup (Room.participants this) →
  socketId ∈ Room.participants this →
  let out := Room.removeParticipant socketId this ps in
  S out.2 = JSSet.size (Room.participants this) ∧
  out.1.2 = delete socketId ps ∧
  Room.participants out.1.1 =
    filter (λ y, y ≠ socketId) (Room.participants this) ∧
  (∀ y, y ∈ Room.participants out.1.1 ↔
        y ≠ socketId ∧ y ∈ Room.participants this) ∧
  Room.isActive out.1.1 =
    (if (JSSet.size (Room.participants this) =? 1)%nat then false
     else Room.isActive this).
Proof.
  intros Hnd Hin. simpl.
  pose proof (length_filter_remove_one socketId _ Hnd Hin) as Hlen.
  unfold JSSet.size, JSSet.delete in *. split_and!; try done.
  - intros y. by rewrite list_elem_of_filter.
  - rewrite <- Hlen. by destruct (length (filter _ _)).
Qed.

Lemma removeParticipant_member_witness :
  let this := Room.mk "ABC" "ABC" ["s1"; "s2"; "s3"] 0 [] true 50 in
  let out := Room.removeParticipant "s2" this ∅ in
  NoDup (Room.participants this) ∧
  out.2 = 2%nat ∧ Room.participants out.1.1 = ["s1"; "s3"].
Proof.
  intros this out.
  assert (NoDup (Room.participants this)) as Hnd.
  { simpl. apply (bool_decide_unpack _). reflexivity. }
  assert ("s2" ∈ Room.participants this) as Hin.
  { simpl. apply (bool_decide_unpack _). reflexivity. }
  split; [exact Hnd|].
  destruct (removeParticipant_member this ∅ "s2" Hnd Hin)
    as (Hn & _ & Hmembers & _).
  fold out in Hn, Hmembers. split; [|by rewrite Hmembers].
  apply Nat.succ_inj. exact Hn.
Defined.

(** * The model as the process uses it *)

Section model_steps.
Implicit Types (st : State) (m : list Room.t * gmap string Participant.t).

Lemma model_step_fields st st' :
  heap st' = heap st → participants st' = participants st →
  model_step (heap st, participants st) (heap st', participants st').
Proof. intros -> ->. constructor. Qed.

Lemma model_step_getOrCreate code now st :
  model_step (heap st, participants st)
    (heap (getOrCreate code now st).2, participants (getOrCreate code now st).2).
Proof.
  destruct (getOrCreate_cases code now st) as [[_ ->]|(_ & _ & ->)];
    simpl; constructor.
Qed.

Lemma model_step_addParticipantAt room socketId userEmail now st st' :
  addParticipantAt room socketId userEmail now st = Ok st' →
  model_step (heap st, participants st) (heap st', participants st').
Proof.
  unfold addParticipantAt.
  destruct (heap st !! room) as [this|] eqn:Hroom; [|done].
  destruct (Room.addParticipant _ _ _ _ _) as [[this' ps']|] eqn:Hadd;
    [|done].
  intros [= <-]. simpl.
  pose proof (model_call (heap st) (participants st) room this
                (CallAdd socketId userEmail now) Hroom) as Hstep.
  simpl in Hstep. by rewrite Hadd in Hstep.
Qed.

Lemma model_step_removeParticipantAt room socketId st :
  model_step (heap st, participants st)
    (heap (removeParticipantAt room socketId st).1,
     participants (removeParticipantAt room socketId st).1).
Proof.
  unfold removeParticipantAt.
  destruct (heap st !! room) as [this|] eqn:Hroom; [|constructor].
  exact (model_call (heap st) (participants st) room this
           (CallRemove socketId) Hroom).
Qed.

Lemma model_step_addMessageAt room message senderEmail now rnd st :
  model_step (heap st, participants st)
    (heap (addMessageAt room message senderEmail now rnd st).1,
     participants (addMessageAt room message senderEmail now rnd st).1).
Proof.
  unfold addMessageAt.
  destruct (heap st !! room) as [this|] eqn:Hroom; [|constructor].
  exact (model_call (heap st) (participants st) room this
           (CallMessage message senderEmail now rnd) Hroom).
Qed.

Lemma participants_onDisconnect socketId now st :
  participants (onDisconnect socketId now st) = participants st.
Proof. unfold onDisconnect. by repeat case_match. Qed.

Lemma participants_cleanupExisting socketId userEmail now st :
  participants (cleanupExisting socketId userEmail now st) = participants st.
Proof.
  unfold cleanupExisting, disconnectSocket.
  repeat case_match; simpl; by rewrite ?participants_onDisconnect.
Qed.

Lemma participants_bindUser socketId roomCode userEmail now st :
  participants (bindUser socketId roomCode userEmail now st) = participants st.
Proof. unfold bindUser, updateUserActivity. by case_match. Qed.

Lemma model_step_enterRoom socketId roomCode userEmail now st :
  model_step (heap st, participants st)
    (heap (enterRoom socketId roomCode userEmail now st),
     participants (enterRoom socketId roomCode userEmail now st)).
Proof.
  unfold enterRoom.
  pose proof (model_step_getOrCreate roomCode now st) as Hcreate.
  destruct (getOrCreate roomCode now st) as [room st1]. simpl in Hcreate.
  eapply model_then; [exact Hcreate|].
  destruct (addParticipantAt room socketId userEmail now st1) as [st2|]
    eqn:Hadd; [|constructor].
  eapply model_then; [by eapply model_step_addParticipantAt|].
  constructor.
Qed.

Lemma model_step_graceTimeout socketId roomCode userEmail room st :
  model_step (heap st, participants st)
    (heap (graceTimeout socketId roomCode userEmail room st),
     participants (graceTimeout socketId roomCode userEmail room st)).
Proof.
  unfold graceTimeout. case_bool_decide; [|constructor].
  pose proof (model_step_removeParticipantAt room socketId st) as Hrm.
  by destruct (removeParticipantAt room socketId st) as [st1 n].
Qed.

(** Every step of the event loop touches the Room objects and the
    [participants] map through the Room class only. *)
Lemma model_step_handle now ev st :
  model_step (heap st, participants st)
    (heap (handle now ev st), participants (handle now ev st)).
Proof.
  destruct ev; simpl; try constructor.
  - unfold onJoinRoom.
    eapply model_then; [|apply model_step_enterRoom].
    apply model_step_fields.
    + by rewrite heap_bindUser, heap_cleanupExisting.
    + by rewrite participants_bindUser, participants_cleanupExisting.
  - apply model_step_fields;
      unfold onPing, updateUserActivity; by case_match.
  - unfold onChatMessage.
    destruct (roomUtils.getRoom roomCode st) as [room|]; [|constructor].
    pose proof (model_step_addMessageAt room message senderEmail now rnd st)
      as Hadd.
    by destruct (addMessageAt room message senderEmail now rnd st)
      as [st1 [messageObj|]].
  - apply model_step_fields; unfold onPrivateMessage; by repeat case_match.
  - apply model_step_fields; unfold onPresence; by case_match.
  - apply model_step_fields;
      by rewrite ?heap_onDisconnect, ?participants_onDisconnect.
  - unfold fireTimer. destruct (timers st !! k) as [[due cb]|]; [|constructor].
    destruct cb; simpl; try constructor.
    apply (model_step_graceTimeout _ _ _ _ (set_timers (λ ts, delete k ts) st)).
  - unfold joinRoute. apply model_step_getOrCreate.
Qed.

Lemma room_ok_applyOp op (s : Room.t * gmap string Participant.t) :
  room_ok s.1 → room_ok (applyOp op s).1.
Proof.
  intros (Hnd & Hsize & Hcap & Hmsgs).
  destruct op as [socketId userEmail now|socketId|message senderEmail now rnd].
  - simpl. unfold Room.addParticipant. rewrite Hcap.
    destruct (50 <=? _)%nat eqn:Hle; [done|]. apply Nat.leb_gt in Hle.
    split_and!; simpl; try done.
    + by apply JSSet_NoDup_add.
    + rewrite JSSet_size_add. destruct (JSSet.has _ _); lia.
  - split_and!; simpl; try done.
    + by apply NoDup_filter.
    + pose proof (JSSet_size_delete socketId (Room.participants s.1)). lia.
  - split_and!; try done.
    cbn [applyOp fst]. rewrite addMessage_messages, slice_last_length. lia.
Qed.

Lemma model_step_room_ok m m' :
  model_step m m' → Forall room_ok m.1 → Forall room_ok m'.1.
Proof.
  induction 1 as [| | h ps code now | h ps room this op Hroom]; simpl; auto.
  - intros Hall. apply Forall_app. split; [done|].
    apply Forall_singleton. split_and!; simpl; [constructor|lia|done|lia].
  - intros Hall. apply Forall_insert; [done|].
    apply (room_ok_applyOp op (this, ps)).
    by eapply Forall_lookup_1.
Qed.

Lemma model_step_participants_ok m m' :
  model_step m m' → participants_ok m → participants_ok m'.
Proof.
  induction 1 as [| | h ps code now | h ps room this op Hroom]; auto.
  - intros Hok socketId participant Hin.
    destruct (Hok socketId participant Hin) as (l & that & Hl & Hrest).
    exists l, that. split; [|done]. simpl.
    rewrite lookup_app_l; [done|]. by eapply lookup_lt_Some.
  - intros Hok socketId participant Hin. simpl in *.
    assert (room < length h)%nat as Hlt by by eapply lookup_lt_Some.
    assert (∀ that',
              Room.code that' = Room.code this →
              (∀ l that, h !! l = Some that → l = room →
                 socketId ∈ Room.participants that →
                 socketId ∈ Room.participants that') →
              ps !! socketId = Some participant →
              ∃ l that,
                <[room := that']> h !! l = Some that ∧
                Room.code that = Participant.roomCode participant ∧
                socketId ∈ Room.participants that) as Hold.
    { intros that' Hcode Hkeep Hps.
      destruct (Hok socketId participant Hps) as (l & that & Hl & Hc & Hm).
      simpl in Hl. destruct (decide (l = room)) as [->|Hne].
      - exists room, that'. rewrite list_lookup_insert_eq by done.
        simplify_eq. split_and!; [done|congruence|by eapply Hkeep].
      - exists l, that. by rewrite list_lookup_insert_ne. }
    destruct op as [sid userEmail now|sid|message senderEmail now rnd];
      simpl in *.
    + unfold Room.addParticipant in *.
      destruct (_ <=? _)%nat.
      { simpl in *. apply Hold; [done| |done].
        intros l that Hl -> Hm. by simplify_eq. }
      simpl in *. destruct (decide (socketId = sid)) as [->|Hne].
      * rewrite lookup_insert_eq in Hin. simplify_eq.
        eexists room, _. rewrite list_lookup_insert_eq by done.
        split_and!; [done|done|]. simpl. apply JSSet_elem_of_add. by left.
      * rewrite lookup_insert_ne in Hin by done.
        apply Hold; [done| |done].
        intros l that Hl -> Hm. simplify_eq. simpl.
        apply JSSet_elem_of_add. by right.
    + apply lookup_delete_Some in Hin as [Hne Hin].
      apply Hold; [done| |done].
      intros l that Hl -> Hm. simplify_eq. simpl.
      apply JSSet_elem_of_delete. split; [congruence|done].
    + apply Hold; [done| |done].
      intros l that Hl -> Hm. by simplify_eq.
Qed.
End model_steps.

Lemma reachable_heap_ok st : reachable st → Forall room_ok (heap st).
Proof.
  induction 1 as [|now ev st _ IH Hen]; [constructor|].
  exact (model_step_room_ok _ _ (model_step_handle now ev st) IH).
Qed.

Lemma reachable_participants_ok st :
  reachable st → participants_ok (heap st, participants st).
Proof.
  induction 1 as [|now ev st _ IH Hen]; [by intros socketId participant|].
  exact (model_step_participants_ok _ _ (model_step_handle now ev st) IH).
Qed.

(** X5. In every state the process can reach, every Room object ever made
    (registered or not) has distinct member handles, at most 50 of them,
    a capacity of 50, and at most 100 stored messages. *)
Theorem reachable_rooms_within_bounds (st : State) (room : loc) (this : Room.t) :
  reachable st →
  heap st !! room = Some this →
  NoDup (Room.participants this) ∧
  (JSSet.size (Room.participants this) ≤ 50)%nat ∧
  Room.maxParticipants this = 50%nat ∧
  (length (Room.messages this) ≤ 100)%nat.
Proof.
  intros Hreach Hroom.
  exact (Forall_lookup_1 _ _ _ _ (reachable_heap_ok st Hreach) Hroom).
Qed.

Lemma reachable_rooms_within_bounds_witness :
  let st := run reconnect_within_grace initial in
  reachable st ∧
  ∃ this,
    heap st !! 0%nat = Some this ∧
    NoDup (Room.participants this) ∧
    (JSSet.size (Room.participants this) ≤ 50)%nat.
Proof.
  intros st.
  assert (reachable st) as Hreach
    by (apply run_reachable; [constructor|compute_done]).
  split; [exact Hreach|].
  destruct (heap st !! 0%nat) as [this|] eqn:Hroom; [|by vm_compute in Hroom].
  exists this. split; [done|].
  destruct (reachable_rooms_within_bounds st 0%nat this Hreach Hroom)
    as (Hnd & Hsize & _).
  by split.
Defined.

(** X6. In every state the process can reach, every entry of the
    [participants] map is backed by a membership: its handle is a member
    of some Room object whose code is the entry's room code. *)
Theorem reachable_participants_are_members
    (st : State) (socketId : string) (participant : Participant.t) :
  reachable st →
  participants st !! socketId = Some participant →
  ∃ room this,
    heap st !! room = Some this ∧
    Room.code this = Participant.roomCode participant ∧
    socketId ∈ Room.participants this.
Proof.
  intros Hreach Hin.
  exact (reachable_participants_ok st Hreach socketId participant Hin).
Qed.

Lemma reachable_participants_are_members_witness :
  let st := run reconnect_within_grace initial in
  reachable st ∧
  participants st !! "s1" = Some (Participant.mk "a@x.com" "ABC" 10) ∧
  ∃ room this,
    heap st !! room = Some this ∧ Room.code this = "ABC" ∧
    "s1" ∈ Room.participants this.
Proof.
  intros st.
  assert (reachable st) as Hreach
    by (apply run_reachable; [constructor|compute_done]).
  assert (participants st !! "s1"
          = Some (Participant.mk "a@x.com" "ABC" 10)) as Hin by compute_done.
  split; [exact Hreach|]. split; [exact Hin|].
  exact (reachable_participants_are_members st "s1" _ Hreach Hin).
Defined.

(** * Further properties of the handlers *)

Lemma membersAt_NoDup st room :
  Forall room_ok (heap st) → NoDup (membersAt room st).
Proof.
  intros Hall. unfold membersAt.
  destruct (heap st !! room) as [this|] eqn:Hroom; [|constructor].
  by destruct (Forall_lookup_1 _ _ _ _ Hall Hroom).
Qed.

(** The part of [join-room] after the binding, on a well-formed state. *)
Lemma enterRoom_outcome socketId roomCode userEmail now st :
  registry_ok st →
  Forall room_ok (heap st) →
  let before := membersOf roomCode st in
  let st' := enterRoom socketId roomCode userEmail now st in
  if (50 <=? length before)%nat then
    st' = emit (Self socketId) "error" (PError "Room is full") st
  else
    membersOf roomCode st' = JSSet.add socketId before ∧
    participants st' =
      <[socketId := Participant.mk userEmail (toUpperCase roomCode) now]>
        (participants st) ∧
    log st' =
      log st ++
      [Emit (Everyone roomCode) "participants-update"
         (PParticipantsUpdate (length (JSSet.add socketId before))
            (roster st' (JSSet.add socketId before)))] ∧
    timers st' =
      timers st ++
      [(now + 1000,
        RoomParticipantsTimer socketId
          (roster st'
             (filter (λ id, id ≠ socketId) (JSSet.add socketId before))));
       (now + 1500, UserJoinedTimer socketId roomCode userEmail)].
Proof.
  intros Hreg Hall. cbn zeta.
  destruct (rooms st !! toUpperCase roomCode) as [room|] eqn:Hget.
  - destruct (Hreg _ _ Hget) as (this & Hthis & Hcode & _).
    destruct (Forall_lookup_1 _ _ _ _ Hall Hthis) as (_ & _ & Hcap & _).
    assert (membersOf roomCode st = Room.participants this) as ->.
    { unfold membersOf, roomUtils.getRoom, membersAt. by rewrite Hget, Hthis. }
    unfold enterRoom, getOrCreate, roomUtils.getRoom. rewrite Hget.
    unfold addParticipantAt, Room.addParticipant. rewrite Hthis, Hcap.
    unfold JSSet.size.
    destruct (50 <=? length (Room.participants this))%nat; [done|].
    assert (room < length (heap st))%nat as Hlt by by eapply lookup_lt_Some.
    split_and!.
    + unfold membersOf, roomUtils.getRoom, membersAt. simpl.
      by rewrite Hget, list_lookup_insert_eq.
    + simpl. by rewrite Hcode.
    + simpl. unfold membersAt. simpl.
      by rewrite list_lookup_insert_eq.
    + simpl. unfold membersAt. simpl.
      rewrite list_lookup_insert_eq by done. simpl.
      by rewrite <- app_assoc.
  - assert (membersOf roomCode st = []) as ->.
    { unfold membersOf, roomUtils.getRoom. by rewrite Hget. }
    unfold enterRoom, getOrCreate, roomUtils.getRoom, roomUtils.createRoom.
    rewrite Hget. unfold addParticipantAt, Room.addParticipant. simpl.
    rewrite list_lookup_middle by done. simpl.
    assert (length (heap st)
            < length (heap st ++ [Room.new (toUpperCase roomCode) now]))%nat
      as Hlt by (rewrite length_app; simpl; lia).
    split_and!.
    + unfold membersOf, roomUtils.getRoom, membersAt. simpl.
      by rewrite lookup_insert_eq, list_lookup_insert_eq.
    + by rewrite toUpperCase_idem.
    + unfold membersAt. simpl. by rewrite list_lookup_insert_eq.
    + unfold membersAt. simpl. rewrite list_lookup_insert_eq by done.
      simpl. by rewrite <- app_assoc.
Qed.

Lemma log_onDisconnect socketId now st :
  log (onDisconnect socketId now st) = log st.
Proof. unfold onDisconnect. by repeat case_match. Qed.

Lemma timers_onDisconnect_unbound socketId now st :
  socketToUser st !! socketId = None →
  timers (onDisconnect socketId now st) = timers st.
Proof. intros Hnone. unfold onDisconnect. by rewrite Hnone. Qed.

Lemma log_cleanupExisting socketId userEmail now st :
  log (cleanupExisting socketId userEmail now st) = log st ∨
  ∃ existing,
    log (cleanupExisting socketId userEmail now st)
    = log st ++ [Disconnect existing].
Proof.
  unfold cleanupExisting.
  destruct (userToSocket st !! userEmail) as [existing|]; [|by left].
  destruct (_ && _); [|by left]. simpl.
  case_bool_decide; [|by left]. right. exists existing.
  unfold disconnectSocket. by rewrite log_onDisconnect.
Qed.

Lemma log_bindUser socketId roomCode userEmail now st :
  log (bindUser socketId roomCode userEmail now st)
  = log st ++ [Join socketId roomCode].
Proof. unfold bindUser, updateUserActivity. by case_match. Qed.

Lemma membersOf_fields code st st' :
  rooms st' = rooms st → heap st' = heap st →
  membersOf code st' = membersOf code st.
Proof.
  intros Hr Hh. unfold membersOf, roomUtils.getRoom, membersAt.
  by rewrite Hr, Hh.
Qed.

Lemma registry_ok_fields st st' :
  rooms st' = rooms st → heap st' = heap st →
  registry_ok st → registry_ok st'.
Proof. intros Hr Hh Hok code room. rewrite Hr, Hh. apply Hok. Qed.

(** X7. The [join-room] handler, in every state the process can reach.
    The socket is bound to the identity and subscribed to the group named
    by the code as sent, whatever follows. If the Room registered for the
    upper-cased code has 50 members, nothing changes in the model and the
    last effect is the error "Room is full" to the caller. Otherwise the
    Room (made on the spot when the code is new) has the old members plus
    the handle, the handle gets its [participants] entry, the handler
    schedules [room-participants] (the roster without the joiner) and
    [user-joined] 1000 and 1500 ms later, and its last effect is a
    [participants-update] to the group with the new count and roster. *)
Theorem join_room_outcome
    (st : State) (socketId roomCode userEmail : string) (now : Z) :
  reachable st →
  let before := membersOf roomCode st in
  let mid := cleanupExisting socketId userEmail now st in
  let st' := onJoinRoom socketId roomCode userEmail now st in
  socketToUser st' !! socketId = Some (SocketUser.mk userEmail roomCode) ∧
  userToSocket st' !! userEmail = Some socketId ∧
  if (50 <=? length before)%nat then
    heap st' = heap st ∧ rooms st' = rooms st ∧
    participants st' = participants st ∧
    timers st' = timers mid ∧
    log st' =
      log mid ++
      [Join socketId roomCode;
       Emit (Self socketId) "error" (PError "Room is full")]
  else
    membersOf roomCode st' = JSSet.add socketId before ∧
    participants st' =
      <[socketId := Participant.mk userEmail (toUpperCase roomCode) now]>
        (participants st) ∧
    timers st' =
      timers mid ++
      [(now + 1000,
        RoomParticipantsTimer socketId
          (roster st'
             (filter (λ id, id ≠ socketId) (JSSet.add socketId before))));
       (now + 1500, UserJoinedTimer socketId roomCode userEmail)] ∧
    log st' =
      log mid ++
      [Join socketId roomCode;
       Emit (Everyone roomCode) "participants-update"
         (PParticipantsUpdate (length (JSSet.add socketId before))
            (roster st' (JSSet.add socketId before)))].
Proof.
  intros Hreach before mid st'.
  destruct (reachable_refs_valid st Hreach) as [Hreg _].
  pose proof (reachable_heap_ok st Hreach) as Hall.
  set (st0 := bindUser socketId roomCode userEmail now mid).
  assert (heap st0 = heap st) as Hh
    by (subst st0 mid; by rewrite heap_bindUser, heap_cleanupExisting).
  assert (rooms st0 = rooms st) as Hr
    by (subst st0 mid; by rewrite rooms_bindUser, rooms_cleanupExisting).
  assert (participants st0 = participants st) as Hp
    by (subst st0 mid;
        by rewrite participants_bindUser, participants_cleanupExisting).
  assert (timers st0 = timers mid) as Ht
    by (subst st0; by rewrite timers_bindUser).
  assert (log st0 = log mid ++ [Join socketId roomCode]) as Hl
    by (subst st0; by rewrite log_bindUser).
  assert (st' = enterRoom socketId roomCode userEmail now st0) as Hst'
    by reflexivity.
  pose proof (enterRoom_outcome socketId roomCode userEmail now st0) as Hout.
  cbn zeta in Hout. rewrite (membersOf_fields roomCode st st0 Hr Hh) in Hout.
  fold before in Hout. rewrite <- Hst' in Hout.
  assert (socketToUser st' !! socketId
          = Some (SocketUser.mk userEmail roomCode)
          ∧ userToSocket st' !! userEmail = Some socketId) as [Hsu Hus].
  { rewrite Hst'.
    destruct (enterRoom_identity socketId roomCode userEmail now st0)
      as (_ & -> & ->).
    subst st0. unfold bindUser.
    destruct (updateUserActivity_identity userEmail now
      (set_userToSocket (λ m, <[userEmail := socketId]> m)
         (set_socketToUser
            (λ m, <[socketId := SocketUser.mk userEmail roomCode]> m)
            (set_log (λ l, l ++ [Join socketId roomCode]) mid))))
      as (_ & -> & ->).
    simpl. by rewrite !lookup_insert_eq. }
  split; [exact Hsu|]. split; [exact Hus|].
  clearbody st' st0 mid before.
  destruct (50 <=? length before)%nat.
  - rewrite Hout; [|by eapply registry_ok_fields|by rewrite Hh].
    simpl. rewrite Hh, Hr, Hp, Ht, Hl. split_and!; try done.
    by rewrite <- app_assoc.
  - destruct Hout as (Hm & Hps & Hlog & Hts);
      [by eapply registry_ok_fields|by rewrite Hh|].
    rewrite Hm, Hps, Hlog, Hts, Hp, Ht, Hl. split_and!; try done.
    by rewrite <- app_assoc.
Qed.

Lemma join_room_outcome_witness :
  let st := run two_sockets initial in
  let st' := onJoinRoom "s2" "AbC" "b@x.com" 30 st in
  reachable st ∧
  membersOf "AbC" st = ["s1"] ∧
  membersOf "AbC" st' = ["s1"; "s2"] ∧
  participants st' =
    <[ "s2" := Participant.mk "b@x.com" "ABC" 30 ]> (participants st).
Proof.
  intros st st'.
  assert (reachable st) as Hreach
    by (apply run_reachable; [constructor|compute_done]).
  assert (membersOf "AbC" st = ["s1"]) as Hbefore by compute_done.
  split; [exact Hreach|]. split; [exact Hbefore|].
  pose proof (join_room_outcome st "s2" "AbC" "b@x.com" 30 Hreach) as H.
  cbn zeta in H. fold st' in H. rewrite Hbefore in H.
  destruct H as (_ & _ & Hm & Hps & _).
  split; [exact Hm | exact Hps].
Defined.

Lemma update_ok_roster st to event ids :
  NoDup ids →
  update_ok (Emit to event (PParticipantsUpdate (length ids) (roster st ids))).
Proof.
  intros Hnd. simpl. by rewrite roster_length, roster_handles.
Qed.

Lemma membersOf_NoDup code st :
  Forall room_ok (heap st) → NoDup (membersOf code st).
Proof.
  intros Hall. unfold membersOf.
  destruct (roomUtils.getRoom code st); [by apply membersAt_NoDup|constructor].
Qed.

Lemma update_ok_graceTimeout socketId roomCode userEmail room st :
  Forall room_ok (heap st) →
  Forall update_ok (log st) →
  Forall update_ok (log (graceTimeout socketId roomCode userEmail room st)).
Proof.
  intros Hall Hlog. unfold graceTimeout. case_bool_decide; [|done].
  unfold removeParticipantAt.
  destruct (heap st !! room) as [this|] eqn:Hroom; simpl.
  - unfold membersAt. simpl.
    rewrite list_lookup_insert_eq by by eapply lookup_lt_Some.
    simpl. rewrite <- app_assoc. apply Forall_app. split; [done|].
    repeat constructor; simpl.
    + by rewrite roster_length.
    + rewrite roster_handles. apply NoDup_filter.
      by destruct (Forall_lookup_1 _ _ _ _ Hall Hroom).
  - unfold membersAt. simpl. rewrite Hroom. simpl.
    rewrite <- app_assoc. apply Forall_app. split; [done|].
    repeat constructor.
Qed.

Lemma update_ok_handle now ev st :
  registry_ok st →
  Forall room_ok (heap st) →
  Forall update_ok (log st) →
  Forall update_ok (log (handle now ev st)).
Proof.
  intros Hreg Hall Hlog. destruct ev; simpl; try done.
  - unfold onJoinRoom.
    set (mid := cleanupExisting socketId userEmail now st).
    set (st0 := bindUser socketId roomCode userEmail now mid).
    assert (heap st0 = heap st) as Hh
      by (subst st0 mid; by rewrite heap_bindUser, heap_cleanupExisting).
    assert (rooms st0 = rooms st) as Hr
      by (subst st0 mid; by rewrite rooms_bindUser, rooms_cleanupExisting).
    assert (Forall update_ok (log st0)) as Hlog0.
    { subst st0. rewrite log_bindUser. apply Forall_app. split;
        [|by repeat constructor].
      subst mid.
      destruct (log_cleanupExisting socketId userEmail now st)
        as [->|[existing ->]]; [done|].
      apply Forall_app. split; [done|by repeat constructor]. }
    pose proof (enterRoom_outcome socketId roomCode userEmail now st0) as Hout.
    cbn zeta in Hout.
    assert (NoDup (membersOf roomCode st0)) as Hnd
      by (apply membersOf_NoDup; by rewrite Hh).
    destruct (50 <=? length (membersOf roomCode st0))%nat.
    + rewrite Hout; [|by eapply registry_ok_fields|by rewrite Hh].
      simpl. apply Forall_app. split; [done|by repeat constructor].
    + destruct Hout as (_ & _ & -> & _);
        [by eapply registry_ok_fields|by rewrite Hh|].
      apply Forall_app. split; [done|]. apply Forall_singleton.
      by apply update_ok_roster, JSSet_NoDup_add.
  - unfold onPing, updateUserActivity. case_match; simpl;
      (apply Forall_app; split; [done|by repeat constructor]).
  - apply Forall_app. split; [done|by repeat constructor].
  - unfold onChatMessage, addMessageAt.
    destruct (roomUtils.getRoom roomCode st) as [room|]; [|done].
    destruct (heap st !! room); [|done]. simpl.
    apply Forall_app. split; [done|by repeat constructor].
  - unfold onPrivateMessage.
    repeat case_match; simpl; rewrite <- ?app_assoc;
      (apply Forall_app; split; [done|by repeat constructor]).
  - unfold onPresence. case_match; [|done]. simpl.
    apply Forall_app. split; [done|by repeat constructor].
  - by rewrite log_onDisconnect.
  - unfold fireTimer. destruct (timers st !! k) as [[due cb]|]; [|done].
    destruct cb; simpl;
      try (apply Forall_app; split; [done|by repeat constructor]).
    by apply (update_ok_graceTimeout _ _ _ _
                (set_timers (λ ts, delete k ts) st)).
  - unfold joinRoute.
    by destruct (getOrCreate_cases (toUpperCase code) now st)
      as [[_ ->]|(_ & _ & ->)].
Qed.

Lemma reachable_update_ok st : reachable st → Forall update_ok (log st).
Proof.
  induction 1 as [|now ev st Hreach IH Hen]; [constructor|].
  apply update_ok_handle; [|by apply reachable_heap_ok|done].
  by destruct (reachable_refs_valid st Hreach).
Qed.

(** X8. Every [participants-update] the process ever emits, from
    [join-room] or from a grace continuation, carries as count the length
    of its own roster, and the roster lists each handle once. *)
Theorem participants_update_consistent
    (st : State) (to : Target) (event : string) (count : nat)
    (participantList : list RosterEntry.t) :
  reachable st →
  Emit to event (PParticipantsUpdate count participantList) ∈ log st →
  count = length participantList ∧
  NoDup (RosterEntry.socketId <$> participantList).
Proof.
  intros Hreach Hin.
  exact (proj1 (Forall_forall _ _) (reachable_update_ok st Hreach) _ Hin).
Qed.

Lemma participants_update_consistent_witness :
  let st := run reconnect_within_grace initial in
  let participantList :=
    [RosterEntry.mk "s1" "a@x.com"; RosterEntry.mk "s2" "a@x.com"] in
  reachable st ∧
  Emit (Everyone "abc") "participants-update"
    (PParticipantsUpdate 2 participantList) ∈ log st ∧
  NoDup (RosterEntry.socketId <$> participantList).
Proof.
  intros st participantList.
  assert (reachable st) as Hreach
    by (apply run_reachable; [constructor|compute_done]).
  assert (Emit (Everyone "abc") "participants-update"
            (PParticipantsUpdate 2 participantList) ∈ log st) as Hin.
  { apply list_elem_of_lookup. exists 5%nat. vm_compute. reflexivity. }
  split; [exact Hreach|]. split; [exact Hin|].
  exact (proj2 (participants_update_consistent st _ _ _ _ Hreach Hin)).
Defined.

(** X9. In every state the process can reach, [getInfo] of a registered
    Room reports the registry key as code, a participant count of at most
    [maxParticipants], which is 50, and a message count of at most 100. *)
Theorem getInfo_of_registered (st : State) (code : string) (room : loc) :
  reachable st →
  rooms st !! code = Some room →
  ∃ this,
    heap st !! room = Some this ∧
    RoomInfo.code (Room.getInfo this) = code ∧
    RoomInfo.maxParticipants (Room.getInfo this) = 50%nat ∧
    (RoomInfo.participantCount (Room.getInfo this)
     ≤ RoomInfo.maxParticipants (Room.getInfo this))%nat ∧
    (RoomInfo.messageCount (Room.getInfo this) ≤ 100)%nat ∧
    RoomInfo.participantCount (Room.getInfo this)
    = length (membersAt room st).
Proof.
  intros Hreach Hin.
  destruct (reachable_refs_valid st Hreach) as [Hreg _].
  destruct (Hreg _ _ Hin) as (this & Hroom & Hcode & _).
  destruct (Forall_lookup_1 _ _ _ _ (reachable_heap_ok st Hreach) Hroom)
    as (_ & Hsize & Hcap & Hmsgs).
  exists this. unfold membersAt. rewrite Hroom. simpl.
  split_and!; try done. by rewrite Hcap.
Qed.

Lemma getInfo_of_registered_witness :
  let st := run reconnect_within_grace initial in
  reachable st ∧
  rooms st !! "ABC" = Some 0%nat ∧
  ∃ this,
    heap st !! 0%nat = Some this ∧
    RoomInfo.code (Room.getInfo this) = "ABC" ∧
    (RoomInfo.messageCount (Room.getInfo this) ≤ 100)%nat.
Proof.
  intros st.
  assert (reachable st) as Hreach
    by (apply run_reachable; [constructor|compute_done]).
  assert (rooms st !! "ABC" = Some 0%nat) as Hin by compute_done.
  split; [exact Hreach|]. split; [exact Hin|].
  destruct (getInfo_of_registered st "ABC" 0%nat Hreach Hin)
    as (this & Hroom & Hcode & _ & _ & Hmsgs & _).
  exists this. split; [exact Hroom|]. split; [exact Hcode|exact Hmsgs].
Defined.

Lemma addMessage_returns_last this message senderEmail now rnd :
  (Room.addMessage message senderEmail now rnd this).2
  = Message.mk (now, rnd) message senderEmail now ∧
  last (Room.messages (Room.addMessage message senderEmail now rnd this).1)
  = Some (Room.addMessage message senderEmail now rnd this).2.
Proof.
  split; [done|]. rewrite addMessage_messages. unfold slice_last.
  rewrite drop_app_le by (rewrite length_app; simpl; lia).
  by rewrite last_snoc.
Qed.

(** X10. The [chat-message] handler, in every state the process can
    reach. For a code with no registered Room it does nothing at all. For
    a registered Room it stores the message, with the server's id and
    timestamp, as the last entry of that Room's history (keeping the last
    100), broadcasts exactly that record to the group named by the code
    as sent, and leaves members, other Rooms, registry, bindings and
    timers alone; the sender needs no membership or binding. *)
Theorem chat_message_stored_and_broadcast
    (st : State) (message senderEmail roomCode : string) (now rnd : Z) :
  reachable st →
  let st' := onChatMessage message senderEmail roomCode now rnd st in
  let messageObj := Message.mk (now, rnd) message senderEmail now in
  match roomUtils.getRoom roomCode st with
  | None => st' = st
  | Some room =>
      ∃ this this',
        heap st !! room = Some this ∧
        heap st' !! room = Some this' ∧
        Room.messages this' = slice_last 100 (Room.messages this ++ [messageObj])
        ∧ last (Room.messages this') = Some messageObj
        ∧ Room.participants this' = Room.participants this
        ∧ Room.isActive this' = Room.isActive this
        ∧ (∀ other, other ≠ room → heap st' !! other = heap st !! other)
        ∧ log st' =
            log st ++
            [Emit (Everyone roomCode) "chat-message" (PChatMessage messageObj)]
        ∧ rooms st' = rooms st ∧ participants st' = participants st
        ∧ socketToUser st' = socketToUser st
        ∧ userToSocket st' = userToSocket st
        ∧ timers st' = timers st
  end.
Proof.
  intros Hreach st' messageObj. subst st'. unfold onChatMessage.
  destruct (roomUtils.getRoom roomCode st) as [room|] eqn:Hget; [|done].
  destruct (reachable_refs_valid st Hreach) as [Hreg _].
  destruct (Hreg _ _ Hget) as (this & Hroom & _).
  unfold addMessageAt. rewrite Hroom.
  assert (room < length (heap st))%nat as Hlt by by eapply lookup_lt_Some.
  exists this, (Room.addMessage message senderEmail now rnd this).1.
  cbn [fst snd]. split; [done|]. split.
  { simpl. by rewrite list_lookup_insert_eq. }
  split; [apply addMessage_messages|].
  split.
  { destruct (addMessage_returns_last this message senderEmail now rnd)
      as [Hobj Hlast]. by rewrite Hlast, Hobj. }
  split_and!; try done.
  intros other Hne. simpl. by rewrite list_lookup_insert_ne.
Qed.

Lemma chat_message_stored_and_broadcast_witness :
  let st := run two_sockets initial in
  let st' := onChatMessage "hello" "nobody@x.com" "abc" 40 3 st in
  let messageObj := Message.mk (40, 3) "hello" "nobody@x.com" 40 in
  reachable st ∧
  roomUtils.getRoom "abc" st = Some 0%nat ∧
  ∃ this',
    heap st' !! 0%nat = Some this' ∧
    last (Room.messages this') = Some messageObj ∧
    log st' =
      log st ++ [Emit (Everyone "abc") "chat-message" (PChatMessage messageObj)].
Proof.
  intros st st' messageObj.
  assert (reachable st) as Hreach
    by (apply run_reachable; [constructor|compute_done]).
  assert (roomUtils.getRoom "abc" st = Some 0%nat) as Hget by compute_done.
  split; [exact Hreach|]. split; [exact Hget|].
  pose proof (chat_message_stored_and_broadcast st "hello" "nobody@x.com"
                "abc" 40 3 Hreach) as H.
  cbn zeta in H. rewrite Hget in H.
  destruct H as (this & this' & _ & Hroom' & _ & Hlast & _ & _ & _ & Hlog & _).
  exists this'. split; [exact Hroom'|]. split; [exact Hlast|exact Hlog].
Defined.

(** X11. In every state the process can reach, the identity that the
    signalling relays ([offer], [answer], [ice-candidate]) and the presence
    relays attach to what they forward is bound to the sending socket in
    both identity maps; a signalling event goes to its target only and
    changes nothing else; a presence event from a socket that has no
    binding is dropped. *)
Theorem relayed_identity_is_bound (st : State) (socketId : string) :
  reachable st →
  (∀ k payload to,
     ∃ fromUser,
       onSignal k socketId payload to st =
       emit (Others socketId to) (signalName k)
         (PSignal payload socketId fromUser) st ∧
       ∀ userEmail, fromUser = Some userEmail →
                    userToSocket st !! userEmail = Some socketId) ∧
  (∀ p roomCode,
     (socketToUser st !! socketId = None ∧
      onPresence p socketId roomCode st = st) ∨
     ∃ userEmail,
       userToSocket st !! userEmail = Some socketId ∧
       onPresence p socketId roomCode st =
       emit (Others socketId roomCode) (presenceName p)
         (PPresence socketId userEmail p) st).
Proof.
  intros Hreach. destruct (reachable_identity st Hreach) as (_ & Hmaps & _).
  split.
  - intros k payload to. eexists. split; [reflexivity|].
    intros userEmail Hfrom.
    destruct (socketToUser st !! socketId) as [user|] eqn:Hsu; [|done].
    simpl in Hfrom. simplify_eq. by destruct (Hmaps _ _ Hsu).
  - intros p roomCode. unfold onPresence.
    destruct (socketToUser st !! socketId) as [user|] eqn:Hsu; [|by left].
    right. exists (SocketUser.userEmail user).
    by destruct (Hmaps _ _ Hsu).
Qed.

Lemma relayed_identity_is_bound_witness :
  let st := run two_sockets initial in
  reachable st ∧
  ∃ fromUser,
    onSignal Offer "s1" "sdp" "s2" st =
    emit (Others "s1" "s2") "offer" (PSignal "sdp" "s1" fromUser) st ∧
    ∀ userEmail, fromUser = Some userEmail →
                 userToSocket st !! userEmail = Some "s1".
Proof.
  intros st.
  assert (reachable st) as Hreach
    by (apply run_reachable; [constructor|compute_done]).
  split; [exact Hreach|].
  destruct (relayed_identity_is_bound st "s1" Hreach) as [H _].
  exact (H Offer "sdp" "s2").
Defined.

(** * Further properties of the registry *)

(** X12. The janitor: after [cleanupEmptyRooms] the registry holds exactly
    the entries it had whose Room has a member or a true flag, each still
    pointing to the same object; objects, members and the [participants]
    map are untouched; and sweeping again changes nothing. *)
Theorem cleanupEmptyRooms_result (st : State) :
  let st' := roomUtils.cleanupEmptyRooms st in
  (∀ code room,
     rooms st' !! code = Some room ↔
     rooms st !! code = Some room ∧
     ¬ (∃ this, heap st !! room = Some this ∧
                Room.participants this = [] ∧ Room.isActive this = false)) ∧
  heap st' = heap st ∧
  participants st' = participants st ∧
  roomUtils.cleanupEmptyRooms st' = st'.
Proof.
  intros st'.
  assert (∀ room,
            roomUtils.swept st room = false ↔
            ¬ (∃ this, heap st !! room = Some this ∧
                       Room.participants this = [] ∧
                       Room.isActive this = false)) as Hswept.
  { intros room. unfold roomUtils.swept.
    destruct (heap st !! room) as [this|] eqn:Hroom.
    - unfold JSSet.size. split.
      + intros Hf (that & [= <-] & Hnil & Hflag).
        by rewrite Hnil, Hflag in Hf.
      + intros Hnot. apply not_true_is_false. intros Ht.
        apply andb_true_iff in Ht as [Hlen Hflag]. apply Hnot.
        exists this. split_and!; [done| |by apply negb_true_iff].
        apply Nat.eqb_eq in Hlen. by destruct (Room.participants this).
    - split; [|done]. by intros _ (that & ? & _). }
  split_and!; [|done|done|].
  - intros code room. subst st'. unfold roomUtils.cleanupEmptyRooms. simpl.
    rewrite map_lookup_filter_Some. simpl. by rewrite Hswept.
  - subst st'. unfold roomUtils.cleanupEmptyRooms, set_rooms. simpl.
    f_equal. apply map_eq. intros code. apply option_eq. intros room.
    rewrite !map_lookup_filter_Some. unfold roomUtils.swept. simpl. tauto.
Qed.

Lemma cleanupEmptyRooms_result_witness :
  let st := run (joined_then_closed ++ [(6000, TimerFires 2)]) initial in
  let st' := roomUtils.cleanupEmptyRooms st in
  rooms st !! "ABC" = Some 0%nat ∧
  rooms st' !! "ABC" = None.
Proof.
  intros st st'.
  assert (rooms st !! "ABC" = Some 0%nat) as Hin by compute_done.
  split; [exact Hin|].
  destruct (cleanupEmptyRooms_result st) as (H & _).
  destruct (rooms st' !! "ABC") as [room|] eqn:E; [|reflexivity].
  apply H in E as [Hin0 Hnot]. exfalso. apply Hnot.
  rewrite Hin in Hin0. injection Hin0 as <-.
  exists (Room.mk "ABC" "ABC" [] 10 [] false 50).
  split; [compute_done|]. split; reflexivity.
Defined.

(** X13. A swept Room does not come back: when a code's Room is empty with
    a false flag, a sweep followed by get-or-create for that code (in any
    letter case) makes a new object at a new location, with no member, no
    message, a true flag and the current time as creation time, while the
    old object stays as it was, unregistered. *)
Theorem swept_room_is_recreated
    (st : State) (code : string) (room : loc) (this : Room.t) (now : Z) :
  rooms st !! toUpperCase code = Some room →
  heap st !! room = Some this →
  Room.participants this = [] →
  Room.isActive this = false →
  let swept := roomUtils.cleanupEmptyRooms st in
  let room' := (getOrCreate code now swept).1 in
  let st' := (getOrCreate code now swept).2 in
  rooms swept !! toUpperCase code = None ∧
  room' ≠ room ∧
  rooms st' !! toUpperCase code = Some room' ∧
  heap st' !! room' = Some (Room.new (toUpperCase code) now) ∧
  heap st' !! room = Some this.
Proof.
  intros Hin Hroom Hnil Hflag swept room' st'.
  assert (rooms swept !! toUpperCase code = None) as Hgone.
  { subst swept. unfold roomUtils.cleanupEmptyRooms. simpl.
    apply map_lookup_filter_None. right. intros room0 Hin0. simpl.
    simplify_eq. unfold roomUtils.swept, JSSet.size.
    by rewrite Hroom, Hnil, Hflag. }
  assert (heap swept = heap st) as Hheap by done.
  assert (room < length (heap st))%nat as Hlt by by eapply lookup_lt_Some.
  subst room' st'.
  destruct (getOrCreate_cases code now swept)
    as [[Hsome _]|(_ & -> & ->)]; [congruence|].
  rewrite Hheap. simpl. split_and!; try done.
  - lia.
  - apply lookup_insert_eq.
  - by apply list_lookup_middle.
  - by rewrite lookup_app_l.
Qed.

Lemma swept_room_is_recreated_witness :
  let st := run (joined_then_closed ++ [(6000, TimerFires 2)]) initial in
  let swept := roomUtils.cleanupEmptyRooms st in
  let st' := (getOrCreate "abc" 7000 swept).2 in
  rooms st !! "ABC" = Some 0%nat ∧
  rooms st' !! "ABC" = Some 1%nat ∧
  heap st' !! 1%nat = Some (Room.new "ABC" 7000).
Proof.
  intros st swept st'.
  assert (rooms st !! toUpperCase "abc" = Some 0%nat) as Hin by compute_done.
  assert (heap st !! 0%nat = Some (Room.mk "ABC" "ABC" [] 10 [] false 50))
    as Hroom by compute_done.
  split; [exact Hin|].
  destruct (swept_room_is_recreated st "abc" 0%nat _ 7000 Hin Hroom)
    as (_ & _ & Hreg & Hnew & _); [done|done|].
  fold swept in Hreg, Hnew. fold st' in Hreg, Hnew.
  assert ((getOrCreate "abc" 7000 swept).1 = 1%nat) as Hloc by compute_done.
  rewrite Hloc in Hreg, Hnew. by split.
Defined.

(** * The HTTP side *)

Section characters.
Implicit Types (c : ascii) (s ch : string) (cs : list ascii).

Lemma list_ascii_of_string_asciiUpperCase s :
  list_ascii_of_string (asciiUpperCase s)
  = upper_ascii <$> list_ascii_of_string s.
Proof. induction s as [|c s IH]; [done|]. simpl. by rewrite IH. Qed.

Lemma truthy_asciiUpperCase s : truthy (asciiUpperCase s) = truthy s.
Proof. by destruct s. Qed.

Lemma codeChar_upper c : codeChar (upper_ascii c) = codeChar c.
Proof. by destruct c as [[] [] [] [] [] [] [] []]. Qed.

Lemma codeChar_upper_range c :
  codeChar c = true →
  (48 ≤ nat_of_ascii (upper_ascii c) ≤ 57
   ∨ 65 ≤ nat_of_ascii (upper_ascii c) ≤ 90)%nat.
Proof.
  destruct c as [[] [] [] [] [] [] [] []]; vm_compute; intros H;
    try discriminate H; lia.
Qed.

Lemma codeChar_plain c : codeChar c = true → isContinuation c = false.
Proof.
  destruct c as [[] [] [] [] [] [] [] []]; vm_compute; intros H;
    try discriminate H; reflexivity.
Qed.

Lemma codeRegex_test_asciiUpperCase s :
  codeRegex_test (asciiUpperCase s) = codeRegex_test s.
Proof.
  unfold codeRegex_test. rewrite list_ascii_of_string_asciiUpperCase.
  rewrite length_fmap. f_equal.
  induction (list_ascii_of_string s) as [|c cs IH]; [done|].
  simpl. rewrite codeChar_upper. f_equal. exact IH.
Qed.

(** On an accepted code [toUpperCase] only capitalizes [a] to [z]. *)
Lemma codeRegex_test_toUpperCase s :
  codeRegex_test s = true → toUpperCase s = asciiUpperCase s.
Proof.
  unfold codeRegex_test. intros [_ Hall]%andb_true_iff.
  apply toUpperCase_plain.
  induction (list_ascii_of_string s) as [|c cs IH]; [constructor|].
  simpl in Hall. apply andb_true_iff in Hall as [Hc Hcs].
  constructor; [by apply codeChar_plain|by apply IH].
Qed.

Lemma plainChar_facts ch :
  plainChar ch = true → isSpace ch = false ∧ ch ≠ "@".
Proof.
  unfold plainChar. intros [Hs Ha]%andb_true_iff.
  apply negb_true_iff in Hs. apply negb_true_iff in Ha.
  split; [done|]. by apply String.eqb_neq.
Qed.
End characters.

(** X14. An address that [validateJoinRequest] and [joinRoom] accept (the
    e-mail pattern) has the shape [a@b.c] with [a], [b], [c] non-empty and
    free of white space and at-signs; so it contains exactly one at-sign
    and no white space at all. *)
Theorem emailRegex_accepts_shape (email : string) :
  emailRegex_test email = true →
  ∃ a b c : list string,
    codePoints email = a ++ "@" :: b ++ "." :: c ∧
    a ≠ [] ∧ b ≠ [] ∧ c ≠ [] ∧
    forallb plainChar a = true ∧ forallb plainChar b = true ∧
    forallb plainChar c = true ∧
    length (filter (λ x, x = "@") (codePoints email)) = 1%nat ∧
    Forall (λ x, isSpace x = false) (codePoints email).
Proof.
  unfold emailRegex_test. set (cs := codePoints email).
  intros Hex. apply existsb_exists in Hex as (i & _ & Hex).
  apply existsb_exists in Hex as (j & _ & Hcond).
  repeat (apply andb_true_iff in Hcond as [Hcond ?]).
  apply bool_decide_eq_true in Hcond.
  repeat match goal with
         | H : bool_decide _ = true |- _ => apply bool_decide_eq_true in H
         | H : (_ <=? _)%nat = true |- _ => apply Nat.leb_le in H
         end.
  set (a := take i cs) in *.
  set (b := take (j - (i + 1)) (drop (i + 1) cs)) in *.
  set (c := drop (j + 1) cs) in *.
  assert (cs = a ++ "@" :: b ++ "." :: c) as Hshape.
  { subst a b c.
    rewrite <- (take_drop_middle cs i "@") at 1 by done.
    f_equal. f_equal.
    replace (S i) with (i + 1)%nat by lia.
    assert (drop (i + 1) cs !! (j - (i + 1))%nat = Some ".") as Hdot.
    { rewrite lookup_drop. by replace (i + 1 + (j - (i + 1)))%nat with j by lia. }
    rewrite <- (take_drop_middle _ _ _ Hdot) at 1.
    f_equal. f_equal. rewrite drop_drop. f_equal. lia. }
  assert (∀ l, forallb plainChar l = true →
               filter (λ x, x = "@") l = []
               ∧ Forall (λ x, isSpace x = false) l) as Hplain.
  { induction l as [|x l IH]; [by split|]. simpl.
    intros [Hx Hl]%andb_true_iff. destruct (plainChar_facts x Hx) as [Hs Hat].
    destruct (IH Hl) as [Hf Hall].
    rewrite filter_cons_False by done. split; [done|by constructor]. }
  destruct (Hplain a) as [Hfa Hsa]; [done|].
  destruct (Hplain b) as [Hfb Hsb]; [done|].
  destruct (Hplain c) as [Hfc Hsc]; [done|].
  assert (Forall (λ x, isSpace x = false) cs) as Hnospace.
  { rewrite Hshape. apply Forall_app. split; [done|]. constructor; [done|].
    apply Forall_app. split; [done|]. by constructor. }
  exists a, b, c. split_and!; try done.
  - subst a. intros Hnil. apply (f_equal length) in Hnil.
    rewrite length_take in Hnil.
    assert (i < length cs)%nat by by eapply lookup_lt_Some. simpl in Hnil. lia.
  - subst b. intros Hnil. apply (f_equal length) in Hnil.
    rewrite length_take, length_drop in Hnil. simpl in Hnil. lia.
  - subst c. intros Hnil. apply (f_equal length) in Hnil.
    rewrite length_drop in Hnil. simpl in Hnil. lia.
  - rewrite Hshape, filter_app, Hfa. simpl.
    rewrite filter_app, Hfb. simpl.
    rewrite filter_cons_False by done. by rewrite Hfc.
Qed.

Lemma emailRegex_accepts_shape_witness :
  emailRegex_test "a@x.com" = true ∧
  length (filter (λ x, x = "@") (codePoints "a@x.com")) = 1%nat.
Proof.
  split; [reflexivity|].
  destruct (emailRegex_accepts_shape "a@x.com") as (a & b & c & H);
    [reflexivity|].
  by destruct H as (_ & _ & _ & _ & _ & _ & _ & Hone & _).
Defined.

(** X15. [validateJoinRequest]: every refusal is a status 400; the verdict
    does not change when the letters [a] to [z] of the code are replaced
    by their capitals; and a request let through has an address of the
    accepted shape and a code of 3 to 12 characters whose upper-cased
    form, the registry key, is the code with its letters capitalized and
    consists of capital letters and digits only. *)
Theorem validateJoinRequest_verdict (email code : string) :
  validateJoinRequest email (asciiUpperCase code)
  = validateJoinRequest email code ∧
  (∀ status error,
     validateJoinRequest email code = Some (status, error) →
     status = 400%nat) ∧
  (validateJoinRequest email code = None →
     emailRegex_test email = true ∧
     (3 ≤ String.length code ≤ 12)%nat ∧
     toUpperCase code = asciiUpperCase code ∧
     String.length (toUpperCase code) = String.length code ∧
     Forall
       (λ c, (48 ≤ nat_of_ascii c ≤ 57 ∨ 65 ≤ nat_of_ascii c ≤ 90)%nat)
       (list_ascii_of_string (toUpperCase code))).
Proof.
  unfold validateJoinRequest.
  rewrite truthy_asciiUpperCase, codeRegex_test_asciiUpperCase.
  split; [done|]. split.
  - intros status error. repeat case_match; intros [= <- <-]; done.
  - destruct (negb (truthy email) || negb (truthy code)); [done|].
    destruct (emailRegex_test email); [|done]. simpl.
    destruct (codeRegex_test code) eqn:Hcode; [|done]. intros _.
    rewrite (codeRegex_test_toUpperCase code Hcode).
    unfold codeRegex_test in Hcode.
    apply andb_true_iff in Hcode as [[Hlo Hhi]%andb_true_iff Hall].
    apply Nat.leb_le in Hlo. apply Nat.leb_le in Hhi.
    assert (∀ s, String.length s = length (list_ascii_of_string s)) as Hlen.
    { induction s as [|c s IH]; [done|]. simpl. by rewrite IH. }
    split; [done|]. split; [rewrite Hlen; lia|]. split; [done|]. split.
    + rewrite !Hlen, list_ascii_of_string_asciiUpperCase. apply length_fmap.
    + rewrite list_ascii_of_string_asciiUpperCase. clear Hlo Hhi.
      induction (list_ascii_of_string code) as [|c cs IH]; [constructor|].
      simpl in Hall. apply andb_true_iff in Hall as [Hc Hcs].
      rewrite fmap_cons. constructor; [by apply codeChar_upper_range|].
      by apply IH.
Qed.

Lemma validateJoinRequest_verdict_witness :
  validateJoinRequest "a@x.com" "room42" = None ∧
  validateJoinRequest "a@x.com" "ROOM42" = None ∧
  toUpperCase "room42" = "ROOM42" ∧
  validateJoinRequest "a@x.com" "no" =
    Some (400%nat, "Invalid meeting code format").
Proof.
  assert (validateJoinRequest "a@x.com" "room42" = None) as Hvalid
    by reflexivity.
  destruct (validateJoinRequest_verdict "a@x.com" "room42")
    as (Hcase & _ & Hkey).
  destruct (Hkey Hvalid) as (_ & _ & Hup & _).
  split; [exact Hvalid|]. split; [|split; [|reflexivity]].
  - change "ROOM42" with (asciiUpperCase "room42"). by rewrite Hcase.
  - by rewrite Hup.
Defined.

(** X16. The page route behind its validation: a refused request leaves
    the state as it was; an accepted one answers with the meeting page and
    leaves a Room registered under the upper-cased code, keeps every
    registry entry there was, makes at most one object, and repeating it
    changes nothing more. *)
Theorem getJoinPage_result (email code : string) (now now' : Z) (st : State) :
  let page := (getJoinPage email code now st).1 in
  let st' := (getJoinPage email code now st).2 in
  match validateJoinRequest email code with
  | Some (status, error) => page = JsonError status error ∧ st' = st
  | None =>
      page = SendFile "meeting.html" ∧
      roomUtils.roomExists code st' = true ∧
      (∀ key room,
         rooms st !! key = Some room → rooms st' !! key = Some room) ∧
      (length (heap st') ≤ S (length (heap st)))%nat ∧
      (roomUtils.roomExists code st = true → st' = st) ∧
      getJoinPage email code now' st' = (SendFile "meeting.html", st')
  end.
Proof.
  intros page st'. subst page st'. unfold getJoinPage.
  destruct (validateJoinRequest email code) as [[status error]|]; [done|].
  cbn [fst snd]. unfold joinRoute.
  pose proof (getOrCreate_registered (toUpperCase code) now st) as Hreg.
  rewrite toUpperCase_idem in Hreg.
  set (st' := (getOrCreate (toUpperCase code) now st).2) in *.
  assert ((getOrCreate (toUpperCase code) now' st').2 = st') as Hagain.
  { unfold getOrCreate at 1, roomUtils.getRoom.
    by rewrite toUpperCase_idem, Hreg. }
  split_and!; try done.
  - unfold roomUtils.roomExists. rewrite Hreg. by apply bool_decide_eq_true.
  - intros key room Hin. by apply getOrCreate_keeps.
  - subst st'.
    destruct (getOrCreate_cases (toUpperCase code) now st)
      as [[_ ->]|(_ & _ & ->)]; simpl; [lia|].
    rewrite length_app. simpl. lia.
  - unfold roomUtils.roomExists. intros Hex%bool_decide_eq_true.
    destruct Hex as [room Hroom]. subst st'.
    unfold getOrCreate, roomUtils.getRoom.
    by rewrite toUpperCase_idem, Hroom.
  - by rewrite Hagain.
Qed.

Lemma getJoinPage_result_witness :
  let st' := (getJoinPage "a@x.com" "room42" 0 initial).2 in
  validateJoinRequest "a@x.com" "room42" = None ∧
  roomUtils.roomExists "room42" st' = true ∧
  getJoinPage "a@x.com" "room42" 9 st' = (SendFile "meeting.html", st').
Proof.
  intros st'.
  assert (validateJoinRequest "a@x.com" "room42" = None) as Hvalid
    by reflexivity.
  split; [exact Hvalid|].
  pose proof (getJoinPage_result "a@x.com" "room42" 0 9 initial) as H.
  cbn zeta in H. rewrite Hvalid in H. fold st' in H.
  destruct H as (_ & Hex & _ & _ & _ & Hagain).
  split; [exact Hex | exact Hagain].
Defined.

(** X17. [RoomController.joinRoom], in every state the process can reach,
    for a well-formed request: it answers 404 exactly when no Room is
    registered for the code; 403 exactly when the registered Room has 50
    members, which is when [Room.addParticipant] would throw "Room is
    full"; and otherwise 200 with the upper-cased code as room code and
    room id and the current member count, below 50, in which case
    [Room.addParticipant] would succeed. It never answers 500. *)
Theorem joinRoom_answer (st : State) (email code : string) :
  reachable st →
  email ≠ "" → code ≠ "" →
  emailRegex_test email = true →
  match rooms st !! toUpperCase code with
  | None =>
      RoomController.joinRoom email code st =
      RoomController.JoinError 404
        "Meeting room not found. Please check the meeting code."
  | Some room =>
      ∃ this,
        heap st !! room = Some this ∧
        if (50 <=? JSSet.size (Room.participants this))%nat then
          RoomController.joinRoom email code st =
          RoomController.JoinError 403
            "Meeting room is full. Maximum participants reached."
          ∧ ∀ socketId userEmail now ps,
              Room.addParticipant socketId userEmail now this ps
              = Throw "Room is full"
        else
          RoomController.joinRoom email code st =
          RoomController.JoinOk
            (RoomController.mkJoinData (toUpperCase code) (toUpperCase code)
               (length (membersOf code st)) (Room.createdAt this) email true)
            "Room found. Ready to join."
          ∧ (length (membersOf code st) < 50)%nat
          ∧ ∀ socketId userEmail now ps,
              ∃ out,
                Room.addParticipant socketId userEmail now this ps = Ok out
  end.
Proof.
  intros Hreach Hemail%truthy_true Hcode%truthy_true Hre.
  unfold RoomController.joinRoom. rewrite Hemail, Hcode, Hre.
  cbn [negb orb].
  destruct (rooms st !! toUpperCase code) as [room|] eqn:Hin; [|done].
  destruct (reachable_refs_valid st Hreach) as [Hreg _].
  destruct (Hreg _ _ Hin) as (this & Hroom & _ & Hid & _).
  destruct (Forall_lookup_1 _ _ _ _ (reachable_heap_ok st Hreach) Hroom)
    as (_ & _ & Hcap & _).
  exists this. split; [done|]. rewrite Hroom.
  assert (membersOf code st = Room.participants this) as Hm.
  { unfold membersOf, roomUtils.getRoom, membersAt. by rewrite Hin, Hroom. }
  unfold Room.addParticipant. rewrite Hcap. cbn zeta.
  destruct (50 <=? JSSet.size (Room.participants this))%nat eqn:Hle.
  - done.
  - apply Nat.leb_gt in Hle. rewrite Hm, Hid. split_and!; [done|done|].
    intros. by eexists.
Qed.

Lemma joinRoom_answer_witness :
  let st := run two_sockets initial in
  reachable st ∧
  RoomController.joinRoom "b@x.com" "abc" st =
  RoomController.JoinOk
    (RoomController.mkJoinData "ABC" "ABC" 1 10 "b@x.com" true)
    "Room found. Ready to join." ∧
  RoomController.joinRoom "b@x.com" "nowhere" st =
  RoomController.JoinError 404
    "Meeting room not found. Please check the meeting code.".
Proof.
  intros st.
  assert (reachable st) as Hreach
    by (apply run_reachable; [constructor|compute_done]).
  split; [exact Hreach|]. split.
  - pose proof (joinRoom_answer st "b@x.com" "abc" Hreach) as H.
    assert (rooms st !! toUpperCase "abc" = Some 0%nat) as Hin
      by compute_done.
    rewrite Hin in H.
    destruct H as (this & Hroom & H); [done|done|reflexivity|].
    assert (heap st !! 0%nat = Some (Room.mk "ABC" "ABC" ["s1"] 10 [] true 50))
      as Hobj by compute_done.
    rewrite Hobj in Hroom. injection Hroom as <-.
    simpl in H. destruct H as (-> & _). f_equal.
  - pose proof (joinRoom_answer st "b@x.com" "nowhere" Hreach) as H.
    assert (rooms st !! toUpperCase "nowhere" = None) as Hin by compute_done.
    rewrite Hin in H. apply H; [done|done|reflexivity].
Defined.

(** * The rate limiter *)

Section limiter.
Implicit Types (store : gmap string (list Z)) (times acc : list Z).

Lemma filter_window_shrinks (earlier later : Z) (l : list Z) :
  earlier ≤ later →
  filter (λ x, later - x < 60000) (filter (λ x, earlier - x < 60000) l)
  = filter (λ x, later - x < 60000) l.
Proof.
  intros Hle. induction l as [|x l IH]; [done|].
  destruct (decide (earlier - x < 60000)) as [Hin|Hout].
  - rewrite (filter_cons_True (λ x, earlier - x < 60000)) by done.
    destruct (decide (later - x < 60000)).
    + rewrite !(filter_cons_True (λ x, later - x < 60000)) by done.
      by rewrite IH.
    + rewrite !(filter_cons_False (λ x, later - x < 60000)) by done.
      exact IH.
  - rewrite (filter_cons_False (λ x, earlier - x < 60000)) by done.
    rewrite (filter_cons_False (λ x, later - x < 60000)) by lia.
    exact IH.
Qed.

(** What the store holds for the address after serving: the requests let
    through that are less than a minute older than the last of them. *)
Lemma serve_window ip times store acc :
  default [] (store !! ip) =
    match last acc with
    | Some latest => filter (λ x, latest - x < 60000) acc
    | None => []
    end →
  chronological times →
  (∀ t x, t ∈ times → x ∈ acc → x ≤ t) →
  ∀ earlier now later,
    (serve ip times store).1 = earlier ++ now :: later →
    (length (filter (λ x, (now - x < 60000)%Z) (acc ++ earlier ++ [now]))
     ≤ 30)%nat.
Proof.
  revert store acc. induction times as [|t times IH];
    intros store acc Hstore Hchrono Hafter earlier now later Hpassed.
  { simpl in Hpassed. by destruct earlier. }
  destruct Hchrono as [Hfirst Hchrono]. simpl in Hpassed.
  unfold rateLimiter in Hpassed.
  set (recent := filter (λ time, t - time < 60000) (default [] (store !! ip)))
    in *.
  assert (recent = filter (λ x, t - x < 60000) acc) as Hrecent.
  { subst recent. rewrite Hstore.
    destruct (last acc) as [latest|] eqn:Hlast.
    - apply filter_window_shrinks, Hafter; [by left|].
      apply last_Some in Hlast as [l' ->]. apply elem_of_app. right.
      by apply list_elem_of_singleton.
    - apply last_None in Hlast. by subst acc. }
  destruct (30 <=? length recent)%nat eqn:Hfull.
  - destruct (serve ip times store) as [passed store''] eqn:Hserve.
    simpl in Hpassed. subst passed.
    eapply (IH store acc); [done|done| |by rewrite Hserve].
    intros t' x Ht' Hx. apply Hafter; [by right|done].
  - apply Nat.leb_gt in Hfull.
    destruct (serve ip times (<[ip := recent ++ [t]]> store))
      as [passed store''] eqn:Hserve.
    simpl in Hpassed.
    assert (filter (λ x, t - x < 60000) (acc ++ [t]) = recent ++ [t])
      as Hnew.
    { rewrite filter_app, <- Hrecent.
      by rewrite filter_cons_True, filter_nil by lia. }
    destruct earlier as [|e earlier]; simpl in Hpassed.
    + injection Hpassed as <- <-. simpl. rewrite Hnew, length_app. simpl. lia.
    + injection Hpassed as <- ->.
      replace (acc ++ (t :: earlier) ++ [now])
        with ((acc ++ [t]) ++ earlier ++ [now])
        by (by rewrite <- !app_assoc).
      eapply (IH (<[ip := recent ++ [t]]> store) (acc ++ [t]));
        [|done| |by rewrite Hserve].
      * rewrite lookup_insert_eq, last_snoc. simpl. by rewrite Hnew.
      * intros t' x Ht' [Hx|Hx%list_elem_of_singleton]%elem_of_app.
        -- apply Hafter; [by right|done].
        -- subst x. by apply Hfirst.
Qed.
End limiter.

(** X18. The rate limiter lets through at most 30 requests per minute and
    address: for requests of one address arriving in time order at a store
    that has no record of it, each request that is let through is, counted
    together with the earlier ones let through less than 60000 ms before
    it, at most the 30th. *)
Theorem rateLimiter_thirty_per_minute
    (ip : string) (times : list Z) (store : gmap string (list Z))
    (earlier later : list Z) (now : Z) :
  store !! ip = None →
  chronological times →
  (serve ip times store).1 = earlier ++ now :: later →
  (length (filter (λ x, (now - x < 60000)%Z) (earlier ++ [now])) ≤ 30)%nat.
Proof.
  intros Hnone Hchrono Hpassed.
  apply (serve_window ip times store [] ltac:(by rewrite Hnone) Hchrono
           ltac:(by intros ? ? ? ?%elem_of_nil) earlier now later Hpassed).
Qed.

Lemma rateLimiter_thirty_per_minute_witness :
  let times := replicate 40 1000 ++ [61000] in
  chronological times ∧
  (serve "10.0.0.1" times ∅).1 = replicate 30 1000 ++ [61000] ∧
  (length
     (filter (λ x, (61000 - x < 60000)%Z)
        (replicate 30 1000%Z ++ [61000%Z]))
   ≤ 30)%nat.
Proof.
  intros times.
  assert (chronological times) as Hchrono.
  { subst times. simpl. repeat split; try done;
      intros t' Hin; repeat (apply elem_of_cons in Hin as [->|Hin]; [lia|]);
      by apply elem_of_nil in Hin. }
  assert ((serve "10.0.0.1" times ∅).1 = replicate 30 1000 ++ [61000])
    as Hpassed by (vm_compute; reflexivity).
  split; [exact Hchrono|]. split; [exact Hpassed|].
  apply (rateLimiter_thirty_per_minute "10.0.0.1" times ∅
           (replicate 30 1000) [] 61000); [done|exact Hchrono|].
  by rewrite Hpassed.
Defined.

(** X19. A refused request (status 429) is not recorded and changes
    nothing; a request is always let through when every recorded request
    of its address is at least 60000 ms old, so refusals never lengthen
    the wait; and serving one address never touches the record of
    another. *)
Theorem rateLimiter_recovers
    (ip : string) (now : Z) (store : gmap string (list Z)) :
  ((rateLimiter ip now store).1 = false →
     (rateLimiter ip now store).2 = store ∧
     (30 ≤ length (default [] (store !! ip)))%nat) ∧
  ((∀ t, t ∈ default [] (store !! ip) → 60000 ≤ now - t) →
     rateLimiter ip now store = (true, <[ip := [now]]> store)) ∧
  (∀ other, other ≠ ip →
     (rateLimiter ip now store).2 !! other = store !! other).
Proof.
  unfold rateLimiter. split_and!.
  - destruct (30 <=? _)%nat eqn:Hfull; [|done]. intros _. split; [done|].
    apply Nat.leb_le in Hfull.
    pose proof (length_filter (λ time, now - time < 60000)
                  (default [] (store !! ip))). lia.
  - intros Hold.
    assert (filter (λ time, now - time < 60000) (default [] (store !! ip))
            = []) as ->; [|done].
    induction (default [] (store !! ip)) as [|t l IH]; [done|].
    rewrite filter_cons_False.
    + apply IH. intros t' Hin. apply Hold. by right.
    + specialize (Hold t ltac:(by left)). lia.
  - intros other Hne. destruct (30 <=? _)%nat; [done|].
    simpl. by rewrite lookup_insert_ne.
Qed.

Lemma rateLimiter_recovers_witness :
  let store : gmap string (list Z) := {[ "10.0.0.1" := replicate 30 1000 ]} in
  (rateLimiter "10.0.0.1" 2000 store).1 = false ∧
  (rateLimiter "10.0.0.1" 2000 store).2 = store ∧
  rateLimiter "10.0.0.1" 61000 store
  = (true, <[ "10.0.0.1" := [61000] ]> store).
Proof.
  intros store.
  assert ((rateLimiter "10.0.0.1" 2000 store).1 = false) as Hno
    by (vm_compute; reflexivity).
  split; [exact Hno|].
  destruct (rateLimiter_recovers "10.0.0.1" 2000 store) as (H & _ & _).
  split; [exact (proj1 (H Hno))|].
  destruct (rateLimiter_recovers "10.0.0.1" 61000 store) as (_ & H' & _).
  apply H'. intros t Hin.
  assert (t = 1000) as ->.
  { subst store. rewrite lookup_singleton_eq in Hin. simpl in Hin.
    repeat (apply elem_of_cons in Hin as [->|Hin]; [done|]).
    by apply elem_of_nil in Hin. }
  lia.
Defined.
